(** * Camera manager of the Frigate card: a shallow embedding

    The development follows [CameraManager] (camera-manager/manager.ts):
    camera initialisation into the store, the federated query fan-out
    [_handleQuery], the conversion of results into media with
    de-duplication and ordering ([_sortMedia]), pagination
    ([extendMediaQueries]), the freshness policy, seek-time lookup and
    capability aggregation.

    Conventions.
    - A [Date] is its millisecond timestamp (what [<] and [>] compare).
    - A JavaScript object that is used as a [Map] key or compared by
      identity carries its address ([Ref]); object spread allocates a new
      address from a counter threaded through the [Alloc] monad.
    - A [Map] or [Set] is an insertion-ordered association list or list,
      because iteration order is observable in the code.
    - Asynchronous calls are run one after the other in dispatch order.
      Where the order in which they resolve shows in the result (the
      entry order of the map [_handleQuery] returns),
      [_handleQueryAsync] takes that order as a parameter. *)

From Stdlib Require Import List String ZArith Bool Arith Lia Permutation Sorted.
Import ListNotations.
Local Open Scope Z_scope.

Definition Date := Z.
Definition Ref := nat.

(** ** Media *)

Module Media.

(** [ViewMedia]: the object's address, [getID()], the camera it belongs
    to, [getStartTime()] and [getEndTime()]. *)
Record ViewMedia := mkMedia {
  media_addr : Ref;
  getID : option string;
  getCameraID : string;
  getStartTime : option Date;
  getEndTime : option Date
}.

(** The value of the [uniqBy] iteratee [media.getID() ?? media]: the ID
    string when there is one, the media object itself otherwise. *)
Inductive MediaKey :=
| KeyID (id : string)
| KeyObject (addr : Ref).

Definition mediaKey (m : ViewMedia) : MediaKey :=
  match getID m with
  | Some id => KeyID id
  | None => KeyObject (media_addr m)
  end.

(** SameValueZero on iteratee values: strings by content, objects by
    address; a string never equals an object. *)
Definition mediaKey_eqb (a b : MediaKey) : bool :=
  match a, b with
  | KeyID x, KeyID y => String.eqb x y
  | KeyObject x, KeyObject y => Nat.eqb x y
  | _, _ => false
  end.

End Media.
Export Media.

(** ** lodash: [uniqBy] and [orderBy] *)

Module Lodash.

Section UniqBy.
Context {A K : Type} (eqb : K -> K -> bool) (iteratee : A -> K).

  (** [baseUniq]: walk the array, keep an element when its computed value
      has not been seen, and remember the value. *)
Fixpoint baseUniq (seen : list K) (array : list A) : list A :=
    match array with
    | [] => []
    | x :: rest =>
        if existsb (eqb (iteratee x)) seen
        then baseUniq seen rest
        else x :: baseUniq (iteratee x :: seen) rest
    end.

Definition uniqBy (array : list A) : list A := baseUniq [] array.
End UniqBy.

(** [compareAscending] on the values [getStartTime()] can return: a
    [Date] or [null].  Dates compare by timestamp; [null] sorts after
    every date; two nulls, or two dates of equal time, compare equal. *)
Definition compareAscending (value other : option Date) : comparison :=
  match value, other with
  | Some v, Some o => if v >? o then Gt else if v <? o then Lt else Eq
  | None, Some _ => Gt
  | Some _, None => Lt
  | None, None => Eq
  end.

Section OrderBy.
Context {A : Type} (iteratee : A -> option Date).

  (** [orderBy(collection, iteratee, 'asc')] sorts by [compareAscending]
      of the iteratee values and breaks ties by original index.  Such a
      sort is stable, and insertion from the right, placing an element
      before the first one that is not smaller, computes it. *)
Fixpoint insertAsc (x : A) (sorted : list A) : list A :=
    match sorted with
    | [] => [x]
    | y :: rest =>
        match compareAscending (iteratee x) (iteratee y) with
        | Gt => y :: insertAsc x rest
        | _ => x :: y :: rest
        end
    end.

Fixpoint orderByAsc (collection : list A) : list A :=
    match collection with
    | [] => []
    | x :: rest => insertAsc x (orderByAsc rest)
    end.
End OrderBy.

End Lodash.
Export Lodash.

(** ** [_sortMedia] *)

Definition _sortMedia (mediaArray : list ViewMedia) : list ViewMedia :=
  orderByAsc getStartTime (uniqBy mediaKey_eqb mediaKey mediaArray).

(** ** Objects and allocation *)

Module Alloc.

(** A computation that may allocate objects: it takes the next free
    address and returns its value with the next free address after it. *)
Definition Alloc (A : Type) : Type := Ref -> A * Ref.

Definition ret {A} (x : A) : Alloc A := fun next => (x, next).

Definition bind {A B} (c : Alloc A) (k : A -> Alloc B) : Alloc B :=
  fun next => let (x, next') := c next in k x next'.

Definition fresh : Alloc Ref := fun next => (next, S next).

Fixpoint mapM {A B} (f : A -> Alloc B) (l : list A) : Alloc (list B) :=
  match l with
  | [] => ret []
  | x :: rest =>
      bind (f x) (fun y => bind (mapM f rest) (fun ys => ret (y :: ys)))
  end.

Fixpoint foldM {A S} (f : S -> A -> Alloc S) (l : list A) (s : S) : Alloc S :=
  match l with
  | [] => ret s
  | x :: rest => bind (f s x) (foldM f rest)
  end.

End Alloc.
Export Alloc.

Declare Scope alloc_scope.
Delimit Scope alloc_scope with alloc.
Notation "x <- c ;; k" := (bind c (fun x => k))
  (at level 61, c at next level, right associativity) : alloc_scope.

(** An object: its address and its own enumerable fields. *)
Record Obj (A : Type) := mkObj { addr : Ref; val : A }.
Arguments mkObj {A} _ _.
Arguments addr {A} _.
Arguments val {A} _.

(** Object spread [{ ...fields }]: a new object with the given fields. *)
Definition spread {A} (fields : A) : Alloc (Obj A) :=
  (a <- fresh ;; ret (mkObj a fields))%alloc.

(** ** Queries and results *)

Inductive QueryType := QEvent | QRecording | QRecordingSegments.
Inductive QueryResultsType := REvent | RRecording | RRecordingSegments.

(** An engine, named by its backend type: the engine of a type stands
    for the instance of that type the manager works with.  (The factory
    of the source makes an instance for each camera it resolves while the
    store holds no engine of the camera's type; instances of one type
    run the same code, and the statements below are about the engine a
    camera is stored with, whichever instance that is.) *)
Definition Engine := nat.

Record DataQuery := mkQuery {
  q_type : QueryType;
  cameraIDs : list string;
  q_start : option Date;
  q_end : option Date;
  q_limit : option Z
}.

Definition Query := Obj DataQuery.

Definition withCameraIDs (q : DataQuery) (ids : list string) : DataQuery :=
  mkQuery (q_type q) ids (q_start q) (q_end q) (q_limit q).
Definition withStart (q : DataQuery) (t : Date) : DataQuery :=
  mkQuery (q_type q) (cameraIDs q) (Some t) (q_end q) (q_limit q).
Definition withEnd (q : DataQuery) (t : Date) : DataQuery :=
  mkQuery (q_type q) (cameraIDs q) (q_start q) (Some t) (q_limit q).
Definition withLimit (q : DataQuery) (n : Z) : DataQuery :=
  mkQuery (q_type q) (cameraIDs q) (q_start q) (q_end q) (Some n).

(** The backend-specific payload of a result, opaque to the manager. *)
Definition Payload := list Z.

Record QueryResults := mkResults {
  r_type : QueryResultsType;
  r_engine : Engine;
  r_cached : bool;
  r_payload : Payload
}.

Module QueryClassifier.
Definition isEventQuery (q : DataQuery) : bool :=
    match q_type q with QEvent => true | _ => false end.
Definition isRecordingQuery (q : DataQuery) : bool :=
    match q_type q with QRecording => true | _ => false end.
Definition isRecordingSegmentsQuery (q : DataQuery) : bool :=
    match q_type q with QRecordingSegments => true | _ => false end.
End QueryClassifier.

Module QueryResultClassifier.
Definition isEventQueryResult (r : QueryResults) : bool :=
    match r_type r with REvent => true | _ => false end.
Definition isRecordingQuery (r : QueryResults) : bool :=
    match r_type r with RRecording => true | _ => false end.
Definition isRecordingSegmentsQuery (r : QueryResults) : bool :=
    match r_type r with RRecordingSegments => true | _ => false end.
End QueryResultClassifier.

(** [Map<QT, QueryReturnType<QT>>]: entries in insertion order, keys
    compared by object identity. *)
Definition ResultsMap := list (Query * QueryResults).

Fixpoint map_set (m : ResultsMap) (key : Query) (value : QueryResults) : ResultsMap :=
  match m with
  | [] => [(key, value)]
  | (k, v) :: rest =>
      if Nat.eqb (addr k) (addr key) then (k, value) :: rest
      else (k, v) :: map_set rest key value
  end.


(** [arrayify]: a single value or an array of them. *)
Inductive OneOrMany (A : Type) :=
| One (x : A)
| Many (xs : list A).
Arguments One {A} _.
Arguments Many {A} _.

Definition arrayify {A} (v : OneOrMany A) : list A :=
  match v with One x => [x] | Many xs => xs end.

(** ** Camera configuration, capabilities, errors *)

Record CameraConfig := mkConfig {
  cfg_id : option string;
  cfg_camera_entity : option string;
  triggers_motion : bool;
  triggers_occupancy : bool
}.

Record CameraManagerCameraCapabilities := mkCapabilities {
  canFavoriteEvents : bool;
  canFavoriteRecordings : bool;
  supportsClips : bool;
  supportsRecordings : bool;
  supportsSnapshots : bool;
  supportsTimeline : bool
}.
Definition CameraManagerCapabilities := CameraManagerCameraCapabilities.

(** The localisation keys [initializeCameras] raises, and whatever an
    engine raises from [initializeCamera]. *)
Inductive ErrorMessage :=
| error_no_camera_engine
| error_no_camera_id
| error_duplicate_camera_id
| error_no_cameras
| error_from_engine (what : string).

(** [CameraInitializationError(message, context?)]. *)
Record CameraInitializationError := mkError {
  message : ErrorMessage;
  context : option CameraConfig
}.

Definition Cameras := list (string * CameraConfig).

Module EngineContract.

(** The engine contract, as far as the manager calls it.  The query
    methods and the media generators take the query object; the max age
    of results depends on the fields of the query only.  A promise is
    the value it resolves to. *)
Record CameraManagerEngine := mkEngine {
  initializeCamera : CameraConfig -> CameraInitializationError + CameraConfig;
  getEvents : Cameras -> Query -> option ResultsMap;
  getRecordings : Cameras -> Query -> option ResultsMap;
  getRecordingSegments : Cameras -> Query -> option ResultsMap;
  generateMediaFromEvents :
    Cameras -> Query -> QueryResults -> option (list ViewMedia);
  generateMediaFromRecordings :
    Cameras -> Query -> QueryResults -> option (list ViewMedia);
  getQueryResultMaxAge : DataQuery -> option Z;
  getCameraCapabilities : CameraConfig -> option CameraManagerCameraCapabilities;
  getMediaSeekTime : Cameras -> ViewMedia -> Date -> option Z
}.

End EngineContract.
Abbreviation CameraManagerEngine := EngineContract.CameraManagerEngine.

(** ** The camera store *)

Module CameraManagerStore.

(** Modelled from the spec: the store class (camera-manager/store.ts) is
    not among the sources.  It maps a camera ID to its configuration and
    owning engine, in insertion order. *)
Definition Store := list (string * (CameraConfig * Engine)).

(** Modelled from the spec: the store a new manager is constructed with. *)
Definition empty : Store := [].

(** Modelled from the spec: lookup by camera ID. *)
Fixpoint lookup (store : Store) (cameraID : string) : option (CameraConfig * Engine) :=
  match store with
  | [] => None
  | (id, entry) :: rest =>
      if String.eqb id cameraID then Some entry else lookup rest cameraID
  end.

(** Modelled from the spec: [hasCameraID(id)]. *)
Definition hasCameraID (store : Store) (cameraID : string) : bool :=
  match lookup store cameraID with Some _ => true | None => false end.

(** Modelled from the spec: [getCameraConfig(id)]. *)
Definition getCameraConfig (store : Store) (cameraID : string) : option CameraConfig :=
  option_map fst (lookup store cameraID).

(** Modelled from the spec: [getEngineForCameraID(id)]. *)
Definition getEngineForCameraID (store : Store) (cameraID : string) : option Engine :=
  option_map snd (lookup store cameraID).

(** Modelled from the spec: [getCameraCount()]. *)
Definition getCameraCount (store : Store) : nat := List.length store.

(** Modelled from the spec: [getCameras()], insertion-ordered. *)
Definition getCameras (store : Store) : Cameras :=
  map (fun e => (fst e, fst (snd e))) store.

(** Modelled from the spec: [getCameraIDs()]. *)
Definition getCameraIDs (store : Store) : list string := map fst store.

(** Modelled from the spec: [addCamera(id, config, engine)] fails
    (duplicate-camera) if [id] exists, and appends the camera otherwise. *)
Definition addCamera (store : Store) (cameraID : string) (config : CameraConfig)
    (engine : Engine) : CameraInitializationError + Store :=
  if hasCameraID store cameraID
  then inl (mkError error_duplicate_camera_id (Some config))
  else inr (store ++ [(cameraID, (config, engine))]).

(** Modelled from the spec: adding one camera ID to the set an engine
    owns in the grouping built by [getEnginesForCameraIDs]. *)
Fixpoint groupAdd (groups : list (Engine * list string)) (engine : Engine)
    (cameraID : string) : list (Engine * list string) :=
  match groups with
  | [] => [(engine, [cameraID])]
  | (e, ids) :: rest =>
      if Nat.eqb e engine
      then (e, if existsb (String.eqb cameraID) ids then ids else ids ++ [cameraID]) :: rest
      else (e, ids) :: groupAdd rest engine cameraID
  end.

(** Modelled from the spec: [getEnginesForCameraIDs(ids)] groups the
    requested IDs by owning engine; IDs owned by no engine are silently
    dropped; the result is [null] when no engine owns any of them. *)
Definition getEnginesForCameraIDs (store : Store) (ids : list string)
    : option (list (Engine * list string)) :=
  let groups :=
    fold_left
      (fun acc cameraID =>
         match getEngineForCameraID store cameraID with
         | Some engine => groupAdd acc engine cameraID
         | None => acc
         end)
      ids []
  in
  match groups with [] => None | _ => Some groups end.

(** Modelled from the spec: [getEngineOfType(type)], the engine instance
    of that backend type if some camera was added with it. *)
Definition getEngineOfType (store : Store) (engineType : Engine) : option Engine :=
  if existsb (fun e => Nat.eqb (snd (snd e)) engineType) store
  then Some engineType else None.

(** Modelled from the spec: [getAllEngines()], the distinct engines. *)
Definition getAllEngines (store : Store) : list Engine :=
  nodup Nat.eq_dec (map (fun e => snd (snd e)) store).

(** Modelled from the spec: [getEngineForMedia(media)] resolves through
    the media's camera reference. *)
Definition getEngineForMedia (store : Store) (media : ViewMedia) : option Engine :=
  getEngineForCameraID store (Media.getCameraID media).

(** Modelled from the spec: [getCameraConfigForMedia(media)] resolves
    through the media's camera reference. *)
Definition getCameraConfigForMedia (store : Store) (media : ViewMedia)
    : option CameraConfig :=
  getCameraConfig store (Media.getCameraID media).

End CameraManagerStore.
Import CameraManagerStore.

(** ** The camera manager *)

Record InitializedCamera := mkInitialized {
  inputConfig : CameraConfig;
  initializedConfig : CameraConfig;
  engine : Engine
}.

(** What a call of [initializeCameras] leaves behind: the store, whether
    the entity list was fetched, and the error thrown, if any. *)
Record InitOutcome := mkOutcome {
  out_store : Store;
  out_fetchedEntityList : bool;
  out_error : option CameraInitializationError
}.

Record ExtendedMediaQueryResult := mkExtended {
  ext_queries : list Query;
  ext_results : list ViewMedia
}.

Inductive Direction := earlier | later.
Inductive Want := earliest | latest.

(** A call made to an engine, recorded where a claim speaks of whether
    the engine is invoked. *)
Inductive EngineCall :=
| CallGetMediaSeekTime (engine : Engine) (cameras : Cameras)
    (media : ViewMedia) (target : Date).

(** [allPromises(items, f)]: the results in input order, or the first
    rejection. *)
Fixpoint allPromises {A B E} (items : list A) (f : A -> E + B) : E + list B :=
  match items with
  | [] => inr []
  | x :: rest =>
      match f x with
      | inl e => inl e
      | inr y =>
          match allPromises rest f with
          | inl e => inl e
          | inr ys => inr (y :: ys)
          end
      end
  end.

(** [!id] for [id : string | null]: [null] and the empty string. *)
Definition falsy (id : option string) : bool :=
  match id with
  | None => true
  | Some s => String.eqb s EmptyString
  end.

(** [add(date, { seconds })] of date-fns. *)
Definition add_seconds (date : Date) (seconds : Z) : Date := date + 1000 * seconds.

Section CameraManager.

(** [getCameraID] of utils/camera.ts, the engine factory's
    [getEngineForCamera], and the engines behind the engine contract. *)
Variable getCameraID : CameraConfig -> option string.
Variable getEngineForCamera : CameraConfig -> option Engine.
Variable engineOf : Engine -> CameraManagerEngine.

Definition _initializeCamera (store : Store) (inputCameraConfig : CameraConfig)
    : CameraInitializationError + InitializedCamera :=
  match getEngineForCamera inputCameraConfig with
  | None => inl (mkError error_no_camera_engine (Some inputCameraConfig))
  | Some engineType =>
      (* the store's engine of that type, or a new one from the factory *)
      let engine :=
        match getEngineOfType store engineType with
        | Some e => e
        | None => engineType
        end in
      match EngineContract.initializeCamera (engineOf engine) inputCameraConfig with
      | inl e => inl e
      | inr initializedConfig =>
          inr (mkInitialized inputCameraConfig initializedConfig engine)
      end
  end.

Definition hasAutoTriggers (config : CameraConfig) : bool :=
  triggers_motion config || triggers_occupancy config.

(** The [results.forEach] of [initializeCameras]: the store is updated in
    place, so what was added before a [throw] stays added. *)
Fixpoint addResults (store : Store) (results : list InitializedCamera)
    : Store * option CameraInitializationError :=
  match results with
  | [] => (store, None)
  | result :: rest =>
      let id := getCameraID (initializedConfig result) in
      if falsy id
      then (store, Some (mkError error_no_camera_id (Some (inputConfig result))))
      else
        match id with
        | None => (store, Some (mkError error_no_camera_id (Some (inputConfig result))))
        | Some id =>
            if hasCameraID store id
            then (store,
                  Some (mkError error_duplicate_camera_id (Some (inputConfig result))))
            else
              match addCamera store id (initializedConfig result) (engine result) with
              | inl e => (store, Some e)
              | inr store' => addResults store' rest
              end
        end
  end.

Definition initializeCameras (store : Store) (camerasConfig : list CameraConfig)
    : InitOutcome :=
  let fetched := existsb hasAutoTriggers camerasConfig in
  match allPromises camerasConfig (_initializeCamera store) with
  | inl e => mkOutcome store fetched (Some e)
  | inr results =>
      let (store', thrown) := addResults store results in
      match thrown with
      | Some e => mkOutcome store' fetched (Some e)
      | None =>
          if Nat.eqb (getCameraCount store') 0
          then mkOutcome store' fetched (Some (mkError error_no_cameras None))
          else mkOutcome store' fetched None
      end
  end.

Definition isInitialized (store : Store) : bool :=
  Nat.ltb 0 (getCameraCount store).

(** *** Query execution *)

(** [engineResult?.forEach((value, key) => results.set(key, value))]. *)
Definition mergeInto (results : ResultsMap) (engineResult : option ResultsMap)
    : ResultsMap :=
  match engineResult with
  | None => results
  | Some fragment =>
      fold_left (fun acc kv => map_set acc (fst kv) (snd kv)) fragment results
  end.

(** The engine method chosen by the query's discriminant. *)
Definition dispatchQuery (store : Store) (engine : Engine) (query : Query)
    : option ResultsMap :=
  match q_type (val query) with
  | QEvent => EngineContract.getEvents (engineOf engine) (getCameras store) query
  | QRecording => EngineContract.getRecordings (engineOf engine) (getCameras store) query
  | QRecordingSegments =>
      EngineContract.getRecordingSegments (engineOf engine) (getCameras store) query
  end.

Definition processEngineQuery (store : Store) (results : ResultsMap)
    (engine : Engine) (query : Query) : ResultsMap :=
  mergeInto results (dispatchQuery store engine query).

(** The per-engine clones [{ ...query, cameraIDs: engines.get(engine) }]
    of one query, with the engine each goes to. *)
Definition cloneFor (query : Query) (owner : Engine * list string)
    : Alloc (Engine * Query) :=
  let (engine, owned) := owner in
  (clone <- spread (withCameraIDs (val query) owned) ;;
   ret (engine, clone))%alloc.

Definition engineQueries (store : Store) (query : Query)
    : Alloc (list (Engine * Query)) :=
  match getEnginesForCameraIDs store (cameraIDs (val query)) with
  | None => ret []
  | Some engines => mapM (cloneFor query) engines
  end.

Definition processQuery (store : Store) (results : ResultsMap) (query : Query)
    : Alloc ResultsMap :=
  (dispatched <- engineQueries store query ;;
   ret (fold_left (fun acc '(engine, clone) => processEngineQuery store acc engine clone)
                  dispatched results))%alloc.

(** The diagnostic log written before returning reads the results and
    changes nothing; it is left out. *)
Definition _handleQuery (store : Store) (query : OneOrMany Query) : Alloc ResultsMap :=
  foldM (processQuery store) (arrayify query) [].

(** [_handleQuery] with the order in which the engine calls resolve made
    explicit.  [_queries.map(processQuery)] and, inside it,
    [engines.keys().map(processEngineQuery)] run each call up to its
    first [await]: every clone is made and every engine call started, in
    dispatch order, before any call resolves.  The fragment of a call is
    merged into the map when that call resolves.  [resolutionOrder] puts
    the started calls in the order they resolve; [_handleQuery] above
    takes them in the order they were started. *)
Definition _handleQueryAsync
    (resolutionOrder : list (Engine * Query) -> list (Engine * Query))
    (store : Store) (query : OneOrMany Query) : Alloc ResultsMap :=
  (started <- mapM (engineQueries store) (arrayify query) ;;
   ret (fold_left (fun acc '(engine, clone) => processEngineQuery store acc engine clone)
          (resolutionOrder (List.concat started)) []))%alloc.

Definition getEvents (store : Store) (query : OneOrMany Query) : Alloc ResultsMap :=
  _handleQuery store query.
Definition getRecordings (store : Store) (query : OneOrMany Query) : Alloc ResultsMap :=
  _handleQuery store query.
Definition getRecordingSegments (store : Store) (query : OneOrMany Query)
    : Alloc ResultsMap :=
  _handleQuery store query.

(** *** Media conversion *)

Definition mediaOfEntry (store : Store) (entry : Query * QueryResults)
    : list ViewMedia :=
  let (query, result) := entry in
  match getEngineOfType store (r_engine result) with
  | None => []
  | Some engine =>
      let media :=
        if QueryClassifier.isEventQuery (val query)
           && QueryResultClassifier.isEventQueryResult result
        then EngineContract.generateMediaFromEvents (engineOf engine) (getCameras store) query result
        else if QueryClassifier.isRecordingQuery (val query)
                && QueryResultClassifier.isRecordingQuery result
        then EngineContract.generateMediaFromRecordings (engineOf engine) (getCameras store) query result
        else None in
      match media with
      | Some media => media
      | None => []
      end
  end.

Definition _convertQueryResultsToMedia (store : Store) (results : ResultsMap)
    : list ViewMedia :=
  _sortMedia (flat_map (mediaOfEntry store) results).

Definition executeMediaQueries (store : Store) (queries : list Query)
    : Alloc (list ViewMedia) :=
  (results <- _handleQuery store (Many queries) ;;
   ret (_convertQueryResultsToMedia store results))%alloc.

(** *** Pagination *)

(** [getTimeFromResults(want)]: one pass over the results, keeping the
    start time that is strictly earlier (later) than the one held. *)
Definition getTimeFromResults (results : list ViewMedia) (want : Want) : option Date :=
  fold_left
    (fun output result =>
       match getStartTime result with
       | Some startTime =>
           match output with
           | None => Some startTime
           | Some held =>
               if match want with
                  | earliest => startTime <? held
                  | latest => startTime >? held
                  end
               then Some startTime
               else output
           end
       | None => output
       end)
    results None.

(** The fields of [newChunkQuery] for one query. *)
Definition newChunkQueryOf (results : list ViewMedia) (direction : Direction)
    (chunkSize : Z) (query : DataQuery) : DataQuery :=
  let rewritten :=
    match direction with
    | later =>
        match getTimeFromResults results latest with
        | Some latestResult => withStart query latestResult
        | None => query
        end
    | earlier =>
        match getTimeFromResults results earliest with
        | Some earliestResult => withEnd query earliestResult
        | None => query
        end
    end in
  withLimit rewritten chunkSize.

(** The fields of the re-constituted combined query for one query:
    [{ ...query, limit: (query.limit ?? 0) + chunkSize }]. *)
Definition extendedQueryOf (chunkSize : Z) (query : DataQuery) : DataQuery :=
  withLimit query
    (match q_limit query with Some limit => limit | None => 0 end + chunkSize).

(** The loop over [queries]: per query the chunk query is created first,
    then the extended query. *)
Definition buildQueries (queries : list Query) (results : list ViewMedia)
    (direction : Direction) (chunkSize : Z) : Alloc (list (Query * Query)) :=
  mapM (fun query : Query =>
          (newChunkQuery <- spread (newChunkQueryOf results direction chunkSize (val query)) ;;
           extendedQuery <- spread (extendedQueryOf chunkSize (val query)) ;;
           ret (newChunkQuery, extendedQuery))%alloc)
       queries.

Definition extendMediaQueries (store : Store) (queries : list Query)
    (results : list ViewMedia) (direction : Direction) (chunkSize : Z)
    : Alloc (option ExtendedMediaQueryResult) :=
  (built <- buildQueries queries results direction chunkSize ;;
   let newChunkQueries := map fst built in
   let extendedQueries := map snd built in
   chunkResults <- _handleQuery store (Many newChunkQueries) ;;
   let newChunkMedia := _convertQueryResultsToMedia store chunkResults in
   match newChunkMedia with
   | [] => ret None
   | _ => ret (Some (mkExtended extendedQueries (_sortMedia (results ++ newChunkMedia))))
   end)%alloc.

(** *** Freshness *)

Definition areMediaQueriesResultsFresh (store : Store) (now : Date)
    (queries : list Query) (resultsTimestamp : Date) : bool :=
  forallb
    (fun query : Query =>
       match getEnginesForCameraIDs store (cameraIDs (val query)) with
       | None => true
       | Some engines =>
           forallb
             (fun '(engine, owned) =>
                match EngineContract.getQueryResultMaxAge (engineOf engine)
                        (withCameraIDs (val query) owned) with
                | Some maxAgeSeconds =>
                    negb (add_seconds resultsTimestamp maxAgeSeconds <? now)
                | None => true
                end)
             engines
       end)
    queries.

(** *** Seek time *)

(** The result comes with the engine calls made on the way. *)
Definition getMediaSeekTime (store : Store) (media : ViewMedia) (target : Date)
    : list EngineCall * option Z :=
  let startTime := getStartTime media in
  let endTime := getEndTime media in
  let cameraConfig := getCameraConfigForMedia store media in
  let engine := getEngineForMedia store media in
  match cameraConfig, engine, startTime, endTime with
  | Some _, Some engine, Some startTime, Some endTime =>
      if (target <? startTime) || (target >? endTime)
      then ([], None)
      else ([CallGetMediaSeekTime engine (getCameras store) media target],
            EngineContract.getMediaSeekTime (engineOf engine) (getCameras store) media target)
  | _, _, _, _ => ([], None)
  end.

(** *** Capabilities *)

Definition getCameraCapabilities (store : Store) (cameraID : string)
    : option CameraManagerCameraCapabilities :=
  match getCameraConfig store cameraID, getEngineForCameraID store cameraID with
  | Some cameraConfig, Some engine =>
      EngineContract.getCameraCapabilities (engineOf engine) cameraConfig
  | _, _ => None
  end.

(** [perCameraCapabilities.some((cap) => cap?.flag)]. *)
Definition some_cap (flag : CameraManagerCameraCapabilities -> bool)
    (perCameraCapabilities : list (option CameraManagerCameraCapabilities)) : bool :=
  existsb (fun cap => match cap with Some c => flag c | None => false end)
          perCameraCapabilities.

Definition getAggregateCameraCapabilities (store : Store)
    (cameraIDs : option (list string)) : CameraManagerCapabilities :=
  let perCameraCapabilities :=
    map (getCameraCapabilities store)
        (match cameraIDs with Some ids => ids | None => getCameraIDs store end) in
  mkCapabilities
    (some_cap canFavoriteEvents perCameraCapabilities)
    (some_cap canFavoriteRecordings perCameraCapabilities)
    (some_cap supportsClips perCameraCapabilities)
    (some_cap supportsRecordings perCameraCapabilities)
    (some_cap supportsSnapshots perCameraCapabilities)
    (some_cap supportsTimeline perCameraCapabilities).

End CameraManager.

(** Every per-engine clone made for a batch of queries, in the order the
    engine calls are dispatched. *)
Definition dispatchedQueries (store : Store) (queries : list Query)
    : Alloc (list (Engine * Query)) :=
  (perQuery <- mapM (engineQueries store) queries ;; ret (List.concat perQuery))%alloc.



(** [t] is the latest (earliest) start time present in the results. *)
Definition isLatestStart (results : list ViewMedia) (t : Date) : Prop :=
  In (Some t) (map getStartTime results) /\
  forall t', In (Some t') (map getStartTime results) -> t' <= t.

Definition isEarliestStart (results : list ViewMedia) (t : Date) : Prop :=
  In (Some t) (map getStartTime results) /\
  forall t', In (Some t') (map getStartTime results) -> t <= t'.

(** [query.limit ?? 0]. *)
Definition limitOrZero (query : DataQuery) : Z :=
  match q_limit query with Some limit => limit | None => 0 end.

(** ** Notions the claims are stated with *)

Section ClaimNotions.

Variable engineOf : Engine -> CameraManagerEngine.

(** The (engine, owned camera subset) pairs a query contributes, each
    with the max age the engine reports for the query scoped to it. *)
Definition contributes (store : Store) (query : Query) (engine : Engine)
    (owned : list string) (maxAge : option Z) : Prop :=
  exists engines,
    getEnginesForCameraIDs store (cameraIDs (val query)) = Some engines /\
    In (engine, owned) engines /\
    EngineContract.getQueryResultMaxAge (engineOf engine)
      (withCameraIDs (val query) owned) = maxAge.

(** A capability flag of one camera; a camera without capabilities
    (unknown camera, or an engine that reports none) has no flag set. *)
Definition cameraFlag (flag : CameraManagerCameraCapabilities -> bool)
    (store : Store) (cameraID : string) : bool :=
  match getCameraCapabilities engineOf store cameraID with
  | Some capabilities => flag capabilities
  | None => false
  end.

(** The logical OR of a flag over a list of cameras. *)
Definition anyCamera (flag : CameraManagerCameraCapabilities -> bool)
    (store : Store) (requested : list string) : bool :=
  fold_right orb false (map (cameraFlag flag store) requested).

End ClaimNotions.

(** ** A concrete installation

    Two cameras, [A] on engine 0 and [B] on engine 1.  Each engine
    answers a query with one result keyed by the query it was given, turns
    an event result into one media item of its own, and leaves the
    configuration unchanged on initialisation.  Engine 0 has clips and
    unbounded result age; engine 1 has no clips and a result age of sixty
    seconds. *)

Module Fixtures.

Local Open Scope string_scope.

Definition configFor (id : string) : CameraConfig :=
  mkConfig (Some id) None false false.


Definition idOfConfig (config : CameraConfig) : option string := cfg_id config.

Definition engineForConfig (config : CameraConfig) : option Engine :=
  match cfg_id config with
  | Some id => if String.eqb id "B" then Some 1%nat else Some 0%nat
  | None => Some 0%nat
  end.

Definition mediaX : ViewMedia := mkMedia 100%nat (Some "x") "A" (Some 30) (Some 40).
Definition mediaY : ViewMedia := mkMedia 101%nat (Some "y") "B" (Some 10) (Some 20).
Definition mediaXAgain : ViewMedia := mkMedia 102%nat (Some "x") "A" (Some 30) (Some 40).
Definition mediaAnonymous : ViewMedia := mkMedia 103%nat None "A" (Some 20) (Some 25).

Definition mediaOfEngine (tag : Engine) : list ViewMedia :=
  if Nat.eqb tag 0 then [mediaX] else [mediaY].

Definition engines (tag : Engine) : CameraManagerEngine :=
  EngineContract.mkEngine
    (fun config => inr config)
    (fun _ query => Some [(query, mkResults REvent tag false [])])
    (fun _ query => Some [(query, mkResults RRecording tag true [])])
    (fun _ query => Some [(query, mkResults RRecordingSegments tag false [])])
    (fun _ _ _ => Some (mediaOfEngine tag))
    (fun _ _ _ => None)
    (fun _ => if Nat.eqb tag 0 then None else Some 60)
    (fun _ => Some (mkCapabilities false false (Nat.eqb tag 0) false false false))
    (fun _ media target =>
       option_map (fun startTime => (target - startTime) / 1000) (getStartTime media)).

Definition storeAB : Store :=
  [("A", (configFor "A", 0%nat)); ("B", (configFor "B", 1%nat))].

(** The caller's query object, at address 0, for the events of both
    cameras; the next free address is 1. *)
Definition queryAB : Query := mkObj 0%nat (mkQuery QEvent ["A"; "B"] None None None).

(** A query for a camera no engine owns. *)
Definition queryUnknown : Query := mkObj 0%nat (mkQuery QEvent ["Z"] None None None).

Definition resultFor (config : CameraConfig) (tag : Engine) : InitializedCamera :=
  mkInitialized config config tag.

End Fixtures.

(** * Properties *)

(** What [addCamera] appends for the accepted results, given the IDs
    derived from them. *)
Definition committed (ids : list string) (accepted : list InitializedCamera) : Store :=
  map (fun '(id, result) => (id, (initializedConfig result, engine result)))
      (combine ids accepted).


(** ** Counting and keys *)

Definition count {A} (p : A -> bool) (l : list A) : nat := List.length (filter p l).

(** The media item carries the ID [X]. *)
Definition hasID (X : string) (m : ViewMedia) : bool :=
  mediaKey_eqb (mediaKey m) (KeyID X).

(** The media item has no ID and is the object at address [a]. *)
Definition isObject (a : Ref) (m : ViewMedia) : bool :=
  mediaKey_eqb (mediaKey m) (KeyObject a).

(** Start times in the order [orderBy] puts them: dates ascending, then
    the items without a start time. *)
Definition startsNoLater (a b : ViewMedia) : Prop :=
  match getStartTime a, getStartTime b with
  | Some x, Some y => x <= y
  | None, Some _ => False
  | _, None => True
  end.

Definition sameStart (t : option Date) (m : ViewMedia) : bool :=
  match compareAscending (getStartTime m) t with Eq => true | _ => false end.

Lemma mediaKey_eqb_spec a b : reflect (a = b) (mediaKey_eqb a b).
Proof.
  destruct a as [x|x], b as [y|y]; simpl; try (constructor; discriminate).
  - destruct (String.eqb_spec x y); constructor; congruence.
  - destruct (Nat.eqb_spec x y); constructor; congruence.
Qed.

Lemma mediaKey_eqb_refl a : mediaKey_eqb a a = true.
Proof. destruct (mediaKey_eqb_spec a a); congruence. Qed.

Lemma mediaKey_eqb_sym a b : mediaKey_eqb a b = mediaKey_eqb b a.
Proof.
  destruct (mediaKey_eqb_spec a b), (mediaKey_eqb_spec b a); congruence.
Qed.

Lemma count_perm {A} (p : A -> bool) l1 l2 :
  Permutation l1 l2 -> count p l1 = count p l2.
Proof.
  unfold count. induction 1; simpl; auto.
  - destruct (p x); simpl; congruence.
  - destruct (p x), (p y); simpl; reflexivity.
  - congruence.
Qed.

(** ** [uniqBy] *)

Section UniqByFacts.
Context {A : Type} (key : A -> MediaKey).

Let uniq := baseUniq mediaKey_eqb key.

Lemma baseUniq_incl seen l x : In x (uniq seen l) -> In x l.
Proof.
  revert seen. induction l as [|y l IH]; intros seen; simpl; [tauto|].
  destruct (existsb _ seen).
  - intros H. right. eapply IH, H.
  - intros [-> | H]; [now left | right; eapply IH, H].
Qed.

(** How many kept elements carry the key [k]: none when [k] was already
    seen or does not occur, one otherwise. *)
Lemma baseUniq_count k seen l :
  count (fun x => mediaKey_eqb (key x) k) (uniq seen l) =
  if existsb (mediaKey_eqb k) seen then 0%nat
  else if existsb (fun x => mediaKey_eqb (key x) k) l then 1%nat else 0%nat.
Proof.
  revert seen. induction l as [|y l IH]; intros seen; simpl.
  - now destruct (existsb _ seen).
  - destruct (existsb (mediaKey_eqb (key y)) seen) eqn:Ey.
    + rewrite IH. destruct (existsb (mediaKey_eqb k) seen) eqn:Ek; [reflexivity|].
      destruct (mediaKey_eqb_spec (key y) k) as [Heq|]; [|reflexivity].
      rewrite Heq in Ey. congruence.
    + unfold count in *. simpl. specialize (IH (key y :: seen)). simpl in IH.
      rewrite (mediaKey_eqb_sym k (key y)) in IH.
      destruct (mediaKey_eqb_spec (key y) k) as [Heq|Hne]; simpl.
      * rewrite IH. rewrite <- Heq, Ey. reflexivity.
      * rewrite IH. reflexivity.
Qed.

Lemma uniqBy_count k l :
  count (fun x => mediaKey_eqb (key x) k) (uniqBy mediaKey_eqb key l) =
  if existsb (fun x => mediaKey_eqb (key x) k) l then 1%nat else 0%nat.
Proof. exact (baseUniq_count k [] l). Qed.

Lemma uniqBy_incl l x : In x (uniqBy mediaKey_eqb key l) -> In x l.
Proof. apply baseUniq_incl. Qed.

End UniqByFacts.

(** ** [orderBy] *)

Section OrderByFacts.

Let sortByStart := orderByAsc getStartTime.
Let insertByStart := insertAsc getStartTime.

Lemma compareAscending_Gt a b :
  compareAscending (getStartTime a) (getStartTime b) <> Gt <-> startsNoLater a b.
Proof.
  unfold startsNoLater, compareAscending.
  destruct (getStartTime a) as [x|], (getStartTime b) as [y|].
  - destruct (Z.gtb_spec x y).
    + split; [congruence | lia].
    + split; [intros _; lia | intros _]. destruct (x <? y); discriminate.
  - split; [trivial | discriminate].
  - split; [congruence | tauto].
  - split; [trivial | discriminate].
Qed.

Lemma startsNoLater_total a b : startsNoLater a b \/ startsNoLater b a.
Proof.
  unfold startsNoLater.
  destruct (getStartTime a), (getStartTime b); auto; lia.
Qed.

Lemma startsNoLater_trans a b c :
  startsNoLater a b -> startsNoLater b c -> startsNoLater a c.
Proof.
  unfold startsNoLater.
  destruct (getStartTime a), (getStartTime b), (getStartTime c); auto; try lia; tauto.
Qed.

Lemma insertAsc_perm x l : Permutation (insertByStart x l) (x :: l).
Proof.
  induction l as [|y l IH]; simpl; [reflexivity|].
  destruct (compareAscending _ _); try reflexivity.
  rewrite perm_swap. now apply perm_skip.
Qed.

Lemma orderByAsc_perm l : Permutation (sortByStart l) l.
Proof.
  induction l as [|x l IH]; simpl; [constructor|].
  etransitivity; [apply insertAsc_perm | now apply perm_skip].
Qed.

Lemma insertAsc_sorted x l :
  StronglySorted startsNoLater l -> StronglySorted startsNoLater (insertByStart x l).
Proof.
  induction 1 as [|y l Hs IH Hall]; simpl.
  - repeat constructor.
  - destruct (compareAscending (getStartTime x) (getStartTime y)) eqn:E.
    + assert (Hxy : startsNoLater x y) by (apply compareAscending_Gt; congruence).
      constructor; [now constructor|].
      constructor; [assumption|].
      eapply Forall_impl; [|exact Hall].
      intros z. now apply startsNoLater_trans.
    + assert (Hxy : startsNoLater x y) by (apply compareAscending_Gt; congruence).
      constructor; [now constructor|].
      constructor; [assumption|].
      eapply Forall_impl; [|exact Hall].
      intros z. now apply startsNoLater_trans.
    + constructor; [assumption|].
      assert (Hyx : startsNoLater y x).
      { destruct (startsNoLater_total x y) as [H|H]; [|assumption].
        apply compareAscending_Gt in H. congruence. }
      eapply Permutation_Forall; [symmetry; apply insertAsc_perm|].
      now constructor.
Qed.

Lemma orderByAsc_sorted l : StronglySorted startsNoLater (sortByStart l).
Proof.
  induction l as [|x l IH]; simpl; [constructor | now apply insertAsc_sorted].
Qed.

Lemma sameStart_not_Gt t x y :
  sameStart t x = true -> sameStart t y = true ->
  compareAscending (getStartTime x) (getStartTime y) <> Gt.
Proof.
  unfold sameStart, compareAscending.
  destruct (getStartTime x) as [a|], (getStartTime y) as [b|], t as [c|];
    try discriminate;
    repeat match goal with
           | |- context [?u >? ?v] => destruct (Z.gtb_spec u v)
           | |- context [?u <? ?v] => destruct (Z.ltb_spec u v)
           end; try discriminate; try lia.
Qed.

(** Inserting never moves an element past one of the same start time. *)
Lemma insertAsc_stable t x l :
  filter (sameStart t) (insertByStart x l) = filter (sameStart t) (x :: l).
Proof.
  induction l as [|y l IH]; simpl; [reflexivity|].
  destruct (compareAscending (getStartTime x) (getStartTime y)) eqn:E;
    try reflexivity.
  simpl. simpl in IH. rewrite IH.
  destruct (sameStart t x) eqn:Hx, (sameStart t y) eqn:Hy; try reflexivity.
  exfalso. now apply (sameStart_not_Gt t x y).
Qed.

Lemma orderByAsc_stable t l :
  filter (sameStart t) (sortByStart l) = filter (sameStart t) l.
Proof.
  induction l as [|x l IH]; simpl; [reflexivity|].
  unfold sortByStart in *. simpl.
  etransitivity; [apply insertAsc_stable|]. simpl. now rewrite IH.
Qed.

End OrderByFacts.

(** ** [_sortMedia]: de-duplication and order *)

Lemma sortMedia_count_key k l :
  count (fun m => mediaKey_eqb (mediaKey m) k) (_sortMedia l) =
  if existsb (fun m => mediaKey_eqb (mediaKey m) k) l then 1%nat else 0%nat.
Proof.
  unfold _sortMedia.
  rewrite (count_perm _ _ _ (orderByAsc_perm _)).
  apply uniqBy_count.
Qed.

Lemma sortMedia_count_present k l m :
  In m l -> mediaKey m = k ->
  count (fun m => mediaKey_eqb (mediaKey m) k) (_sortMedia l) = 1%nat.
Proof.
  intros Hin Hk. rewrite sortMedia_count_key.
  replace (existsb _ l) with true; [reflexivity|].
  symmetry. apply existsb_exists. exists m. split; [assumption|].
  rewrite Hk. apply mediaKey_eqb_refl.
Qed.

Lemma sortMedia_incl l m : In m (_sortMedia l) -> In m l.
Proof.
  unfold _sortMedia. intros H.
  apply (uniqBy_incl mediaKey).
  eapply Permutation_in; [apply orderByAsc_perm | exact H].
Qed.

Lemma sortMedia_count_le_1 k l :
  (count (fun m => mediaKey_eqb (mediaKey m) k) (_sortMedia l) <= 1)%nat.
Proof. rewrite sortMedia_count_key. destruct (existsb _ l); lia. Qed.

Section SortMediaClaims.

Variable engineOf : Engine -> CameraManagerEngine.

(** C2.  [_sortMedia] de-duplicates by media identity: when one or more
    items of the input carry the ID [X], exactly one item of the output
    carries [X]; an item without an ID counts as itself (the object), and
    every such object of the input is in the output, once; nothing is in
    the output that was not in the input.  The same holds of
    [executeMediaQueries], whose output is [_sortMedia] of the media the
    result fragments produce. *)
Theorem sortMedia_dedup_by_identity :
  (forall mediaArray : list ViewMedia,
     (forall X m, In m mediaArray -> getID m = Some X ->
        count (hasID X) (_sortMedia mediaArray) = 1%nat) /\
     (forall m, In m mediaArray -> getID m = None ->
        count (isObject (media_addr m)) (_sortMedia mediaArray) = 1%nat) /\
     (forall m, In m (_sortMedia mediaArray) -> In m mediaArray)) /\
  (forall store queries next,
     let fragments := fst (_handleQuery engineOf store (Many queries) next) in
     let produced := flat_map (mediaOfEntry engineOf store) fragments in
     let output := fst (executeMediaQueries engineOf store queries next) in
     (forall X m, In m produced -> getID m = Some X ->
        count (hasID X) output = 1%nat) /\
     (forall m, In m produced -> getID m = None ->
        count (isObject (media_addr m)) output = 1%nat) /\
     (forall m, In m output -> In m produced)).
Proof.
  assert (Hsort : forall mediaArray : list ViewMedia,
     (forall X m, In m mediaArray -> getID m = Some X ->
        count (hasID X) (_sortMedia mediaArray) = 1%nat) /\
     (forall m, In m mediaArray -> getID m = None ->
        count (isObject (media_addr m)) (_sortMedia mediaArray) = 1%nat) /\
     (forall m, In m (_sortMedia mediaArray) -> In m mediaArray)).
  { intros l. repeat split.
    - intros X m Hin Hid. apply (sortMedia_count_present _ l m Hin).
      unfold mediaKey. now rewrite Hid.
    - intros m Hin Hid. apply (sortMedia_count_present _ l m Hin).
      unfold mediaKey. now rewrite Hid.
    - apply sortMedia_incl. }
  split; [exact Hsort|].
  intros store queries next fragments produced output.
  assert (Hout : output = _sortMedia produced).
  { unfold output, executeMediaQueries, bind, ret, fragments, produced,
      _convertQueryResultsToMedia.
    destruct (_handleQuery engineOf store (Many queries) next); reflexivity. }
  rewrite Hout. apply Hsort.
Qed.

End SortMediaClaims.

Lemma uniqBy_three_distinct (m3 m1 m2 : ViewMedia) :
  mediaKey m1 <> mediaKey m2 -> mediaKey m1 <> mediaKey m3 ->
  mediaKey m2 <> mediaKey m3 ->
  uniqBy mediaKey_eqb mediaKey [m3; m1; m2] = [m3; m1; m2].
Proof.
  intros H12 H13 H23. unfold uniqBy. simpl.
  destruct (mediaKey_eqb_spec (mediaKey m1) (mediaKey m3)); [contradiction|].
  simpl.
  destruct (mediaKey_eqb_spec (mediaKey m2) (mediaKey m1)); [congruence|].
  destruct (mediaKey_eqb_spec (mediaKey m2) (mediaKey m3)); [contradiction|].
  reflexivity.
Qed.

Lemma orderByAsc_three (m3 m1 m2 : ViewMedia) (T1 T2 T3 : Date) :
  getStartTime m1 = Some T1 -> getStartTime m2 = Some T2 ->
  getStartTime m3 = Some T3 -> T1 <= T2 <= T3 ->
  map getStartTime (orderByAsc getStartTime [m3; m1; m2]) = [Some T1; Some T2; Some T3].
Proof.
  intros E1 E2 E3 Hle.
  assert (Hins : insertAsc getStartTime m1 [m2] = [m1; m2]).
  { cbn [insertAsc]. rewrite E1, E2. cbn [compareAscending].
    destruct (Z.gtb_spec T1 T2); [lia|]. now destruct (T1 <? T2). }
  change (orderByAsc getStartTime [m3; m1; m2])
    with (insertAsc getStartTime m3 (insertAsc getStartTime m1 [m2])).
  rewrite Hins. cbn [insertAsc]. rewrite E3, E1, E2. cbn [compareAscending].
  destruct (Z.gtb_spec T3 T1) as [H31|H31].
  - destruct (Z.gtb_spec T3 T2) as [H32|H32].
    + cbn [map]. now rewrite E1, E2, E3.
    + assert (T3 = T2) by lia. subst T3.
      destruct (T2 <? T2); cbn [map]; now rewrite E1, E2, E3.
  - assert (T3 = T1) by lia. assert (T2 = T1) by lia. subst T3 T2.
    destruct (T1 <? T1); cbn [map]; now rewrite E1, E2, E3.
Qed.

Section OrderClaims.

Variable engineOf : Engine -> CameraManagerEngine.

(** C3.  The output of [_sortMedia] is the de-duplicated input put in
    ascending order of start time (items without a start time last):
    it is sorted, it is a rearrangement of the de-duplicated list, and
    items of equal start time are in the order de-duplication left them.
    Three items that de-duplication keeps, given with start times
    [T3, T1, T2], come out with start times [T1, T2, T3].  The outputs of
    [executeMediaQueries] and the merged results of [extendMediaQueries]
    are outputs of [_sortMedia], hence sorted. *)
Theorem sortMedia_ascending_stable :
  (forall mediaArray : list ViewMedia,
     let deduplicated := uniqBy mediaKey_eqb mediaKey mediaArray in
     let output := _sortMedia mediaArray in
     StronglySorted startsNoLater output /\
     Permutation output deduplicated /\
     (forall t, filter (sameStart t) output = filter (sameStart t) deduplicated)) /\
  (forall (m1 m2 m3 : ViewMedia) (T1 T2 T3 : Date),
     getStartTime m1 = Some T1 -> getStartTime m2 = Some T2 ->
     getStartTime m3 = Some T3 -> T1 <= T2 <= T3 ->
     mediaKey m1 <> mediaKey m2 -> mediaKey m1 <> mediaKey m3 ->
     mediaKey m2 <> mediaKey m3 ->
     map getStartTime (_sortMedia [m3; m1; m2]) = [Some T1; Some T2; Some T3]) /\
  (forall store queries next,
     StronglySorted startsNoLater
       (fst (executeMediaQueries engineOf store queries next))) /\
  (forall store queries results direction chunkSize next extended,
     fst (extendMediaQueries engineOf store queries results direction chunkSize next)
       = Some extended ->
     StronglySorted startsNoLater (ext_results extended)).
Proof.
  repeat split.
  - apply orderByAsc_sorted.
  - apply orderByAsc_perm.
  - intros t. apply orderByAsc_stable.
  - intros m1 m2 m3 T1 T2 T3 E1 E2 E3 Hle H12 H13 H23.
    unfold _sortMedia. rewrite uniqBy_three_distinct by assumption.
    now apply orderByAsc_three.
  - intros store queries next.
    unfold executeMediaQueries, bind, ret.
    destruct (_handleQuery engineOf store (Many queries) next).
    apply orderByAsc_sorted.
  - intros store queries results direction chunkSize next extended.
    unfold extendMediaQueries, bind, ret.
    destruct (buildQueries _ _ _ _ _) as [built n1].
    destruct (_handleQuery _ _ _ _) as [chunk n2].
    destruct (_convertQueryResultsToMedia _ _ _); simpl; [discriminate|].
    intros [= <-]. apply orderByAsc_sorted.
Qed.

End OrderClaims.

(** ** The store *)

Lemma lookup_In store cameraID :
  lookup store cameraID <> None <-> In cameraID (getCameraIDs store).
Proof.
  induction store as [|[id entry] store IH]; simpl.
  - tauto.
  - destruct (String.eqb_spec id cameraID) as [->|Hne].
    + split; [auto | discriminate].
    + rewrite IH. split; [auto | intros [H|H]; [contradiction | assumption]].
Qed.

Lemma hasCameraID_true store cameraID :
  hasCameraID store cameraID = true <-> In cameraID (getCameraIDs store).
Proof.
  rewrite <- lookup_In. unfold hasCameraID.
  destruct (lookup store cameraID); split; congruence.
Qed.

Lemma hasCameraID_false store cameraID :
  hasCameraID store cameraID = false <-> ~ In cameraID (getCameraIDs store).
Proof.
  rewrite <- hasCameraID_true. destruct (hasCameraID store cameraID); split; congruence.
Qed.

Lemma getCameraIDs_app s1 s2 : getCameraIDs (s1 ++ s2) = getCameraIDs s1 ++ getCameraIDs s2.
Proof. apply map_app. Qed.

Lemma falsy_false id : falsy id = false <-> exists s, id = Some s /\ s <> EmptyString.
Proof.
  destruct id as [s|]; simpl.
  - destruct (String.eqb_spec s EmptyString); split.
    + discriminate.
    + intros (s' & [= <-] & H). contradiction.
    + intros _. eauto.
    + reflexivity.
  - split; [discriminate | intros (s & H & _); discriminate].
Qed.

(** ** Initialisation *)

Section InitializationFacts.

Variable getCameraID : CameraConfig -> option string.
Variable getEngineForCamera : CameraConfig -> option Engine.
Variable engineOf : Engine -> CameraManagerEngine.

Let idOf (result : InitializedCamera) := getCameraID (initializedConfig result).


(** The results accepted one after the other are committed in order. *)
Lemma addResults_accepted accepted : forall store ids rest,
  map idOf accepted = map Some ids ->
  ~ In EmptyString ids ->
  NoDup (getCameraIDs store ++ ids) ->
  addResults getCameraID store (accepted ++ rest) =
  addResults getCameraID (store ++ committed ids accepted) rest.
Proof.
  induction accepted as [|r accepted IH]; intros store ids rest Hids Hne Hnd.
  - destruct ids; [|discriminate]. simpl. now rewrite app_nil_r.
  - destruct ids as [|i ids]; [discriminate|].
    simpl in Hids. injection Hids as Hi Hids.
    cbn [app addResults]. fold (idOf r). rewrite Hi.
    assert (Hi' : i <> EmptyString) by (intros ->; apply Hne; now left).
    replace (falsy (Some i)) with false
      by (symmetry; apply falsy_false; eauto).
    assert (Hfree : hasCameraID store i = false).
    { apply hasCameraID_false. intros Hin.
      apply NoDup_remove_2 in Hnd. apply Hnd.
      apply in_or_app. now left. }
    unfold addCamera. rewrite Hfree.
    rewrite IH with (ids := ids); try assumption.
    + unfold committed. simpl. now rewrite <- app_assoc.
    + intros H. apply Hne. now right.
    + rewrite getCameraIDs_app. simpl. rewrite <- app_assoc. simpl.
      eapply Permutation_NoDup; [|exact Hnd].
      apply Permutation_app_head. reflexivity.
Qed.

Lemma addResults_missing_id store result rest :
  falsy (idOf result) = true ->
  addResults getCameraID store (result :: rest) =
  (store, Some (mkError error_no_camera_id (Some (inputConfig result)))).
Proof. intros H. simpl. fold (idOf result). now rewrite H. Qed.

Lemma addResults_duplicate store result rest id :
  idOf result = Some id -> id <> EmptyString ->
  In id (getCameraIDs store) ->
  addResults getCameraID store (result :: rest) =
  (store, Some (mkError error_duplicate_camera_id (Some (inputConfig result)))).
Proof.
  intros Hid Hne Hin. simpl. fold (idOf result). rewrite Hid.
  replace (falsy (Some id)) with false by (symmetry; apply falsy_false; eauto).
  apply hasCameraID_true in Hin. now rewrite Hin.
Qed.



End InitializationFacts.

Section InitializationClaims.

Variable getCameraID : CameraConfig -> option string.
Variable getEngineForCamera : CameraConfig -> option Engine.
Variable engineOf : Engine -> CameraManagerEngine.

Let idOf (result : InitializedCamera) := getCameraID (initializedConfig result).
Let initialize := initializeCameras getCameraID getEngineForCamera engineOf.
Let resolve store := _initializeCamera getEngineForCamera engineOf store.

Lemma getCameraIDs_committed ids accepted :
  map idOf accepted = map Some ids ->
  getCameraIDs (committed ids accepted) = ids.
Proof.
  revert ids. induction accepted as [|r accepted IH]; intros [|i ids]; simpl;
    try discriminate; [reflexivity|].
  intros [= _ H]. unfold committed, getCameraIDs in *. simpl. f_equal. now apply IH.
Qed.

(** When the loop completes, every result had an ID of its own. *)
Lemma addResults_completed results : forall store store',
  addResults getCameraID store results = (store', None) ->
  exists ids,
    map idOf results = map Some ids /\ ~ In EmptyString ids /\ NoDup ids /\
    (forall id, In id ids -> ~ In id (getCameraIDs store)) /\
    store' = store ++ committed ids results.
Proof.
  induction results as [|r results IH]; intros store store'; simpl.
  - intros [= <-]. exists []. repeat split; auto using NoDup_nil.
    unfold committed. simpl. now rewrite app_nil_r.
  - fold (idOf r). destruct (falsy (idOf r)) eqn:Hf; [discriminate|].
    destruct (idOf r) as [i|] eqn:Hi; [|discriminate].
    destruct (hasCameraID store i) eqn:Hhas; [discriminate|].
    unfold addCamera. rewrite Hhas. intros H.
    apply IH in H as (ids & Hids & Hne & Hnd & Hfree & ->).
    apply falsy_false in Hf as (s & [= <-] & Hs).
    apply hasCameraID_false in Hhas.
    exists (i :: ids). simpl. repeat split.
    + now rewrite Hids.
    + intros [H|H]; [congruence | contradiction].
    + constructor; [|assumption]. intros Hin.
      apply (Hfree i Hin). rewrite getCameraIDs_app. apply in_or_app. right. now left.
    + intros id [<-|Hin]; [assumption|]. intros Hs'.
      apply (Hfree id Hin). rewrite getCameraIDs_app. apply in_or_app. now left.
    + unfold committed. simpl. now rewrite <- app_assoc.
Qed.

(** The outcome when the first result that is not accepted throws. *)
Lemma initializeCameras_first_offender store camerasConfig accepted ids result rest err :
  allPromises camerasConfig (resolve store) = inr (accepted ++ result :: rest) ->
  map idOf accepted = map Some ids ->
  ~ In EmptyString ids ->
  NoDup (getCameraIDs store ++ ids) ->
  addResults getCameraID (store ++ committed ids accepted) (result :: rest)
    = (store ++ committed ids accepted, Some err) ->
  initialize store camerasConfig =
  mkOutcome (store ++ committed ids accepted)
            (existsb hasAutoTriggers camerasConfig) (Some err).
Proof.
  intros Hall Hids Hne Hnd Hthrow.
  unfold initialize, initializeCameras. unfold resolve in Hall. rewrite Hall.
  rewrite (addResults_accepted getCameraID accepted store ids) by assumption.
  now rewrite Hthrow.
Qed.


(** Whatever the loop throws, it throws at the first result that is not
    accepted, with the store holding the results accepted before it. *)
Lemma addResults_thrown results : forall store store' e,
  addResults getCameraID store results = (store', Some e) ->
  exists accepted ids result rest,
    results = accepted ++ result :: rest /\
    map idOf accepted = map Some ids /\
    ~ In EmptyString ids /\
    store' = store ++ committed ids accepted /\
    ((falsy (idOf result) = true /\
      e = mkError error_no_camera_id (Some (inputConfig result))) \/
     (exists id, idOf result = Some id /\ id <> EmptyString /\
                 In id (getCameraIDs store ++ ids) /\
                 e = mkError error_duplicate_camera_id (Some (inputConfig result)))).
Proof.
  induction results as [|r results IH]; intros store store' e; simpl;
    [discriminate|].
  fold (idOf r). destruct (falsy (idOf r)) eqn:Hf.
  - intros [= <- <-]. exists [], [], r, results. simpl.
    unfold committed. simpl. rewrite app_nil_r. repeat split; auto.
  - destruct (idOf r) as [i|] eqn:Hi; [|discriminate].
    apply falsy_false in Hf as (s & [= <-] & Hs).
    destruct (hasCameraID store i) eqn:Hhas.
    + intros [= <- <-]. exists [], [], r, results. simpl.
      unfold committed. simpl. rewrite !app_nil_r. repeat split; auto.
      right. exists i. repeat split; auto. now apply hasCameraID_true.
    + unfold addCamera. rewrite Hhas. intros H.
      apply IH in H as (accepted & ids & result & rest & -> & Hids & Hne & -> & Hoff).
      exists (r :: accepted), (i :: ids), result, rest. simpl. repeat split.
      * now rewrite Hi, Hids.
      * intros [H|H]; [congruence | contradiction].
      * unfold committed. simpl. now rewrite <- app_assoc.
      * destruct Hoff as [Hm|(id & Hid & Hid' & Hin & He)]; [now left|].
        right. exists id. repeat split; auto.
        rewrite getCameraIDs_app in Hin. simpl in Hin.
        rewrite <- app_assoc in Hin. exact Hin.
Qed.

Lemma initializeCameras_thrown store camerasConfig results e :
  allPromises camerasConfig (resolve store) = inr results ->
  out_error (initialize store camerasConfig) = Some e ->
  (e = mkError error_no_cameras None /\ results = [] /\
   out_store (initialize store camerasConfig) = []) \/
  exists accepted ids result rest,
    results = accepted ++ result :: rest /\
    map idOf accepted = map Some ids /\
    ~ In EmptyString ids /\
    out_store (initialize store camerasConfig) = store ++ committed ids accepted /\
    ((falsy (idOf result) = true /\
      e = mkError error_no_camera_id (Some (inputConfig result))) \/
     (exists id, idOf result = Some id /\ id <> EmptyString /\
                 In id (getCameraIDs store ++ ids) /\
                 e = mkError error_duplicate_camera_id (Some (inputConfig result)))).
Proof.
  intros Hall. unfold initialize, initializeCameras. unfold resolve in Hall.
  rewrite Hall.
  destruct (addResults getCameraID store results) as [store' thrown] eqn:Eadd.
  destruct thrown as [e'|].
  - simpl. intros [= ->]. right. now apply addResults_thrown.
  - destruct (Nat.eqb_spec (getCameraCount store') 0) as [Hz|Hnz]; [|discriminate].
    simpl. intros [= <-]. left. split; [reflexivity|].
    apply addResults_completed in Eadd as (ids & Hids & _ & _ & _ & ->).
    unfold getCameraCount in Hz. rewrite length_app in Hz.
    destruct results as [|r results]; [|destruct ids; simpl in *; [discriminate | lia]].
    destruct store; [|discriminate].
    destruct ids; [split; reflexivity | discriminate].
Qed.


(** C9.  [initializeCameras] does not roll back: when the first result
    that is not accepted throws (it derives no ID, or an ID already in
    the store), the store holds what it held before together with the
    cameras of the results accepted before it, in input order, and the
    call has failed.  Every duplicate-camera or missing-ID failure is of
    this kind: the error carries the input configuration of the result
    it was thrown at, and the store holds the results before that
    one. *)
Theorem initializeCameras_partial_commit store camerasConfig results :
  allPromises camerasConfig (resolve store) = inr results ->
  (forall accepted ids result rest,
     results = accepted ++ result :: rest ->
     map idOf accepted = map Some ids ->
     ~ In EmptyString ids ->
     NoDup (getCameraIDs store ++ ids) ->
     (falsy (idOf result) = true \/
      exists id, idOf result = Some id /\ id <> EmptyString /\
                 In id (getCameraIDs store ++ ids)) ->
     out_store (initialize store camerasConfig) = store ++ committed ids accepted /\
     getCameraIDs (out_store (initialize store camerasConfig))
       = getCameraIDs store ++ ids /\
     out_error (initialize store camerasConfig) <> None) /\
  (forall e,
     out_error (initialize store camerasConfig) = Some e ->
     message e = error_duplicate_camera_id \/ message e = error_no_camera_id ->
     exists accepted ids result rest,
       results = accepted ++ result :: rest /\
       map idOf accepted = map Some ids /\
       context e = Some (inputConfig result) /\
       out_store (initialize store camerasConfig) = store ++ committed ids accepted).
Proof.
  intros Hall. split.
  - intros accepted ids result rest -> Hids Hne Hnd Hoff.
    assert (Hthrow : exists err,
      addResults getCameraID (store ++ committed ids accepted) (result :: rest)
        = (store ++ committed ids accepted, Some err)).
    { destruct Hoff as [Hf | (id & Hid & Hid' & Hin)].
      - eexists. now apply addResults_missing_id.
      - eexists. eapply addResults_duplicate; try eassumption.
        rewrite getCameraIDs_app, getCameraIDs_committed; assumption. }
    destruct Hthrow as (err & Hthrow).
    erewrite initializeCameras_first_offender; try eassumption.
    simpl. repeat split.
    + rewrite getCameraIDs_app, getCameraIDs_committed; auto.
    + discriminate.
  - intros e Herr Hkind.
    destruct (initializeCameras_thrown _ _ _ _ Hall Herr)
      as [(-> & _) | (accepted & ids & result & rest & -> & Hids & _ & Hstore & Hoff)].
    + simpl in Hkind. destruct Hkind; discriminate.
    + exists accepted, ids, result, rest. repeat split; try assumption.
      destruct Hoff as [[_ ->] | (id & _ & _ & _ & ->)]; reflexivity.
Qed.

End InitializationClaims.

(** ** Freshness *)

Section FreshnessClaims.

Variable engineOf : Engine -> CameraManagerEngine.

(** C5.  [areMediaQueriesResultsFresh] is true exactly when, for every
    (engine, owned camera subset) contributing to the queries, the
    engine's max age is unbounded or the results' timestamp plus the max
    age is not before now.  One contributing engine whose max age has run
    out makes the answer false, whatever the others report. *)
Theorem areMediaQueriesResultsFresh_iff store now queries resultsTimestamp :
  (areMediaQueriesResultsFresh engineOf store now queries resultsTimestamp = true <->
   forall query engine owned maxAge,
     In query queries -> contributes engineOf store query engine owned maxAge ->
     maxAge = None \/
     exists seconds, maxAge = Some seconds /\
                     add_seconds resultsTimestamp seconds >= now) /\
  (forall query engine owned seconds,
     In query queries -> contributes engineOf store query engine owned (Some seconds) ->
     add_seconds resultsTimestamp seconds < now ->
     areMediaQueriesResultsFresh engineOf store now queries resultsTimestamp = false).
Proof.
  assert (Hiff :
    areMediaQueriesResultsFresh engineOf store now queries resultsTimestamp = true <->
    forall query engine owned maxAge,
      In query queries -> contributes engineOf store query engine owned maxAge ->
      maxAge = None \/
      exists seconds, maxAge = Some seconds /\
                      add_seconds resultsTimestamp seconds >= now).
  { unfold areMediaQueriesResultsFresh. rewrite forallb_forall. split.
    - intros H query engine owned maxAge Hq (engines & Heng & Hin & Hage).
      specialize (H query Hq). rewrite Heng in H.
      rewrite forallb_forall in H. specialize (H _ Hin). cbn beta iota in H.
      rewrite Hage in H. destruct maxAge as [seconds|]; [right | now left].
      exists seconds. split; [reflexivity|].
      destruct (Z.ltb_spec (add_seconds resultsTimestamp seconds) now);
        [discriminate | lia].
    - intros H query Hq.
      destruct (getEnginesForCameraIDs store (cameraIDs (val query)))
        as [engines|] eqn:Heng; [|reflexivity].
      apply forallb_forall. intros [engine owned] Hin.
      destruct (EngineContract.getQueryResultMaxAge _ _) as [seconds|] eqn:Hage;
        [|reflexivity].
      destruct (H query engine owned (Some seconds) Hq) as [Hn|(s & [= <-] & Hs)].
      + exists engines. auto.
      + discriminate.
      + destruct (Z.ltb_spec (add_seconds resultsTimestamp seconds) now);
          [lia | reflexivity]. }
  split; [exact Hiff|].
  intros query engine owned seconds Hq Hc Hstale.
  apply not_true_iff_false. intros Hfresh.
  pose proof (proj1 Hiff Hfresh) as E.
  destruct (E query engine owned (Some seconds) Hq Hc) as [Hn|(s & [= <-] & Hs)];
    [discriminate | lia].
Qed.

End FreshnessClaims.

(** ** Capabilities *)

Lemma existsb_fold_orb {A} (p : A -> bool) l :
  existsb p l = fold_right orb false (map p l).
Proof. induction l as [|x l IH]; simpl; [reflexivity | now rewrite IH]. Qed.

Section CapabilityClaims.

Variable engineOf : Engine -> CameraManagerEngine.

Lemma some_cap_any flag store requested :
  some_cap flag (map (getCameraCapabilities engineOf store) requested) =
  anyCamera engineOf flag store requested.
Proof.
  unfold some_cap, anyCamera. rewrite existsb_fold_orb, map_map. reflexivity.
Qed.

(** C8.  Each flag of [getAggregateCameraCapabilities(cameraIDs?)] is the
    logical OR of that flag over the per-camera capabilities of the
    requested cameras, which are all cameras of the store when no subset
    is given; so a flag is set in the aggregate exactly when some
    requested camera has it set (one camera with clips and one without
    give an aggregate with clips). *)
Theorem getAggregateCameraCapabilities_or store cameraIDs :
  let requested :=
    match cameraIDs with Some ids => ids | None => getCameraIDs store end in
  let aggregate := getAggregateCameraCapabilities engineOf store cameraIDs in
  canFavoriteEvents aggregate = anyCamera engineOf canFavoriteEvents store requested /\
  canFavoriteRecordings aggregate = anyCamera engineOf canFavoriteRecordings store requested /\
  supportsClips aggregate = anyCamera engineOf supportsClips store requested /\
  supportsRecordings aggregate = anyCamera engineOf supportsRecordings store requested /\
  supportsSnapshots aggregate = anyCamera engineOf supportsSnapshots store requested /\
  supportsTimeline aggregate = anyCamera engineOf supportsTimeline store requested /\
  (forall flag,
     anyCamera engineOf flag store requested = true <->
     exists cameraID, In cameraID requested /\ cameraFlag engineOf flag store cameraID = true).
Proof.
  intros requested aggregate. unfold aggregate, getAggregateCameraCapabilities.
  fold requested. simpl. rewrite !some_cap_any.
  repeat split; try reflexivity.
  - unfold anyCamera. rewrite <- existsb_fold_orb. intros H.
    apply existsb_exists in H. exact H.
  - unfold anyCamera. rewrite <- existsb_fold_orb. intros H.
    apply existsb_exists. exact H.
Qed.

End CapabilityClaims.

(** ** Seek time *)

Section SeekTimeClaims.

Variable engineOf : Engine -> CameraManagerEngine.

(** C10.  [getMediaSeekTime] returns [null] without calling the engine
    whenever the media's camera configuration or engine cannot be
    resolved, the media has no start time or no end time, or the target
    is strictly before the start or strictly after the end.  The engine's
    seek-time lookup is called only when none of these is the case, and
    then it is called once, on the store's cameras, the media and the
    target, and its answer is returned. *)
Theorem getMediaSeekTime_guard store media target :
  (getCameraConfigForMedia store media = None \/
   getEngineForMedia store media = None \/
   getStartTime media = None \/
   getEndTime media = None \/
   (exists startTime, getStartTime media = Some startTime /\ target < startTime) \/
   (exists endTime, getEndTime media = Some endTime /\ target > endTime) ->
   getMediaSeekTime engineOf store media target = ([], None)) /\
  (fst (getMediaSeekTime engineOf store media target) <> [] ->
   exists cameraConfig engine startTime endTime,
     getCameraConfigForMedia store media = Some cameraConfig /\
     getEngineForMedia store media = Some engine /\
     getStartTime media = Some startTime /\
     getEndTime media = Some endTime /\
     startTime <= target <= endTime) /\
  (forall cameraConfig engine startTime endTime,
     getCameraConfigForMedia store media = Some cameraConfig ->
     getEngineForMedia store media = Some engine ->
     getStartTime media = Some startTime ->
     getEndTime media = Some endTime ->
     startTime <= target <= endTime ->
     getMediaSeekTime engineOf store media target =
     ([CallGetMediaSeekTime engine (getCameras store) media target],
      EngineContract.getMediaSeekTime (engineOf engine) (getCameras store) media target)).
Proof.
  unfold getMediaSeekTime.
  destruct (getCameraConfigForMedia store media) as [cameraConfig|];
  destruct (getEngineForMedia store media) as [engine|];
  destruct (getStartTime media) as [startTime|];
  destruct (getEndTime media) as [endTime|];
  repeat split;
    try solve [ intros; simpl in *; congruence
              | intros ? ? ? ? ?; congruence || (intros; congruence) ].
  - intros [H|[H|[H|[H|[(s & [= <-] & H)|(e & [= <-] & H)]]]]];
      try discriminate.
    + destruct (Z.ltb_spec target startTime); [reflexivity | lia].
    + destruct (Z.ltb_spec target startTime); [reflexivity|].
      destruct (Z.gtb_spec target endTime); [reflexivity | lia].
  - intros Hcalls. exists cameraConfig, engine, startTime, endTime.
    repeat split; try reflexivity.
    + destruct (Z.ltb_spec target startTime); [simpl in Hcalls; congruence | lia].
    + destruct (Z.ltb_spec target startTime); [simpl in Hcalls; congruence |].
      destruct (Z.gtb_spec target endTime); [simpl in Hcalls; congruence | lia].
  - intros c e s t [= <-] [= <-] [= <-] [= <-] [Hs He].
    destruct (Z.ltb_spec target startTime); [lia|].
    destruct (Z.gtb_spec target endTime); [lia|]. reflexivity.
Qed.

End SeekTimeClaims.

(** ** Query fan-out *)


Lemma map_set_addrs m key value a :
  In a (map addr (map fst (map_set m key value))) <->
  In a (map addr (map fst m)) \/ a = addr key.
Proof.
  induction m as [|[k0 v0] m IH]; simpl.
  - split; [intros [<-|[]]; now right | intros [[] | ->]; now left].
  - destruct (Nat.eqb_spec (addr k0) (addr key)) as [E|E]; simpl.
    + split; [tauto|]. intros [H| ->]; [assumption | left; now symmetry].
    + rewrite IH. tauto.
Qed.

Lemma map_set_addrs_NoDup m key value :
  NoDup (map addr (map fst m)) -> NoDup (map addr (map fst (map_set m key value))).
Proof.
  induction m as [|[k0 v0] m IH]; simpl; intros Hnd.
  - constructor; [intros [] | constructor].
  - inversion Hnd as [|a l Hnotin Hnd']; subst.
    destruct (Nat.eqb_spec (addr k0) (addr key)) as [E|E]; simpl.
    + constructor; assumption.
    + constructor; [|now apply IH].
      rewrite map_set_addrs. intros [H|H]; [contradiction | congruence].
Qed.

Lemma map_set_new m key value :
  ~ In (addr key) (map addr (map fst m)) -> map_set m key value = m ++ [(key, value)].
Proof.
  induction m as [|[k0 v0] m IH]; simpl; intros Hnew; [reflexivity|].
  destruct (Nat.eqb_spec (addr k0) (addr key)) as [E|E].
  - exfalso. apply Hnew. now left.
  - f_equal. apply IH. intros H. apply Hnew. now right.
Qed.



Section FanOutFacts.

Variable engineOf : Engine -> CameraManagerEngine.
Variable store : Store.

Let step (acc : ResultsMap) (d : Engine * Query) : ResultsMap :=
  let (engine, clone) := d in processEngineQuery engineOf store acc engine clone.





Lemma mergeInto_NoDup fragment : forall results,
  NoDup (map addr (map fst results)) ->
  NoDup (map addr (map fst (mergeInto results fragment))).
Proof.
  destruct fragment as [fragment|]; [|auto]. unfold mergeInto.
  induction fragment as [|[k v] fragment IH]; intros results Hnd; simpl; [assumption|].
  apply IH. now apply map_set_addrs_NoDup.
Qed.




(** The clones made for one query: one per owning engine, each a new
    object holding the query's fields with the camera IDs narrowed to the
    cameras that engine owns. *)
Lemma engineQueries_spec query next dispatched next' :
  engineQueries store query next = (dispatched, next') ->
  (next <= next')%nat /\
  forall engine clone, In (engine, clone) dispatched ->
    exists engines owned,
      getEnginesForCameraIDs store (cameraIDs (val query)) = Some engines /\
      In (engine, owned) engines /\
      val clone = withCameraIDs (val query) owned /\
      (next <= addr clone < next')%nat.
Proof.
  unfold engineQueries.
  destruct (getEnginesForCameraIDs store (cameraIDs (val query))) as [engines|];
    [|intros [= <- <-]; split; [lia | intros ? ? []]].
  intros H.
  assert (Hgen : forall l n ds n',
    mapM (cloneFor query) l n = (ds, n') ->
    (n <= n')%nat /\
    forall engine clone, In (engine, clone) ds ->
      exists owned, In (engine, owned) l /\
        val clone = withCameraIDs (val query) owned /\ (n <= addr clone < n')%nat).
  { induction l as [|[e owned] l IH]; intros n ds n'; simpl.
    - intros [= <- <-]. split; [lia | intros ? ? []].
    - unfold bind, spread, fresh, ret. simpl.
      destruct (mapM (cloneFor query) l (S n)) as [ds' n''] eqn:El. intros [= <- <-].
      apply IH in El as [Hle Hds]. split; [lia|].
      intros engine clone [[= <- <-]|Hin].
      + exists owned. simpl. repeat split; auto; lia.
      + destruct (Hds _ _ Hin) as (o & Ho & Hv & Ha).
        exists o. repeat split; auto; lia. }
  apply Hgen in H as [Hle Hds]. split; [assumption|].
  intros engine clone Hin. destruct (Hds _ _ Hin) as (owned & Ho & Hv & Ha).
  exists engines, owned. auto.
Qed.

End FanOutFacts.

Section FanOutClaims.

Variable engineOf : Engine -> CameraManagerEngine.
Variable store : Store.

Let step (acc : ResultsMap) (d : Engine * Query) : ResultsMap :=
  let (engine, clone) := d in processEngineQuery engineOf store acc engine clone.

Lemma handleQuery_dispatched queries : forall acc next,
  foldM (processQuery engineOf store) queries acc next =
  (fold_left step (fst (dispatchedQueries store queries next)) acc,
   snd (dispatchedQueries store queries next)).
Proof.
  unfold dispatchedQueries, bind, ret.
  induction queries as [|query queries IH]; intros acc next; simpl; [reflexivity|].
  unfold bind, processQuery, ret. unfold bind.
  destruct (engineQueries store query next) as [d n1].
  rewrite IH. destruct (mapM (engineQueries store) queries n1) as [ds n2]. simpl.
  now rewrite fold_left_app.
Qed.


Lemma handleQueryAsync_dispatched resolutionOrder query next :
  _handleQueryAsync engineOf resolutionOrder store query next =
  (fold_left step (resolutionOrder (fst (dispatchedQueries store (arrayify query) next))) [],
   snd (dispatchedQueries store (arrayify query) next)).
Proof.
  unfold _handleQueryAsync, dispatchedQueries, bind, ret.
  now destruct (mapM (engineQueries store) (arrayify query) next).
Qed.


End FanOutClaims.

(** ** Pagination *)

Lemma getTimeFromResults_snoc results m want :
  getTimeFromResults (results ++ [m]) want =
  match getStartTime m with
  | Some startTime =>
      match getTimeFromResults results want with
      | None => Some startTime
      | Some held =>
          if match want with
             | earliest => startTime <? held
             | latest => startTime >? held
             end
          then Some startTime
          else Some held
      end
  | None => getTimeFromResults results want
  end.
Proof.
  unfold getTimeFromResults. rewrite fold_left_app. simpl.
  destruct (getStartTime m); [|reflexivity].
  now destruct (fold_left _ results None).
Qed.

Lemma getTimeFromResults_latest results :
  match getTimeFromResults results latest with
  | Some t => isLatestStart results t
  | None => forall t, ~ In (Some t) (map getStartTime results)
  end.
Proof.
  induction results as [|m results IH] using rev_ind; [intros t []|].
  rewrite getTimeFromResults_snoc.
  unfold isLatestStart in *. rewrite map_app. simpl.
  destruct (getStartTime m) as [s|];
    destruct (getTimeFromResults results latest) as [held|].
  - destruct IH as [Hin Hmax]. destruct (Z.gtb_spec s held) as [Hc|Hc].
    + split; [apply in_or_app; right; now left|].
      intros t' H. apply in_app_or in H as [H|[[= <-]|[]]]; [|lia].
      specialize (Hmax _ H). lia.
    + split; [apply in_or_app; now left|].
      intros t' H. apply in_app_or in H as [H|[[= <-]|[]]]; [auto | lia].
  - split; [apply in_or_app; right; now left|].
    intros t' H. apply in_app_or in H as [H|[[= <-]|[]]]; [|lia].
    now apply IH in H.
  - destruct IH as [Hin Hmax]. split; [apply in_or_app; now left|].
    intros t' H. apply in_app_or in H as [H|[H|[]]]; [auto | discriminate].
  - intros t H. apply in_app_or in H as [H|[H|[]]]; [|discriminate].
    now apply IH in H.
Qed.

Lemma getTimeFromResults_earliest results :
  match getTimeFromResults results earliest with
  | Some t => isEarliestStart results t
  | None => forall t, ~ In (Some t) (map getStartTime results)
  end.
Proof.
  induction results as [|m results IH] using rev_ind; [intros t []|].
  rewrite getTimeFromResults_snoc.
  unfold isEarliestStart in *. rewrite map_app. simpl.
  destruct (getStartTime m) as [s|];
    destruct (getTimeFromResults results earliest) as [held|].
  - destruct IH as [Hin Hmin]. destruct (Z.ltb_spec s held) as [Hc|Hc].
    + split; [apply in_or_app; right; now left|].
      intros t' H. apply in_app_or in H as [H|[[= <-]|[]]]; [|lia].
      specialize (Hmin _ H). lia.
    + split; [apply in_or_app; now left|].
      intros t' H. apply in_app_or in H as [H|[[= <-]|[]]]; [auto | lia].
  - split; [apply in_or_app; right; now left|].
    intros t' H. apply in_app_or in H as [H|[[= <-]|[]]]; [|lia].
    now apply IH in H.
  - destruct IH as [Hin Hmin]. split; [apply in_or_app; now left|].
    intros t' H. apply in_app_or in H as [H|[H|[]]]; [auto | discriminate].
  - intros t H. apply in_app_or in H as [H|[H|[]]]; [|discriminate].
    now apply IH in H.
Qed.

Lemma buildQueries_spec results direction chunkSize queries : forall next,
  Forall2
    (fun (query : Query) (pair : Query * Query) =>
       val (fst pair) = newChunkQueryOf results direction chunkSize (val query) /\
       val (snd pair) = extendedQueryOf chunkSize (val query))
    queries (fst (buildQueries queries results direction chunkSize next)).
Proof.
  unfold buildQueries.
  induction queries as [|query queries IH]; intros next; simpl; [constructor|].
  unfold bind, spread, fresh, ret. simpl.
  specialize (IH (S (S next))).
  destruct (mapM _ queries (S (S next))) as [built n']. simpl in *.
  constructor; [split; reflexivity | exact IH].
Qed.

Lemma Forall2_map_right {A B C} (P : A -> C -> Prop) (f : B -> C) l1 l2 :
  Forall2 (fun a b => P a (f b)) l1 l2 -> Forall2 P l1 (map f l2).
Proof. induction 1; simpl; constructor; assumption. Qed.

Lemma isLatestStart_unique results t t' :
  isLatestStart results t -> isLatestStart results t' -> t = t'.
Proof. intros [H1 H2] [H1' H2']. specialize (H2 _ H1'). specialize (H2' _ H1). lia. Qed.

Lemma isEarliestStart_unique results t t' :
  isEarliestStart results t -> isEarliestStart results t' -> t = t'.
Proof. intros [H1 H2] [H1' H2']. specialize (H2 _ H1'). specialize (H2' _ H1). lia. Qed.

Section PaginationClaims.

Variable engineOf : Engine -> CameraManagerEngine.

Lemma extendMediaQueries_unfold store queries results direction chunkSize next :
  let built := buildQueries queries results direction chunkSize next in
  let newChunkMedia :=
    fst (executeMediaQueries engineOf store (map fst (fst built)) (snd built)) in
  fst (extendMediaQueries engineOf store queries results direction chunkSize next) =
  match newChunkMedia with
  | [] => None
  | _ => Some (mkExtended (map snd (fst built)) (_sortMedia (results ++ newChunkMedia)))
  end.
Proof.
  unfold extendMediaQueries, executeMediaQueries, bind, ret.
  destruct (buildQueries queries results direction chunkSize next) as [built n1].
  simpl.
  destruct (_handleQuery engineOf store (Many (map fst built)) n1) as [chunk n2].
  simpl. now destruct (_convertQueryResultsToMedia engineOf store chunk).
Qed.

(** C6.  [extendMediaQueries] makes, for each original query, a chunk
    query that keeps the query's type and cameras, has the chunk size as
    its limit and, for direction [later], has its start bound set to the
    latest start time present in the existing results (for [earlier], its
    end bound set to the earliest one); when no result has a start time
    the bound is the original's; the other bound is the original's.  It
    executes the chunk queries, and when it returns a result, the
    extended queries are the originals with the limit (zero when absent)
    increased by the chunk size, and the results are [_sortMedia] of the
    prior results followed by the new chunk, in which no ID occurs twice
    and every ID of the prior results and of the chunk occurs once. *)
Theorem extendMediaQueries_extends store queries results direction chunkSize next :
  let built := buildQueries queries results direction chunkSize next in
  let newChunkQueries := map fst (fst built) in
  let newChunkMedia :=
    fst (executeMediaQueries engineOf store newChunkQueries (snd built)) in
  Forall2
    (fun query chunk : Query =>
       q_type (val chunk) = q_type (val query) /\
       cameraIDs (val chunk) = cameraIDs (val query) /\
       q_limit (val chunk) = Some chunkSize /\
       match direction with
       | later =>
           (forall t, isLatestStart results t -> q_start (val chunk) = Some t) /\
           ((forall t, ~ In (Some t) (map getStartTime results)) ->
            q_start (val chunk) = q_start (val query)) /\
           q_end (val chunk) = q_end (val query)
       | earlier =>
           (forall t, isEarliestStart results t -> q_end (val chunk) = Some t) /\
           ((forall t, ~ In (Some t) (map getStartTime results)) ->
            q_end (val chunk) = q_end (val query)) /\
           q_start (val chunk) = q_start (val query)
       end)
    queries newChunkQueries /\
  (forall extended,
     fst (extendMediaQueries engineOf store queries results direction chunkSize next)
       = Some extended ->
     Forall2
       (fun query ext : Query =>
          val ext = withLimit (val query) (limitOrZero (val query) + chunkSize))
       queries (ext_queries extended) /\
     ext_results extended = _sortMedia (results ++ newChunkMedia) /\
     (forall X, (count (hasID X) (ext_results extended) <= 1)%nat) /\
     (forall X m, In m (results ++ newChunkMedia) -> getID m = Some X ->
        count (hasID X) (ext_results extended) = 1%nat)).
Proof.
  intros built newChunkQueries newChunkMedia.
  assert (Hbuilt := buildQueries_spec results direction chunkSize queries next).
  fold built in Hbuilt.
  split.
  - apply Forall2_map_right. eapply Forall2_impl; [|exact Hbuilt].
    intros query [chunk ext] [Hchunk _]. simpl in *. rewrite Hchunk.
    unfold newChunkQueryOf.
    pose proof (getTimeFromResults_latest results) as Hl.
    pose proof (getTimeFromResults_earliest results) as He.
    destruct direction.
    + destruct (getTimeFromResults results earliest) as [t0|]; simpl;
        repeat split; try reflexivity.
      * intros t Ht. f_equal. eapply isEarliestStart_unique; eassumption.
      * intros Hnone. destruct He as [Hin _]. now apply Hnone in Hin.
      * intros t [Hin _]. now apply He in Hin.
    + destruct (getTimeFromResults results latest) as [t0|]; simpl;
        repeat split; try reflexivity.
      * intros t Ht. f_equal. eapply isLatestStart_unique; eassumption.
      * intros Hnone. destruct Hl as [Hin _]. now apply Hnone in Hin.
      * intros t [Hin _]. now apply Hl in Hin.
  - intros extended. rewrite extendMediaQueries_unfold.
    fold built. fold newChunkQueries. fold newChunkMedia.
    destruct newChunkMedia as [|m0 chunk] eqn:Echunk; [discriminate|].
    intros [= <-]. simpl. repeat split.
    + apply Forall2_map_right. eapply Forall2_impl; [|exact Hbuilt].
      intros query [c ext] [_ Hext]. exact Hext.
    + intros X. apply sortMedia_count_le_1.
    + intros X m Hin Hid. apply (sortMedia_count_present _ _ m Hin).
      unfold mediaKey. now rewrite Hid.
Qed.

(** C7.  [extendMediaQueries] returns [null] exactly when executing the
    chunk queries yields no media.  The prior results are an argument the
    function only reads; a [null] return hands the caller nothing in
    their place. *)
Theorem extendMediaQueries_no_more_data store queries results direction chunkSize next :
  let built := buildQueries queries results direction chunkSize next in
  let newChunkMedia :=
    fst (executeMediaQueries engineOf store (map fst (fst built)) (snd built)) in
  fst (extendMediaQueries engineOf store queries results direction chunkSize next) = None
  <-> newChunkMedia = [].
Proof.
  intros built newChunkMedia. rewrite extendMediaQueries_unfold.
  fold built. fold newChunkMedia.
  destruct newChunkMedia; split; congruence.
Qed.

End PaginationClaims.

(** * Concrete runs *)

Section ConcreteRuns.

Import Fixtures.
Local Open Scope string_scope.



(** C2, on three items of which two carry the ID [x]. *)
Lemma sortMedia_dedup_by_identity_witness :
  In mediaX [mediaX; mediaAnonymous; mediaXAgain] /\
  getID mediaX = Some "x" /\
  count (hasID "x") (_sortMedia [mediaX; mediaAnonymous; mediaXAgain]) = 1%nat.
Proof.
  split; [now left|]. split; [reflexivity|].
  apply (proj1 (proj1 (sortMedia_dedup_by_identity engines)
                  [mediaX; mediaAnonymous; mediaXAgain]) "x" mediaX);
    [now left | reflexivity].
Defined.

(** C3, on three items given with start times 30, 10 and 20. *)
Lemma sortMedia_ascending_stable_witness :
  map getStartTime (_sortMedia [mediaX; mediaY; mediaAnonymous])
  = [Some 10; Some 20; Some 30].
Proof.
  apply (proj1 (proj2 (sortMedia_ascending_stable engines))
           mediaY mediaAnonymous mediaX 10 20 30);
    try reflexivity; try lia; discriminate.
Defined.



(** C9, on the configurations [A], [B], [A], [C]: the second [A] is
    refused, [A] and [B] stay in the store, [C] is never added. *)
Lemma initializeCameras_partial_commit_witness :
  out_store (initializeCameras idOfConfig engineForConfig engines []
               [configFor "A"; configFor "B"; configFor "A"; configFor "C"])
  = [("A", (configFor "A", 0%nat)); ("B", (configFor "B", 1%nat))] /\
  out_error (initializeCameras idOfConfig engineForConfig engines []
               [configFor "A"; configFor "B"; configFor "A"; configFor "C"])
  <> None.
Proof.
  destruct (proj1 (initializeCameras_partial_commit idOfConfig engineForConfig engines []
              [configFor "A"; configFor "B"; configFor "A"; configFor "C"]
              [resultFor (configFor "A") 0%nat; resultFor (configFor "B") 1%nat;
               resultFor (configFor "A") 0%nat; resultFor (configFor "C") 0%nat]
              eq_refl)
              [resultFor (configFor "A") 0%nat; resultFor (configFor "B") 1%nat]
              ["A"; "B"]
              (resultFor (configFor "A") 0%nat)
              [resultFor (configFor "C") 0%nat]) as (Hstore & _ & Herr).
  - reflexivity.
  - reflexivity.
  - simpl. intros [H|[H|[]]]; discriminate.
  - simpl. constructor.
    + simpl. intros [H|[]]. discriminate.
    + constructor; [simpl; tauto | constructor].
  - right. exists "A". split; [reflexivity|]. split; [discriminate|].
    simpl. now left.
  - split; [exact Hstore | exact Herr].
Defined.

(** C5: results of time 0 are stale at time 100000 because engine 1
    allows sixty seconds, although engine 0 allows any age. *)
Lemma areMediaQueriesResultsFresh_iff_witness :
  In queryAB [queryAB] /\
  contributes engines storeAB queryAB 1%nat ["B"] (Some 60) /\
  add_seconds 0 60 < 100000 /\
  areMediaQueriesResultsFresh engines storeAB 100000 [queryAB] 0 = false.
Proof.
  assert (Hc : contributes engines storeAB queryAB 1%nat ["B"] (Some 60)).
  { exists [(0%nat, ["A"]); (1%nat, ["B"])]. repeat split.
    simpl. right. now left. }
  assert (Hstale : add_seconds 0 60 < 100000) by reflexivity.
  split; [now left|]. split; [exact Hc|]. split; [exact Hstale|].
  apply (proj2 (areMediaQueriesResultsFresh_iff engines storeAB 100000 [queryAB] 0)
           queryAB 1%nat ["B"] 60 (or_introl eq_refl) Hc Hstale).
Defined.

(** C6: extending one earlier result with the ID [x] by a chunk that
    holds [x] again leaves one item with that ID. *)
Lemma extendMediaQueries_extends_witness :
  exists extended,
    fst (extendMediaQueries engines storeAB [queryAB] [mediaXAgain] later 5 1%nat)
      = Some extended /\
    In mediaXAgain ([mediaXAgain] ++ [mediaY; mediaX]) /\
    getID mediaXAgain = Some "x" /\
    count (hasID "x") (ext_results extended) = 1%nat.
Proof.
  eexists. split; [vm_compute; reflexivity|].
  split; [now left|]. split; [reflexivity|].
  apply (proj2 (proj2 (proj2
           (proj2 (extendMediaQueries_extends engines storeAB [queryAB]
                     [mediaXAgain] later 5 1%nat) _ eq_refl)))
         "x" mediaXAgain); [now left | reflexivity].
Defined.

(** C7: a query for a camera no engine owns yields an empty chunk. *)
Lemma extendMediaQueries_no_more_data_witness :
  fst (executeMediaQueries engines storeAB
         (map fst (fst (buildQueries [queryUnknown] [mediaX] later 5 1%nat)))
         (snd (buildQueries [queryUnknown] [mediaX] later 5 1%nat))) = [] /\
  fst (extendMediaQueries engines storeAB [queryUnknown] [mediaX] later 5 1%nat) = None.
Proof.
  split; [reflexivity|].
  apply (proj2 (extendMediaQueries_no_more_data engines storeAB [queryUnknown]
                  [mediaX] later 5 1%nat)).
  reflexivity.
Defined.

(** C8: camera [A] has clips and camera [B] has none. *)
Lemma getAggregateCameraCapabilities_or_witness :
  supportsClips (getAggregateCameraCapabilities engines storeAB (Some ["A"; "B"])) = true /\
  supportsClips (getAggregateCameraCapabilities engines storeAB None) = true /\
  supportsClips (getAggregateCameraCapabilities engines storeAB (Some ["B"])) = false.
Proof.
  split; [|split].
  - rewrite (proj1 (proj2 (proj2
      (getAggregateCameraCapabilities_or engines storeAB (Some ["A"; "B"]))))).
    reflexivity.
  - rewrite (proj1 (proj2 (proj2
      (getAggregateCameraCapabilities_or engines storeAB None)))).
    reflexivity.
  - rewrite (proj1 (proj2 (proj2
      (getAggregateCameraCapabilities_or engines storeAB (Some ["B"]))))).
    reflexivity.
Defined.

(** C10: a target before the start of the media, and one inside it. *)
Lemma getMediaSeekTime_guard_witness :
  (getStartTime mediaX = Some 30 /\ 29 < 30) /\
  getMediaSeekTime engines storeAB mediaX 29 = ([], None) /\
  getMediaSeekTime engines storeAB mediaX 35 =
  ([CallGetMediaSeekTime 0%nat (getCameras storeAB) mediaX 35], Some 0).
Proof.
  split; [split; reflexivity|]. split.
  - apply (proj1 (getMediaSeekTime_guard engines storeAB mediaX 29)).
    right. right. right. right. left. exists 30. split; reflexivity.
  - apply (proj2 (proj2 (getMediaSeekTime_guard engines storeAB mediaX 35))
             (configFor "A") 0%nat 30 40); try reflexivity.
    split; discriminate.
Defined.

End ConcreteRuns.

(** * Further properties of the camera manager *)

(** ** [_sortMedia], continued *)

Section UniqByMore.
Context {A : Type} (key : A -> MediaKey).

Let uniq := baseUniq mediaKey_eqb key.

Lemma seen_In k seen :
  existsb (mediaKey_eqb k) seen = true <-> In k seen.
Proof.
  rewrite existsb_exists. split.
  - intros (x & Hx & E). destruct (mediaKey_eqb_spec k x); congruence.
  - intros H. exists k. split; [assumption | apply mediaKey_eqb_refl].
Qed.

Lemma baseUniq_fresh seen l x : In x (uniq seen l) -> ~ In (key x) seen.
Proof.
  revert seen. induction l as [|y l IH]; intros seen; simpl; [tauto|].
  destruct (existsb _ seen) eqn:E.
  - apply IH.
  - intros [-> | H].
    + intros Hin. apply seen_In in Hin. congruence.
    + intros Hin. apply (IH _ H). now right.
Qed.

Lemma baseUniq_keys_NoDup seen l : NoDup (map key (uniq seen l)).
Proof.
  revert seen. induction l as [|y l IH]; intros seen; simpl; [constructor|].
  destruct (existsb _ seen); [apply IH|].
  simpl. constructor; [|apply IH].
  intros Hin. apply in_map_iff in Hin as (x & Hk & Hx).
  apply baseUniq_fresh in Hx. apply Hx. rewrite Hk. now left.
Qed.

(** A list whose keys are distinct and unseen is kept as it is. *)
Lemma baseUniq_distinct seen l :
  NoDup (map key l) -> (forall x, In x l -> ~ In (key x) seen) ->
  uniq seen l = l.
Proof.
  revert seen. induction l as [|y l IH]; intros seen Hnd Hseen; simpl;
    [reflexivity|].
  inversion Hnd as [|k ks Hy Hnd']; subst.
  destruct (existsb _ seen) eqn:E.
  - apply seen_In in E. exfalso. apply (Hseen y); [now left | assumption].
  - f_equal. apply IH; [assumption|].
    intros x Hx [Heq|Hin].
    + apply Hy. rewrite Heq. now apply in_map.
    + apply (Hseen x); [now right | assumption].
Qed.

(** A kept element is the first of the list with its key. *)
Lemma baseUniq_first seen l x :
  In x (uniq seen l) ->
  find (fun y => mediaKey_eqb (key y) (key x)) l = Some x.
Proof.
  revert seen. induction l as [|y l IH]; intros seen; simpl; [tauto|].
  destruct (existsb (mediaKey_eqb (key y)) seen) eqn:E.
  - intros H. pose proof (baseUniq_fresh _ _ _ H) as Hfresh.
    destruct (mediaKey_eqb_spec (key y) (key x)) as [Heq|_]; [|eapply IH, H].
    exfalso. apply Hfresh. rewrite <- Heq. now apply seen_In.
  - intros [-> | H]; [now rewrite mediaKey_eqb_refl|].
    pose proof (baseUniq_fresh _ _ _ H) as Hfresh.
    destruct (mediaKey_eqb_spec (key y) (key x)) as [Heq|_]; [|eapply IH, H].
    exfalso. apply Hfresh. left. exact Heq.
Qed.

(** Elements whose keys were all seen add nothing. *)
Lemma baseUniq_app_known seen l extra :
  (forall x, In x extra -> In (key x) (seen ++ map key l)) ->
  uniq seen (l ++ extra) = uniq seen l.
Proof.
  revert seen. induction l as [|y l IH]; intros seen Hknown; simpl.
  - rewrite app_nil_r in Hknown.
    induction extra as [|x extra IHe]; simpl; [reflexivity|].
    replace (existsb (mediaKey_eqb (key x)) seen) with true.
    + apply IHe. intros z Hz. apply Hknown. now right.
    + symmetry. apply seen_In. apply Hknown. now left.
  - destruct (existsb (mediaKey_eqb (key y)) seen) eqn:E.
    + apply IH. intros x Hx. specialize (Hknown x Hx).
      apply in_app_or in Hknown as [H|[H|H]]; apply in_or_app; auto.
      left. rewrite <- H. now apply seen_In.
    + f_equal. apply IH. intros x Hx. specialize (Hknown x Hx).
      apply in_app_or in Hknown as [H|[H|H]]; apply in_or_app; simpl; auto.
Qed.

End UniqByMore.

Lemma insertAsc_least x l :
  Forall (startsNoLater x) l -> insertAsc getStartTime x l = x :: l.
Proof.
  intros H. destruct l as [|y l]; simpl; [reflexivity|].
  inversion H as [|? ? Hxy _]; subst.
  apply compareAscending_Gt in Hxy.
  destruct (compareAscending (getStartTime x) (getStartTime y));
    [reflexivity | reflexivity | contradiction].
Qed.

Lemma orderByAsc_sorted_id l :
  StronglySorted startsNoLater l -> orderByAsc getStartTime l = l.
Proof.
  induction 1 as [|x l Hs IH Hall]; simpl; [reflexivity|].
  rewrite IH. now apply insertAsc_least.
Qed.

Lemma sortMedia_keys_NoDup l : NoDup (map mediaKey (_sortMedia l)).
Proof.
  unfold _sortMedia.
  eapply Permutation_NoDup.
  - apply Permutation_map. symmetry. apply orderByAsc_perm.
  - apply (baseUniq_keys_NoDup mediaKey).
Qed.

(** X1.  [_sortMedia] applied to its own output changes nothing: the output
    is already de-duplicated and in order. *)
Theorem sortMedia_idempotent (mediaArray : list ViewMedia) :
  _sortMedia (_sortMedia mediaArray) = _sortMedia mediaArray.
Proof.
  unfold _sortMedia at 1. unfold uniqBy.
  rewrite (baseUniq_distinct mediaKey).
  - apply orderByAsc_sorted_id. apply orderByAsc_sorted.
  - apply sortMedia_keys_NoDup.
  - intros x _ [].
Qed.

Lemma sortMedia_first (mediaArray : list ViewMedia) (m : ViewMedia) :
  In m (_sortMedia mediaArray) ->
  find (fun other => mediaKey_eqb (mediaKey other) (mediaKey m)) mediaArray = Some m.
Proof.
  unfold _sortMedia. intros H.
  apply (baseUniq_first mediaKey []).
  eapply Permutation_in; [apply orderByAsc_perm | exact H].
Qed.

(** X2.  Of the items that share an ID (or are the same object), [_sortMedia]
    keeps the one that comes first in its input. *)
Theorem sortMedia_keeps_first (mediaArray : list ViewMedia) (m : ViewMedia) :
  In m (_sortMedia mediaArray) ->
  find (fun other => mediaKey_eqb (mediaKey other) (mediaKey m)) mediaArray = Some m.
Proof. apply sortMedia_first. Qed.

(** ** [_handleQuery], continued *)

(** How many engines own cameras of a query. *)
Definition owningEngines (store : Store) (query : Query) : nat :=
  match getEnginesForCameraIDs store (cameraIDs (val query)) with
  | Some engines => List.length engines
  | None => 0%nat
  end.

Section FanOutMore.

Variable engineOf : Engine -> CameraManagerEngine.
Variable store : Store.

Let step (acc : ResultsMap) (d : Engine * Query) : ResultsMap :=
  let (engine, clone) := d in processEngineQuery engineOf store acc engine clone.

Lemma dispatch_NoDup dispatched : forall results,
  NoDup (map addr (map fst results)) ->
  NoDup (map addr (map fst (fold_left step dispatched results))).
Proof.
  induction dispatched as [|[engine clone] dispatched IH]; intros results Hnd; simpl;
    [assumption|].
  apply IH. unfold processEngineQuery. now apply mergeInto_NoDup.
Qed.

Lemma cloneFor_addrs query owners : forall next,
  map (fun d : Engine * Query => addr (snd d)) (fst (mapM (cloneFor query) owners next))
    = seq next (List.length owners) /\
  map fst (fst (mapM (cloneFor query) owners next)) = map fst owners /\
  snd (mapM (cloneFor query) owners next) = (next + List.length owners)%nat.
Proof.
  induction owners as [|[e owned] owners IH]; intros next; simpl.
  - repeat split. lia.
  - unfold bind, spread, fresh, ret. simpl.
    specialize (IH (S next)).
    destruct (mapM (cloneFor query) owners (S next)) as [ds n']. simpl in *.
    destruct IH as (Ha & He & Hn). rewrite Ha, He, Hn. repeat split. lia.
Qed.

Lemma engineQueries_addrs query next :
  map (fun d : Engine * Query => addr (snd d)) (fst (engineQueries store query next))
    = seq next (owningEngines store query) /\
  snd (engineQueries store query next) = (next + owningEngines store query)%nat.
Proof.
  unfold engineQueries, owningEngines.
  destruct (getEnginesForCameraIDs store (cameraIDs (val query))) as [engines|].
  - destruct (cloneFor_addrs query engines next) as (Ha & _ & Hn). auto.
  - simpl. split; [reflexivity | lia].
Qed.

Lemma dispatchedQueries_addrs queries : forall next,
  let total := list_sum (map (owningEngines store) queries) in
  map (fun d : Engine * Query => addr (snd d)) (fst (dispatchedQueries store queries next))
    = seq next total /\
  snd (dispatchedQueries store queries next) = (next + total)%nat.
Proof.
  unfold dispatchedQueries, bind, ret.
  induction queries as [|query queries IH]; intros next; simpl.
  - split; [reflexivity | lia].
  - unfold bind, ret.
    destruct (engineQueries_addrs query next) as [Ha Hn].
    destruct (engineQueries store query next) as [d n1]. simpl in Ha, Hn. subst n1.
    specialize (IH (next + owningEngines store query)%nat).
    destruct (mapM (engineQueries store) queries _) as [ds n2]. simpl in *.
    destruct IH as [Ha' Hn']. rewrite map_app, Ha, Ha', Hn'.
    rewrite seq_app. split; [reflexivity | lia].
Qed.

(** X3.  The map [_handleQuery] returns holds no query object twice: its keys
    have pairwise distinct addresses. *)
Theorem handleQuery_keys_distinct query next :
  NoDup (map addr (map fst (fst (_handleQuery engineOf store query next)))).
Proof.
  unfold _handleQuery. rewrite handleQuery_dispatched. simpl.
  apply dispatch_NoDup. constructor.
Qed.

Lemma handleQuery_allocates query next :
  let total := list_sum (map (owningEngines store) (arrayify query)) in
  let dispatched := fst (dispatchedQueries store (arrayify query) next) in
  map (fun d : Engine * Query => addr (snd d)) dispatched = seq next total /\
  snd (_handleQuery engineOf store query next) = (next + total)%nat /\
  (total = 0%nat ->
   _handleQuery engineOf store query next = ([], next)).
Proof.
  intros total dispatched.
  destruct (dispatchedQueries_addrs (arrayify query) next) as [Ha Hn].
  fold total in Ha, Hn. fold dispatched in Ha.
  unfold _handleQuery. rewrite handleQuery_dispatched. simpl.
  split; [exact Ha|]. split; [exact Hn|].
  intros Hz. rewrite Hn, Hz. fold dispatched.
  rewrite Hz in Ha. destruct dispatched; [|discriminate].
  simpl. f_equal. lia.
Qed.

(** X4.  [_handleQuery] makes one clone per query and engine owning cameras of
    it, at consecutive new addresses starting with the next free one, and
    allocates nothing else.  When no engine owns a camera of any query the
    result is the empty map and nothing is allocated. *)
Theorem handleQuery_allocation query next :
  let total := list_sum (map (owningEngines store) (arrayify query)) in
  let dispatched := fst (dispatchedQueries store (arrayify query) next) in
  map (fun d : Engine * Query => addr (snd d)) dispatched = seq next total /\
  snd (_handleQuery engineOf store query next) = (next + total)%nat /\
  (total = 0%nat ->
   _handleQuery engineOf store query next = ([], next)).
Proof. apply handleQuery_allocates. Qed.

(** X5.  When every engine answers the query it is given with one result
    keyed by that query, [_handleQuery] returns one entry per query and
    owning engine, keyed by the clones, each held with its engine's
    result, in the order in which the engine calls resolve - which is the
    order the clones were made in only when the calls resolve in the
    order they were started, the run that [_handleQuery] is. *)
Theorem handleQuery_one_entry_per_engine resolutionOrder query next :
  let dispatched := fst (dispatchedQueries store (arrayify query) next) in
  let results := fst (_handleQueryAsync engineOf resolutionOrder store query next) in
  Permutation (resolutionOrder dispatched) dispatched ->
  (forall engine clone, In (engine, clone) dispatched ->
     exists result, dispatchQuery engineOf store engine clone = Some [(clone, result)]) ->
  map fst results = map snd (resolutionOrder dispatched) /\
  Forall2 (fun (entry : Query * QueryResults) (call : Engine * Query) =>
             dispatchQuery engineOf store (fst call) (snd call) = Some [entry])
          results (resolutionOrder dispatched) /\
  Permutation (map fst results) (map snd dispatched) /\
  List.length results = list_sum (map (owningEngines store) (arrayify query)) /\
  _handleQuery engineOf store query next
    = _handleQueryAsync engineOf (fun started => started) store query next.
Proof.
  intros dispatched results Hperm Hecho.
  destruct (dispatchedQueries_addrs (arrayify query) next) as [Ha _].
  fold dispatched in Ha.
  set (resolved := resolutionOrder dispatched) in *.
  assert (Hnd : NoDup (map (fun d : Engine * Query => addr (snd d)) resolved)).
  { eapply Permutation_NoDup.
    - apply Permutation_map, Permutation_sym, Hperm.
    - rewrite Ha. apply seq_NoDup. }
  assert (Hecho' : forall engine clone, In (engine, clone) resolved ->
     exists result, dispatchQuery engineOf store engine clone = Some [(clone, result)]).
  { intros engine clone Hin. apply Hecho. eapply Permutation_in; eassumption. }
  assert (Hgen : forall ds (acc : ResultsMap),
    (forall engine clone, In (engine, clone) ds ->
       exists result, dispatchQuery engineOf store engine clone = Some [(clone, result)]) ->
    NoDup (map addr (map fst acc) ++ map (fun d : Engine * Query => addr (snd d)) ds) ->
    exists added : ResultsMap,
      fold_left step ds acc = acc ++ added /\
      map fst added = map snd ds /\
      Forall2 (fun (entry : Query * QueryResults) (call : Engine * Query) =>
                 dispatchQuery engineOf store (fst call) (snd call) = Some [entry])
              added ds).
  { induction ds as [|[engine clone] ds IH]; intros acc He Hn; simpl.
    - exists []. rewrite app_nil_r. repeat split. constructor.
    - destruct (He engine clone (or_introl eq_refl)) as (result & Hd).
      unfold processEngineQuery. rewrite Hd. simpl.
      rewrite map_set_new.
      + assert (He' : forall e c, In (e, c) ds ->
          exists r, dispatchQuery engineOf store e c = Some [(c, r)])
          by (intros e c Hin; apply He; now right).
        assert (Hn' : NoDup (map addr (map fst (acc ++ [(clone, result)])) ++
                             map (fun d : Engine * Query => addr (snd d)) ds))
          by (rewrite !map_app; simpl; rewrite <- app_assoc; exact Hn).
        destruct (IH (acc ++ [(clone, result)]) He' Hn') as (added & Hrun & Hk & Hv).
        exists ((clone, result) :: added). split; [|split].
        * etransitivity; [exact Hrun|]. now rewrite <- app_assoc.
        * simpl. now rewrite Hk.
        * constructor; [exact Hd | exact Hv].
      + simpl in Hn. apply NoDup_remove_2 in Hn.
        intros Hin. apply Hn. apply in_or_app. now left. }
  destruct (Hgen resolved [] Hecho' Hnd) as (added & Hrun & Hk & Hv).
  assert (Hres : results = added).
  { unfold results. rewrite handleQueryAsync_dispatched. simpl.
    fold dispatched. fold resolved. exact Hrun. }
  rewrite Hres. split; [exact Hk|]. split; [exact Hv|]. split; [|split].
  - rewrite Hk. apply Permutation_map, Hperm.
  - rewrite <- (length_map fst), Hk, length_map.
    rewrite (Permutation_length Hperm).
    rewrite <- (length_map (fun d : Engine * Query => addr (snd d))), Ha.
    apply length_seq.
  - unfold _handleQuery. now rewrite handleQuery_dispatched, handleQueryAsync_dispatched.
Qed.

(** X7.  Media come only from matched pairs: every item
    [_convertQueryResultsToMedia] returns was generated by the engine of
    the result's engine type, found in the store, from an event query
    with an event result or a recording query with a recording result.
    Recording segments, and results of another type than their query,
    give no media. *)
Theorem convertQueryResultsToMedia_sources results m :
  In m (_convertQueryResultsToMedia engineOf store results) ->
  exists query result engine,
    In (query, result) results /\
    getEngineOfType store (r_engine result) = Some engine /\
    ((q_type (val query) = QEvent /\ r_type result = REvent /\
      exists media,
        EngineContract.generateMediaFromEvents (engineOf engine) (getCameras store)
          query result = Some media /\ In m media) \/
     (q_type (val query) = QRecording /\ r_type result = RRecording /\
      exists media,
        EngineContract.generateMediaFromRecordings (engineOf engine) (getCameras store)
          query result = Some media /\ In m media)).
Proof.
  unfold _convertQueryResultsToMedia. intros H.
  apply sortMedia_incl in H. apply in_flat_map in H as ([query result] & Hin & Hm).
  exists query, result. unfold mediaOfEntry in Hm.
  destruct (getEngineOfType store (r_engine result)) as [engine|]; [|destruct Hm].
  exists engine. split; [exact Hin|]. split; [reflexivity|].
  unfold QueryClassifier.isEventQuery, QueryClassifier.isRecordingQuery,
    QueryResultClassifier.isEventQueryResult,
    QueryResultClassifier.isRecordingQuery in Hm.
  destruct (q_type (val query)), (r_type result); simpl in Hm;
    try (destruct Hm; fail).
  - left. repeat split.
    destruct (EngineContract.generateMediaFromEvents _ _ _ _) as [media|];
      [exists media; auto | destruct Hm].
  - right. repeat split.
    destruct (EngineContract.generateMediaFromRecordings _ _ _ _) as [media|];
      [exists media; auto | destruct Hm].
Qed.

End FanOutMore.

(** ** Initialisation, continued *)

Lemma lookup_app_absent s1 s2 id :
  ~ In id (getCameraIDs s1) -> lookup (s1 ++ s2) id = lookup s2 id.
Proof.
  induction s1 as [|[i e] s1 IH]; simpl; [reflexivity|]. intros H.
  destruct (String.eqb_spec i id) as [->|_]; [exfalso; apply H; now left|].
  apply IH. intros Hin. apply H. now right.
Qed.

Lemma lookup_committed ids results : forall k r id,
  NoDup ids ->
  nth_error results k = Some r -> nth_error ids k = Some id ->
  lookup (committed ids results) id = Some (initializedConfig r, engine r).
Proof.
  revert results. induction ids as [|i ids IH]; intros results k r id Hnd Hr Hi.
  - destruct k; discriminate.
  - destruct results as [|r0 results]; [destruct k; discriminate|].
    inversion Hnd as [|? ? Hnotin Hnd']; subst.
    unfold committed. simpl. destruct k as [|k]; simpl in Hr, Hi.
    + injection Hr as <-. injection Hi as <-. now rewrite String.eqb_refl.
    + destruct (String.eqb_spec i id) as [->|_].
      * exfalso. apply Hnotin. eapply nth_error_In, Hi.
      * eapply IH; eassumption.
Qed.

Section InitializationMore.

Variable getCameraID : CameraConfig -> option string.
Variable getEngineForCamera : CameraConfig -> option Engine.
Variable engineOf : Engine -> CameraManagerEngine.

Let idOf (result : InitializedCamera) := getCameraID (initializedConfig result).
Let initialize := initializeCameras getCameraID getEngineForCamera engineOf.
Let resolve store := _initializeCamera getEngineForCamera engineOf store.

Lemma addResults_all_accepted results : forall store ids,
  map idOf results = map Some ids -> ~ In EmptyString ids -> NoDup ids ->
  (forall id, In id ids -> ~ In id (getCameraIDs store)) ->
  addResults getCameraID store results = (store ++ committed ids results, None).
Proof.
  induction results as [|r results IH]; intros store ids Hids Hne Hnd Hfree.
  - destruct ids; [|discriminate]. unfold committed. simpl. now rewrite app_nil_r.
  - destruct ids as [|i ids]; [discriminate|].
    simpl in Hids. injection Hids as Hi Hids.
    inversion Hnd as [|? ? Hnotin Hnd']; subst.
    cbn [addResults]. fold (idOf r). rewrite Hi.
    assert (Hi' : i <> EmptyString) by (intros ->; apply Hne; now left).
    replace (falsy (Some i)) with false
      by (symmetry; apply falsy_false; eauto).
    assert (Hfree_i : hasCameraID store i = false).
    { apply hasCameraID_false. apply Hfree. now left. }
    unfold addCamera. rewrite Hfree_i.
    rewrite (IH _ ids); try assumption.
    + unfold committed. simpl. now rewrite <- app_assoc.
    + intros H. apply Hne. now right.
    + intros id Hin. rewrite getCameraIDs_app. simpl. intros H.
      apply in_app_or in H as [H|[H|[]]].
      * apply (Hfree id); [now right | assumption].
      * subst. contradiction.
Qed.

Lemma initializeCameras_succeeds store camerasConfig results :
  allPromises camerasConfig (resolve store) = inr results ->
  (out_error (initialize store camerasConfig) = None <->
   exists ids,
     map idOf results = map Some ids /\ ~ In EmptyString ids /\
     NoDup ids /\ (forall id, In id ids -> ~ In id (getCameraIDs store)) /\
     store ++ committed ids results <> []) /\
  (out_error (initialize store camerasConfig) = None ->
   exists ids,
     map idOf results = map Some ids /\
     out_store (initialize store camerasConfig) = store ++ committed ids results /\
     getCameraIDs (out_store (initialize store camerasConfig))
       = getCameraIDs store ++ ids /\
     isInitialized (out_store (initialize store camerasConfig)) = true /\
     forall k r id,
       nth_error results k = Some r -> nth_error ids k = Some id ->
       getCameraConfig (out_store (initialize store camerasConfig)) id
         = Some (initializedConfig r) /\
       getEngineForCameraID (out_store (initialize store camerasConfig)) id
         = Some (engine r)).
Proof.
  intros Hall.
  assert (Hrun : initialize store camerasConfig =
    let (store', thrown) := addResults getCameraID store results in
    match thrown with
    | Some e => mkOutcome store' (existsb hasAutoTriggers camerasConfig) (Some e)
    | None =>
        if Nat.eqb (getCameraCount store') 0
        then mkOutcome store' (existsb hasAutoTriggers camerasConfig)
               (Some (mkError error_no_cameras None))
        else mkOutcome store' (existsb hasAutoTriggers camerasConfig) None
    end).
  { unfold initialize, initializeCameras. unfold resolve in Hall. now rewrite Hall. }
  assert (Hfwd : out_error (initialize store camerasConfig) = None ->
    exists ids,
      map idOf results = map Some ids /\ ~ In EmptyString ids /\
      NoDup ids /\ (forall id, In id ids -> ~ In id (getCameraIDs store)) /\
      out_store (initialize store camerasConfig) = store ++ committed ids results /\
      store ++ committed ids results <> []).
  { rewrite Hrun.
    destruct (addResults getCameraID store results) as [store' thrown] eqn:Eadd.
    destruct thrown as [e|]; [discriminate|].
    destruct (Nat.eqb_spec (getCameraCount store') 0) as [Hz|Hnz]; [discriminate|].
    intros _. simpl.
    apply (addResults_completed getCameraID) in Eadd
      as (ids & Hids & Hne & Hnd & Hfree & ->).
    exists ids. repeat split; try assumption.
    intros Hnil. rewrite Hnil in Hnz. now apply Hnz. }
  split; [split|].
  - intros Hok. destruct (Hfwd Hok) as (ids & H1 & H2 & H3 & H4 & _ & H6).
    exists ids. auto.
  - intros (ids & Hids & Hne & Hnd & Hfree & Hnonempty).
    rewrite Hrun, (addResults_all_accepted results store ids) by assumption.
    destruct (Nat.eqb_spec (getCameraCount (store ++ committed ids results)) 0)
      as [Hz|Hnz]; [|reflexivity].
    exfalso. apply Hnonempty. unfold getCameraCount in Hz.
    now apply length_zero_iff_nil.
  - intros Hok. destruct (Hfwd Hok) as (ids & Hids & Hne & Hnd & Hfree & Hstore & Hnonempty).
    exists ids. rewrite Hstore. split; [exact Hids|]. split; [reflexivity|].
    split; [|split].
    + rewrite getCameraIDs_app. f_equal.
      now apply (getCameraIDs_committed getCameraID).
    + unfold isInitialized, getCameraCount.
      destruct (store ++ committed ids results); [contradiction | reflexivity].
    + intros k r id Hr Hi.
      assert (Hl : lookup (store ++ committed ids results) id
                   = Some (initializedConfig r, engine r)).
      { rewrite lookup_app_absent by (apply Hfree; eapply nth_error_In, Hi).
        eapply lookup_committed; eassumption. }
      unfold getCameraConfig, getEngineForCameraID. rewrite Hl. split; reflexivity.
Qed.

(** X10.  [initializeCameras] succeeds exactly when every resolved
    configuration derives a non-empty ID, no ID is derived twice or is in
    the store already, and there is a camera in the end.  It then adds
    one camera per configuration, in input order, and each can be looked
    up by its ID with the configuration and engine it was resolved to. *)
Theorem initializeCameras_success store camerasConfig results :
  allPromises camerasConfig (resolve store) = inr results ->
  (out_error (initialize store camerasConfig) = None <->
   exists ids,
     map idOf results = map Some ids /\ ~ In EmptyString ids /\
     NoDup ids /\ (forall id, In id ids -> ~ In id (getCameraIDs store)) /\
     store ++ committed ids results <> []) /\
  (out_error (initialize store camerasConfig) = None ->
   exists ids,
     map idOf results = map Some ids /\
     out_store (initialize store camerasConfig) = store ++ committed ids results /\
     getCameraIDs (out_store (initialize store camerasConfig))
       = getCameraIDs store ++ ids /\
     isInitialized (out_store (initialize store camerasConfig)) = true /\
     forall k r id,
       nth_error results k = Some r -> nth_error ids k = Some id ->
       getCameraConfig (out_store (initialize store camerasConfig)) id
         = Some (initializedConfig r) /\
       getEngineForCameraID (out_store (initialize store camerasConfig)) id
         = Some (engine r)).
Proof. apply initializeCameras_succeeds. Qed.

(** X11.  A configuration without an engine, or whose engine rejects its
    initialisation, makes [initializeCameras] fail before anything is
    added: the store is left as it was, and the error is the rejection of
    one of the configurations - for a configuration the engine factory
    finds no engine for, the no-engine error carrying that
    configuration. *)
Theorem initializeCameras_resolve_failure store camerasConfig :
  (exists c e, In c camerasConfig /\ resolve store c = inl e) ->
  out_store (initialize store camerasConfig) = store /\
  (exists c e,
     In c camerasConfig /\ resolve store c = inl e /\
     out_error (initialize store camerasConfig) = Some e) /\
  (forall c, getEngineForCamera c = None ->
     resolve store c = inl (mkError error_no_camera_engine (Some c))).
Proof.
  intros (c0 & e0 & Hin0 & Hrej0).
  assert (Hfail : exists c e, In c camerasConfig /\ resolve store c = inl e /\
                    allPromises camerasConfig (resolve store) = inl e).
  { clear - Hin0 Hrej0. induction camerasConfig as [|c cs IH]; [destruct Hin0|].
    simpl. destruct (resolve store c) as [e|r] eqn:Ec.
    - exists c, e. repeat split; auto.
    - destruct Hin0 as [->|Hin]; [congruence|].
      destruct (IH Hin) as (c' & e' & Hc' & He' & Hall).
      exists c', e'. rewrite Hall. repeat split; auto. }
  destruct Hfail as (c & e & Hin & Hrej & Hall).
  unfold initialize, initializeCameras. unfold resolve in Hall. rewrite Hall. simpl.
  split; [reflexivity|]. split.
  - exists c, e. auto.
  - intros c' Hnone. unfold resolve, _initializeCamera. now rewrite Hnone.
Qed.

End InitializationMore.

(** ** Freshness, continued *)

Section FreshnessMore.

Variable engineOf : Engine -> CameraManagerEngine.

(** X14.  Freshness only decays: results that are fresh at some time were fresh
    at every earlier time, and stay fresh for every later results
    timestamp; so results found stale never become fresh again. *)
Theorem areMediaQueriesResultsFresh_monotone store now now' queries
    resultsTimestamp resultsTimestamp' :
  now' <= now -> resultsTimestamp <= resultsTimestamp' ->
  areMediaQueriesResultsFresh engineOf store now queries resultsTimestamp = true ->
  areMediaQueriesResultsFresh engineOf store now' queries resultsTimestamp' = true.
Proof.
  intros Hnow Hts. unfold areMediaQueriesResultsFresh.
  rewrite !forallb_forall. intros H query Hq. specialize (H query Hq).
  destruct (getEnginesForCameraIDs store (cameraIDs (val query))) as [engines|];
    [|reflexivity].
  rewrite forallb_forall in *. intros [engine owned] Hin.
  specialize (H _ Hin). cbn beta iota in *.
  destruct (EngineContract.getQueryResultMaxAge _ _) as [seconds|]; [|reflexivity].
  unfold add_seconds in *.
  destruct (Z.ltb_spec (resultsTimestamp + 1000 * seconds) now); [discriminate|].
  destruct (Z.ltb_spec (resultsTimestamp' + 1000 * seconds) now'); [lia | reflexivity].
Qed.

(** X15.  A batch is fresh exactly when each part of it is; the empty batch
    is fresh, and so is a batch whose cameras no engine owns, whatever
    the age of the results. *)
Theorem areMediaQueriesResultsFresh_batches store now resultsTimestamp :
  (forall queries1 queries2,
     areMediaQueriesResultsFresh engineOf store now (queries1 ++ queries2)
       resultsTimestamp
     = areMediaQueriesResultsFresh engineOf store now queries1 resultsTimestamp
       && areMediaQueriesResultsFresh engineOf store now queries2 resultsTimestamp) /\
  areMediaQueriesResultsFresh engineOf store now [] resultsTimestamp = true /\
  (forall queries : list Query,
     (forall query, In query queries ->
        forall cameraID, In cameraID (cameraIDs (val query)) ->
          hasCameraID store cameraID = false) ->
     areMediaQueriesResultsFresh engineOf store now queries resultsTimestamp = true).
Proof.
  split; [|split].
  - intros q1 q2. unfold areMediaQueriesResultsFresh. apply forallb_app.
  - reflexivity.
  - intros queries Hunowned. unfold areMediaQueriesResultsFresh.
    apply forallb_forall. intros query Hq.
    replace (getEnginesForCameraIDs store (cameraIDs (val query))) with
      (@None (list (Engine * list string))); [reflexivity|].
    symmetry. unfold getEnginesForCameraIDs.
    assert (Hfold : forall ids acc,
      (forall cameraID, In cameraID ids -> hasCameraID store cameraID = false) ->
      fold_left
        (fun acc cameraID =>
           match getEngineForCameraID store cameraID with
           | Some engine => groupAdd acc engine cameraID
           | None => acc
           end) ids acc = acc).
    { induction ids as [|i ids IH]; intros acc Hids; simpl; [reflexivity|].
      assert (Hi : hasCameraID store i = false) by (apply Hids; now left).
      unfold hasCameraID in Hi. unfold getEngineForCameraID.
      destruct (lookup store i); [discriminate|]. simpl.
      apply IH. intros c Hc. apply Hids. now right. }
    rewrite Hfold; [reflexivity | now apply Hunowned].
Qed.

End FreshnessMore.

(** ** Capabilities, continued *)

Section CapabilityMore.

Variable engineOf : Engine -> CameraManagerEngine.

(** The field-wise OR of two capability records. *)
Definition orCapabilities (a b : CameraManagerCapabilities) : CameraManagerCapabilities :=
  mkCapabilities
    (canFavoriteEvents a || canFavoriteEvents b)
    (canFavoriteRecordings a || canFavoriteRecordings b)
    (supportsClips a || supportsClips b)
    (supportsRecordings a || supportsRecordings b)
    (supportsSnapshots a || supportsSnapshots b)
    (supportsTimeline a || supportsTimeline b).

(** The six capability flags. *)
Definition capabilityFlags : list (CameraManagerCapabilities -> bool) :=
  [canFavoriteEvents; canFavoriteRecordings; supportsClips;
   supportsRecordings; supportsSnapshots; supportsTimeline].

Lemma some_cap_app flag l1 l2 :
  some_cap flag (l1 ++ l2) = some_cap flag l1 || some_cap flag l2.
Proof. unfold some_cap. apply existsb_app. Qed.

Lemma getCameraCapabilities_known store cameraID capabilities :
  getCameraCapabilities engineOf store cameraID = Some capabilities ->
  In cameraID (getCameraIDs store).
Proof.
  unfold getCameraCapabilities, getCameraConfig. intros H.
  apply lookup_In. destruct (lookup store cameraID); [discriminate | discriminate H].
Qed.

Lemma some_cap_default flag store ids :
  some_cap flag (map (getCameraCapabilities engineOf store) ids) = true ->
  some_cap flag (map (getCameraCapabilities engineOf store) (getCameraIDs store)) = true.
Proof.
  unfold some_cap. rewrite !existsb_exists.
  intros (cap & Hin & Hflag). exists cap. split; [|exact Hflag].
  apply in_map_iff in Hin as (id & Hcap & _).
  destruct cap as [c|]; [|discriminate].
  apply in_map_iff. exists id. split; [exact Hcap|].
  eapply getCameraCapabilities_known, Hcap.
Qed.

(** X16.  Aggregating over two lists of cameras gives the field-wise OR of the
    two aggregates; over no camera, no capability; and cameras that are
    not in the store add nothing. *)
Theorem getAggregateCameraCapabilities_union store :
  (forall ids1 ids2,
     getAggregateCameraCapabilities engineOf store (Some (ids1 ++ ids2))
     = orCapabilities (getAggregateCameraCapabilities engineOf store (Some ids1))
                      (getAggregateCameraCapabilities engineOf store (Some ids2))) /\
  getAggregateCameraCapabilities engineOf store (Some [])
    = mkCapabilities false false false false false false /\
  (forall ids,
     getAggregateCameraCapabilities engineOf store (Some ids)
     = getAggregateCameraCapabilities engineOf store
         (Some (filter (hasCameraID store) ids))).
Proof.
  split; [|split].
  - intros ids1 ids2. unfold getAggregateCameraCapabilities, orCapabilities.
    simpl. rewrite map_app, !some_cap_app. reflexivity.
  - reflexivity.
  - intros ids. unfold getAggregateCameraCapabilities.
    assert (H : forall flag,
      some_cap flag (map (getCameraCapabilities engineOf store) ids)
      = some_cap flag (map (getCameraCapabilities engineOf store)
                           (filter (hasCameraID store) ids))).
    { intros flag. induction ids as [|i ids IH]; simpl; [reflexivity|].
      destruct (hasCameraID store i) eqn:Hi; simpl.
      - unfold some_cap in *. simpl. now rewrite IH.
      - unfold some_cap in *. simpl. rewrite IH.
        unfold getCameraCapabilities at 1, getCameraConfig.
        unfold hasCameraID in Hi. destruct (lookup store i); [discriminate|].
        reflexivity. }
    now rewrite !H.
Qed.

(** X17.  No subset of cameras has a capability that the aggregate over all
    cameras (the default) lacks. *)
Theorem getAggregateCameraCapabilities_default_greatest store ids :
  Forall
    (fun flag : CameraManagerCapabilities -> bool =>
       flag (getAggregateCameraCapabilities engineOf store (Some ids)) = true ->
       flag (getAggregateCameraCapabilities engineOf store None) = true)
    capabilityFlags.
Proof.
  unfold capabilityFlags, getAggregateCameraCapabilities.
  repeat constructor; simpl; apply some_cap_default.
Qed.

End CapabilityMore.

(** ** The rest of the manager

    The methods of [CameraManager] not modelled so far, with the engine
    methods they call. *)

Module EngineContractRest.

(** [MediaMetadata]: each facet is a set of strings, or absent. *)
Record MediaMetadata := mkMetadata {
  what : option (list string);
  where_ : option (list string);
  days : option (list string)
}.

(** The optional fields of a partial query; its type is fixed by the
    method that takes it. *)
Record PartialFields := mkPartial {
  p_cameraIDs : option (list string);
  p_start : option Date;
  p_end : option Date;
  p_limit : option Z
}.

(** The object [{ type: ..., ...partialQuery }] handed to the engines. *)
Record PartialDataQuery := mkPartialQuery {
  pq_type : QueryType;
  pq_fields : PartialFields
}.

(** The engine methods behind the remaining manager methods.  The
    answers of [getCameraURL], [getCameraMetadata] and
    [getMediaCapabilities] are opaque to the manager and stand as
    strings. *)
Record CameraManagerEngineRest := mkEngineRest {
  getMediaMetadata : Cameras -> option MediaMetadata;
  generateDefaultEventQuery :
    Cameras -> list string -> Obj PartialDataQuery -> option (list Query);
  generateDefaultRecordingQuery :
    Cameras -> list string -> Obj PartialDataQuery -> option (list Query);
  generateDefaultRecordingSegmentsQuery :
    Cameras -> list string -> Obj PartialDataQuery -> option (list Query);
  getMediaDownloadPath : CameraConfig -> ViewMedia -> option string;
  getMediaCapabilities : ViewMedia -> option string;
  getCameraURL : CameraConfig -> option string -> option string;
  getCameraMetadata : CameraConfig -> option string
}.

End EngineContractRest.
Import EngineContractRest(MediaMetadata, mkMetadata, PartialFields, mkPartial,
  PartialDataQuery, mkPartialQuery, CameraManagerEngineRest).

(** A call of [engine.favoriteMedia]. *)
Inductive FavoriteCall :=
| CallFavoriteMedia (engine : Engine) (cameraConfig : CameraConfig)
    (media : ViewMedia) (favorite : bool).

(** [Set.prototype.add] on an insertion-ordered set. *)
Definition set_add (s : list string) (x : string) : list string :=
  if existsb (String.eqb x) s then s else s ++ [x].

(** [facet.forEach(target.add, target)] for an optional facet. *)
Definition addFacet (target : list string) (facet : option (list string)) : list string :=
  match facet with
  | Some values => fold_left set_add values target
  | None => target
  end.

(** [...(set.size && { facet: set })]. *)
Definition facetIfAny (s : list string) : option (list string) :=
  match s with [] => None | _ => Some s end.

(** [setify]: a single string or a set of them. *)
Definition setify (v : OneOrMany string) : list string :=
  match v with One x => [x] | Many xs => xs end.

(** The empty partial query, for an omitted [partialQuery]. *)
Definition noFields : PartialFields := mkPartial None None None None.

Section CameraManagerRest.

Variable engineOf : Engine -> CameraManagerEngine.
Variable restOf : Engine -> CameraManagerEngineRest.

(** [getCameraIDs()] of the manager: [null] while the store is empty. *)
Definition managerCameraIDs (store : Store) : option (list string) :=
  if Nat.eqb (getCameraCount store) 0 then None
  else Some (map fst (getCameras store)).

(** [processMetadata] for one engine, on the three sets. *)
Definition processMetadata (store : Store)
    (sets : list string * list string * list string) (engine : Engine)
    : list string * list string * list string :=
  let '(what, where_, days) := sets in
  match EngineContractRest.getMediaMetadata (restOf engine) (getCameras store) with
  | Some engineMetadata =>
      (addFacet what (EngineContractRest.what engineMetadata),
       addFacet where_ (EngineContractRest.where_ engineMetadata),
       addFacet days (EngineContractRest.days engineMetadata))
  | None => sets
  end.

Definition getMediaMetadata (store : Store) : option MediaMetadata :=
  let '(what, where_, days) :=
    fold_left (processMetadata store) (getAllEngines store) ([], [], []) in
  match what, where_, days with
  | [], [], [] => None
  | _, _, _ => Some (mkMetadata (facetIfAny what) (facetIfAny where_) (facetIfAny days))
  end.

(** The engine method chosen by the partial query's discriminant. *)
Definition generateDefaultFor (store : Store) (engine : Engine)
    (owned : list string) (partialQuery : Obj PartialDataQuery) : option (list Query) :=
  match EngineContractRest.pq_type (val partialQuery) with
  | QEvent =>
      EngineContractRest.generateDefaultEventQuery (restOf engine)
        (getCameras store) owned partialQuery
  | QRecording =>
      EngineContractRest.generateDefaultRecordingQuery (restOf engine)
        (getCameras store) owned partialQuery
  | QRecordingSegments =>
      EngineContractRest.generateDefaultRecordingSegmentsQuery (restOf engine)
        (getCameras store) owned partialQuery
  end.

Definition _generateDefaultQueries (store : Store) (cameraIDs : OneOrMany string)
    (partialQuery : Obj PartialDataQuery) : option (list Query) :=
  let _cameraIDs := setify cameraIDs in
  match getEnginesForCameraIDs store _cameraIDs with
  | None => None
  | Some engines =>
      Some (flat_map
              (fun '(engine, owned) =>
                 match generateDefaultFor store engine owned partialQuery with
                 | Some queries => queries
                 | None => []
                 end)
              engines)
  end.

(** [generateDefaultEventQueries] and its two siblings: the partial
    query is spread into a new object after the type. *)
Definition generateDefaultQueriesOfType (type : QueryType) (store : Store)
    (cameraIDs : OneOrMany string) (partialQuery : option PartialFields)
    : Alloc (option (list Query)) :=
  (typed <- spread (mkPartialQuery type
                      (match partialQuery with Some fields => fields | None => noFields end)) ;;
   ret (_generateDefaultQueries store cameraIDs typed))%alloc.

Definition generateDefaultEventQueries := generateDefaultQueriesOfType QEvent.
Definition generateDefaultRecordingQueries := generateDefaultQueriesOfType QRecording.
Definition generateDefaultRecordingSegmentsQueries :=
  generateDefaultQueriesOfType QRecordingSegments.

Definition getMediaDownloadPath (store : Store) (media : ViewMedia) : option string :=
  match getCameraConfigForMedia store media, getEngineForMedia store media with
  | Some cameraConfig, Some engine =>
      EngineContractRest.getMediaDownloadPath (restOf engine) cameraConfig media
  | _, _ => None
  end.

Definition getMediaCapabilities (store : Store) (media : ViewMedia) : option string :=
  match getEngineForMedia store media with
  | Some engine => EngineContractRest.getMediaCapabilities (restOf engine) media
  | None => None
  end.

(** [favoriteMedia]: the engine calls made; the log written afterwards
    is left out. *)
Definition favoriteMedia (store : Store) (media : ViewMedia) (favorite : bool)
    : list FavoriteCall :=
  match getCameraConfigForMedia store media, getEngineForMedia store media with
  | Some cameraConfig, Some engine =>
      [CallFavoriteMedia engine cameraConfig media favorite]
  | _, _ => []
  end.

Definition getCameraURL (store : Store) (cameraID : string) (context : option string)
    : option string :=
  match getCameraConfig store cameraID, getEngineForCameraID store cameraID with
  | Some cameraConfig, Some engine =>
      EngineContractRest.getCameraURL (restOf engine) cameraConfig context
  | _, _ => None
  end.

Definition getCameraMetadata (store : Store) (cameraID : string) : option string :=
  match getCameraConfig store cameraID, getEngineForCameraID store cameraID with
  | Some cameraConfig, Some engine =>
      EngineContractRest.getCameraMetadata (restOf engine) cameraConfig
  | _, _ => None
  end.

End CameraManagerRest.

(** ** Grouping cameras by engine *)

Lemma set_add_In s y x : In x (set_add s y) <-> In x s \/ x = y.
Proof.
  unfold set_add. destruct (existsb (String.eqb y) s) eqn:E.
  - split; [auto|]. intros [H| ->]; [assumption|].
    apply existsb_exists in E as (z & Hz & Heq).
    apply String.eqb_eq in Heq. now subst.
  - rewrite in_app_iff. simpl. intuition congruence.
Qed.

Lemma set_add_NoDup s y : NoDup s -> NoDup (set_add s y).
Proof.
  unfold set_add. intros H. destruct (existsb (String.eqb y) s) eqn:E; [assumption|].
  apply NoDup_app; [assumption | repeat constructor; intros [] |].
  intros x Hx [Heq|[]]. subst x.
  assert (existsb (String.eqb y) s = true); [|congruence].
  apply existsb_exists. exists y. split; [assumption | apply String.eqb_refl].
Qed.

(** What [groupAdd] does to the group of an engine. *)
Lemma groupAdd_In groups engine cameraID e owned :
  NoDup (map fst groups) ->
  (In (e, owned) (groupAdd groups engine cameraID) <->
   (e <> engine /\ In (e, owned) groups) \/
   (e = engine /\
    ((exists before, In (engine, before) groups /\
                     owned = (if existsb (String.eqb cameraID) before
                              then before else before ++ [cameraID])) \/
     (~ In engine (map fst groups) /\ owned = [cameraID])))).
Proof.
  induction groups as [|[e0 o0] groups IH]; simpl; intros Hnd.
  - split.
    + intros [[= <- <-]|[]]. right. split; [reflexivity|]. right. auto.
    + intros [[_ []]|[-> [(b & [] & _)|[_ ->]]]]. now left.
  - inversion Hnd as [|? ? Hnotin Hnd']; subst.
    destruct (Nat.eqb_spec e0 engine) as [->|Hne]; simpl.
    + split.
      * intros [[= <- <-]|Hin].
        -- right. split; [reflexivity|]. left. exists o0. auto.
        -- left. split; [|now right]. intros ->. apply Hnotin.
           apply (in_map fst) in Hin. exact Hin.
      * intros [[Hne [[= -> _]|Hin]]|[-> [(b & [[= <-]|Hin] & ->)|[Hno _]]]].
        -- contradiction.
        -- now right.
        -- now left.
        -- exfalso. apply Hnotin. apply (in_map fst) in Hin. exact Hin.
        -- exfalso. apply Hno. now left.
    + rewrite (IH Hnd'). split.
      * intros [[= <- <-]|[[Hne' Hin]|[-> [(b & Hin & ->)|[Hno ->]]]]].
        -- left. split; [assumption | now left].
        -- left. split; [assumption | now right].
        -- right. split; [reflexivity|]. left. exists b. split; [now right | reflexivity].
        -- right. split; [reflexivity|]. right. split; [|reflexivity].
           intros [H|H]; [contradiction | now apply Hno].
      * intros [[Hne' [[= <- <-]|Hin]]|[-> [(b & [[= -> _]|Hin] & ->)|[Hno ->]]]].
        -- now left.
        -- right. left. auto.
        -- contradiction.
        -- right. right. split; [reflexivity|]. left. exists b. auto.
        -- right. right. split; [reflexivity|]. right. split; [|reflexivity].
           intros H. apply Hno. now right.
Qed.

Lemma groupAdd_engines groups engine cameraID e :
  In e (map fst (groupAdd groups engine cameraID)) <->
  In e (map fst groups) \/ e = engine.
Proof.
  induction groups as [|[e0 o0] groups IH]; simpl.
  - intuition.
  - destruct (Nat.eqb_spec e0 engine) as [->|Hne]; simpl.
    + intuition.
    + rewrite IH. intuition.
Qed.

Lemma groupAdd_NoDup groups engine cameraID :
  NoDup (map fst groups) -> NoDup (map fst (groupAdd groups engine cameraID)).
Proof.
  induction groups as [|[e0 o0] groups IH]; simpl; intros Hnd.
  - repeat constructor. intros [].
  - inversion Hnd as [|? ? Hnotin Hnd']; subst.
    destruct (Nat.eqb_spec e0 engine) as [->|Hne]; simpl.
    + constructor; assumption.
    + constructor; [|now apply IH].
      rewrite groupAdd_engines. intros [H|H]; [contradiction | congruence].
Qed.

(** The grouping invariant: the engines of the groups are distinct; a
    group is never empty and holds no camera twice; a camera is in the
    group of an engine exactly when it was requested and that engine
    owns it. *)
Definition grouped (store : Store) (requested : list string)
    (groups : list (Engine * list string)) : Prop :=
  NoDup (map fst groups) /\
  (forall engine owned, In (engine, owned) groups ->
     owned <> [] /\ NoDup owned /\
     forall cameraID, In cameraID owned <->
       In cameraID requested /\ getEngineForCameraID store cameraID = Some engine) /\
  (forall cameraID engine,
     In cameraID requested -> getEngineForCameraID store cameraID = Some engine ->
     In engine (map fst groups)).

Lemma grouped_step store requested groups cameraID :
  grouped store requested groups ->
  grouped store (requested ++ [cameraID])
    (match getEngineForCameraID store cameraID with
     | Some engine => groupAdd groups engine cameraID
     | None => groups
     end).
Proof.
  intros (Hnd & Hgroups & Hcover).
  assert (Hold : forall e owned, In (e, owned) groups ->
    getEngineForCameraID store cameraID <> Some e ->
    owned <> [] /\ NoDup owned /\
    forall c, In c owned <->
      In c (requested ++ [cameraID]) /\ getEngineForCameraID store c = Some e).
  { intros e owned Hin Hother. destruct (Hgroups _ _ Hin) as (H1 & H2 & H3).
    split; [exact H1|]. split; [exact H2|]. intros c. rewrite H3, in_app_iff. simpl.
    split; [tauto|]. intros [[Hc|[<-|[]]] Hce]; [tauto | congruence]. }
  destruct (getEngineForCameraID store cameraID) as [engine|] eqn:He.
  - split; [now apply groupAdd_NoDup|]. split.
    + intros e owned Hin. apply (groupAdd_In _ _ _ _ _ Hnd) in Hin.
      destruct Hin as [[Hne Hin]|[-> [(before & Hin & ->)|[Hno ->]]]].
      * apply Hold; [assumption | congruence].
      * destruct (Hgroups _ _ Hin) as (H1 & H2 & H3).
        change (if existsb (String.eqb cameraID) before then before
                else before ++ [cameraID]) with (set_add before cameraID).
        split; [|split].
        -- unfold set_add. destruct (existsb _ before); [assumption|].
           destruct before; discriminate.
        -- now apply set_add_NoDup.
        -- intros c. rewrite set_add_In, H3, in_app_iff. simpl.
           split; [intros [[Hc Hce]| ->]; tauto|].
           intros [[Hc|[<-|[]]] Hce]; tauto.
      * split; [discriminate|]. split; [repeat constructor; intros []|].
        intros c. rewrite in_app_iff. simpl. split.
        -- intros [<-|[]]. tauto.
        -- intros [[Hc|[<-|[]]] Hce]; [|now left].
           exfalso. apply Hno. eapply Hcover; eassumption.
    + intros c e Hc Hce. apply groupAdd_engines.
      apply in_app_or in Hc as [Hc|[<-|[]]]; [left; eapply Hcover; eassumption|].
      right. congruence.
  - split; [assumption|]. split.
    + intros e owned Hin. apply Hold; [assumption | discriminate].
    + intros c e Hc Hce.
      apply in_app_or in Hc as [Hc|[<-|[]]]; [eapply Hcover; eassumption | congruence].
Qed.

Lemma grouped_fold store ids : forall requested groups,
  grouped store requested groups ->
  grouped store (requested ++ ids)
    (fold_left
       (fun acc cameraID =>
          match getEngineForCameraID store cameraID with
          | Some engine => groupAdd acc engine cameraID
          | None => acc
          end) ids groups).
Proof.
  induction ids as [|i ids IH]; intros requested groups H; simpl.
  - now rewrite app_nil_r.
  - replace (requested ++ i :: ids) with ((requested ++ [i]) ++ ids)
      by (rewrite <- app_assoc; reflexivity).
    apply IH. now apply grouped_step.
Qed.

(** [getEnginesForCameraIDs] groups the requested cameras that are in the
    store by their engine, and is [null] exactly when none is. *)
Lemma getEnginesForCameraIDs_grouped store ids :
  match getEnginesForCameraIDs store ids with
  | Some groups => grouped store ids groups /\ groups <> []
  | None => forall cameraID, In cameraID ids -> getEngineForCameraID store cameraID = None
  end.
Proof.
  unfold getEnginesForCameraIDs.
  assert (H : grouped store ([] ++ ids)
    (fold_left
       (fun acc cameraID =>
          match getEngineForCameraID store cameraID with
          | Some engine => groupAdd acc engine cameraID
          | None => acc
          end) ids [])).
  { apply grouped_fold. split; [constructor|]. split; [intros ? ? []|intros ? ? []]. }
  simpl in H. destruct (fold_left _ ids []) as [|g groups] eqn:E.
  - intros c Hc. destruct H as (_ & _ & Hcover).
    destruct (getEngineForCameraID store c) as [e|] eqn:He; [|reflexivity].
    destruct (Hcover c e Hc He).
  - split; [exact H | discriminate].
Qed.

Lemma getEngineForCameraID_None store cameraID :
  getEngineForCameraID store cameraID = None <-> hasCameraID store cameraID = false.
Proof.
  unfold getEngineForCameraID, hasCameraID.
  destruct (lookup store cameraID); simpl; split; congruence.
Qed.

Section FanOutOwnership.

Variable engineOf : Engine -> CameraManagerEngine.
Variable store : Store.

(** X6.  The fan-out of a query follows ownership: the engines it is sent to
    are distinct; the clone sent to an engine asks for exactly the
    requested cameras that engine owns, and for at least one; and every
    requested camera of the store is asked of its engine.  A query none
    of whose cameras is in the store is sent to no engine. *)
Theorem engineQueries_follow_ownership (query : Query) next :
  let dispatched := fst (engineQueries store query next) in
  NoDup (map fst dispatched) /\
  (forall engine clone, In (engine, clone) dispatched ->
     cameraIDs (val clone) <> [] /\
     forall cameraID, In cameraID (cameraIDs (val clone)) <->
       In cameraID (cameraIDs (val query)) /\
       getEngineForCameraID store cameraID = Some engine) /\
  (forall cameraID engine,
     In cameraID (cameraIDs (val query)) ->
     getEngineForCameraID store cameraID = Some engine ->
     exists clone, In (engine, clone) dispatched) /\
  ((forall cameraID, In cameraID (cameraIDs (val query)) ->
      hasCameraID store cameraID = false) ->
   dispatched = []).
Proof.
  intros dispatched.
  pose proof (getEnginesForCameraIDs_grouped store (cameraIDs (val query))) as Hg.
  pose proof (engineQueries_spec store query next dispatched
                (snd (engineQueries store query next))) as Hspec.
  assert (Hrun : engineQueries store query next
                 = (dispatched, snd (engineQueries store query next)))
    by (unfold dispatched; now destruct (engineQueries store query next)).
  destruct (Hspec Hrun) as [_ Hclones]. clear Hspec.
  assert (Hengines : map fst dispatched =
    match getEnginesForCameraIDs store (cameraIDs (val query)) with
    | Some groups => map fst groups
    | None => []
    end).
  { unfold dispatched, engineQueries.
    destruct (getEnginesForCameraIDs store (cameraIDs (val query))) as [groups|];
      [|reflexivity].
    now destruct (cloneFor_addrs query groups next) as (_ & He & _). }
  destruct (getEnginesForCameraIDs store (cameraIDs (val query))) as [groups|] eqn:Eg.
  - destruct Hg as [(Hnd & Hgroups & Hcover) Hne].
    split; [now rewrite Hengines|]. split; [|split].
    + intros engine clone Hin.
      destruct (Hclones _ _ Hin) as (engines & owned & [= <-] & Ho & Hv & _).
      rewrite Hv. simpl. destruct (Hgroups _ _ Ho) as (H1 & _ & H3). auto.
    + intros c e Hc Hce. specialize (Hcover c e Hc Hce).
      rewrite <- Hengines in Hcover. apply in_map_iff in Hcover as ([e' clone] & He' & Hin).
      simpl in He'. subst e'. eauto.
    + intros Hnone. exfalso.
      destruct groups as [|[e owned] groups]; [now apply Hne|].
      destruct (Hgroups e owned (or_introl eq_refl)) as (H1 & _ & H3).
      destruct owned as [|c owned]; [now apply H1|].
      destruct (proj1 (H3 c) (or_introl eq_refl)) as [Hc Hce].
      apply Hnone in Hc. apply getEngineForCameraID_None in Hc. congruence.
  - assert (Hnil : dispatched = []) by (destruct dispatched; [reflexivity | discriminate]).
    rewrite Hnil. split; [constructor|]. split; [intros ? ? []|]. split; [|reflexivity].
    intros c e Hc Hce. rewrite (Hg c Hc) in Hce. discriminate.
Qed.

End FanOutOwnership.

Section DefaultQueries.

Variable restOf : Engine -> CameraManagerEngineRest.

(** X19.  [_generateDefaultQueries] returns [null] exactly when no requested
    camera is in the store (and the empty list when the engines that own
    cameras generate nothing).  Every query it returns was generated by
    an engine for exactly the requested cameras that engine owns, through
    the method of the partial query's type. *)
Theorem generateDefaultQueries_sources store cameraIDs partialQuery :
  (_generateDefaultQueries restOf store cameraIDs partialQuery = None <->
   forall cameraID, In cameraID (setify cameraIDs) ->
     hasCameraID store cameraID = false) /\
  (forall queries,
     _generateDefaultQueries restOf store cameraIDs partialQuery = Some queries ->
     forall query, In query queries ->
       exists engine owned generated,
         generateDefaultFor restOf store engine owned partialQuery = Some generated /\
         In query generated /\ owned <> [] /\
         forall cameraID, In cameraID owned <->
           In cameraID (setify cameraIDs) /\
           getEngineForCameraID store cameraID = Some engine).
Proof.
  unfold _generateDefaultQueries.
  pose proof (getEnginesForCameraIDs_grouped store (setify cameraIDs)) as Hg.
  destruct (getEnginesForCameraIDs store (setify cameraIDs)) as [groups|].
  - destruct Hg as [(Hnd & Hgroups & Hcover) Hne]. split.
    + split; [discriminate|]. intros Hnone. exfalso.
      destruct groups as [|[e owned] groups]; [now apply Hne|].
      destruct (Hgroups e owned (or_introl eq_refl)) as (H1 & _ & H3).
      destruct owned as [|c owned]; [now apply H1|].
      destruct (proj1 (H3 c) (or_introl eq_refl)) as [Hc Hce].
      apply Hnone in Hc. apply getEngineForCameraID_None in Hc. congruence.
    + intros queries [= <-] query Hin.
      apply in_flat_map in Hin as ([engine owned] & Hgroup & Hq).
      destruct (generateDefaultFor restOf store engine owned partialQuery)
        as [generated|] eqn:Egen; [|destruct Hq].
      exists engine, owned, generated.
      destruct (Hgroups _ _ Hgroup) as (H1 & _ & H3). auto.
  - split; [|discriminate]. split; [|reflexivity].
    intros _ c Hc. apply getEngineForCameraID_None. now apply Hg.
Qed.

End DefaultQueries.

(** ** Media metadata *)

Definition facetValues (facet : option (list string)) : list string :=
  match facet with Some values => values | None => [] end.

(** A facet of the manager's answer, empty when there is no answer. *)
Definition metadataFacet (proj : MediaMetadata -> option (list string))
    (metadata : option MediaMetadata) : list string :=
  match metadata with Some m => facetValues (proj m) | None => [] end.

Lemma addFacet_In target facet x :
  In x (addFacet target facet) <-> In x target \/ In x (facetValues facet).
Proof.
  destruct facet as [values|]; simpl; [|tauto].
  revert target. induction values as [|v values IH]; intros target; simpl; [tauto|].
  rewrite IH, set_add_In. intuition.
Qed.

Lemma addFacet_NoDup target facet : NoDup target -> NoDup (addFacet target facet).
Proof.
  destruct facet as [values|]; simpl; [|auto].
  revert target. induction values as [|v values IH]; intros target H; simpl; [assumption|].
  apply IH. now apply set_add_NoDup.
Qed.

Section MediaMetadataFacts.

Variable restOf : Engine -> CameraManagerEngineRest.
Variable store : Store.

(** Some engine of the store reports [x] in the facet. *)
Definition reported (proj : MediaMetadata -> option (list string)) (x : string) : Prop :=
  exists engine engineMetadata,
    In engine (getAllEngines store) /\
    EngineContractRest.getMediaMetadata (restOf engine) (getCameras store)
      = Some engineMetadata /\
    In x (facetValues (proj engineMetadata)).

Let facetFold (proj : MediaMetadata -> option (list string))
    (engines : list Engine) (init : list string) : list string :=
  fold_left
    (fun acc engine =>
       match EngineContractRest.getMediaMetadata (restOf engine) (getCameras store) with
       | Some engineMetadata => addFacet acc (proj engineMetadata)
       | None => acc
       end) engines init.

Lemma processMetadata_facets engines : forall what where_ days,
  fold_left (processMetadata restOf store) engines (what, where_, days)
  = (facetFold EngineContractRest.what engines what,
     facetFold EngineContractRest.where_ engines where_,
     facetFold EngineContractRest.days engines days).
Proof.
  induction engines as [|e engines IH]; intros w wh d; simpl; [reflexivity|].
  destruct (EngineContractRest.getMediaMetadata (restOf e) (getCameras store));
    apply IH.
Qed.

Lemma facetFold_In proj engines : forall init x,
  In x (facetFold proj engines init) <->
  In x init \/
  exists engine engineMetadata,
    In engine engines /\
    EngineContractRest.getMediaMetadata (restOf engine) (getCameras store)
      = Some engineMetadata /\
    In x (facetValues (proj engineMetadata)).
Proof.
  induction engines as [|e engines IH]; intros init x; simpl.
  - split; [auto | intros [H|(e & m & [] & _)]; assumption].
  - rewrite IH.
    destruct (EngineContractRest.getMediaMetadata (restOf e) (getCameras store))
      as [m|] eqn:Em.
    + rewrite addFacet_In. split.
      * intros [[H|H]|(e' & m' & Hin & Hm & Hx)]; [now left | |].
        -- right. exists e, m. auto.
        -- right. exists e', m'. auto.
      * intros [H|(e' & m' & [<-|Hin] & Hm & Hx)]; [now left; left | |].
        -- rewrite Em in Hm. injection Hm as <-. left. now right.
        -- right. exists e', m'. auto.
    + split.
      * intros [H|(e' & m' & Hin & Hm & Hx)]; [now left|].
        right. exists e', m'. auto.
      * intros [H|(e' & m' & [<-|Hin] & Hm & Hx)]; [now left | congruence |].
        right. exists e', m'. auto.
Qed.

Lemma facetFold_NoDup proj engines : forall init,
  NoDup init -> NoDup (facetFold proj engines init).
Proof.
  induction engines as [|e engines IH]; intros init H; simpl; [assumption|].
  apply IH.
  destruct (EngineContractRest.getMediaMetadata (restOf e) (getCameras store));
    [now apply addFacet_NoDup | assumption].
Qed.

Lemma facetIfAny_values s : facetValues (facetIfAny s) = s.
Proof. now destruct s. Qed.

(** X18.  [getMediaMetadata] answers with the union of what the engines of the
    store report, facet by facet and without repetition; a facet nobody
    reports anything for is absent rather than empty, and the answer is
    [null] exactly when every facet is. *)
Theorem getMediaMetadata_union :
  let answer := getMediaMetadata restOf store in
  Forall
    (fun proj : MediaMetadata -> option (list string) =>
       (forall x, In x (metadataFacet proj answer) <-> reported proj x) /\
       NoDup (metadataFacet proj answer) /\
       (forall m, answer = Some m -> proj m <> Some []))
    [EngineContractRest.what; EngineContractRest.where_; EngineContractRest.days] /\
  (answer = None <->
   forall x, ~ reported EngineContractRest.what x /\
             ~ reported EngineContractRest.where_ x /\
             ~ reported EngineContractRest.days x).
Proof.
  intros answer.
  assert (Hanswer : answer =
    match facetFold EngineContractRest.what (getAllEngines store) [],
          facetFold EngineContractRest.where_ (getAllEngines store) [],
          facetFold EngineContractRest.days (getAllEngines store) [] with
    | [], [], [] => None
    | w, wh, d => Some (mkMetadata (facetIfAny w) (facetIfAny wh) (facetIfAny d))
    end).
  { unfold answer, getMediaMetadata. rewrite processMetadata_facets.
    destruct (facetFold EngineContractRest.what _ _),
             (facetFold EngineContractRest.where_ _ _),
             (facetFold EngineContractRest.days _ _); reflexivity. }
  assert (Hfacet : forall proj,
    (proj = EngineContractRest.what \/ proj = EngineContractRest.where_ \/
     proj = EngineContractRest.days) ->
    metadataFacet proj answer = facetFold proj (getAllEngines store) []).
  { intros proj Hproj. rewrite Hanswer.
    destruct (facetFold EngineContractRest.what (getAllEngines store) []) eqn:Ew,
             (facetFold EngineContractRest.where_ (getAllEngines store) []) eqn:Eh,
             (facetFold EngineContractRest.days (getAllEngines store) []) eqn:Ed;
      destruct Hproj as [-> | [-> | ->]]; simpl; congruence. }
  assert (Hrep : forall proj x,
    In x (facetFold proj (getAllEngines store) []) <-> reported proj x).
  { intros proj x. rewrite facetFold_In. unfold reported.
    split; [intros [[]|H]; exact H | intros H; now right]. }
  assert (Hone : forall proj,
    (proj = EngineContractRest.what \/ proj = EngineContractRest.where_ \/
     proj = EngineContractRest.days) ->
    (forall x, In x (metadataFacet proj answer) <-> reported proj x) /\
    NoDup (metadataFacet proj answer) /\
    (forall m, answer = Some m -> proj m <> Some [])).
  { intros proj Hproj. rewrite (Hfacet proj Hproj).
    split; [apply Hrep|]. split; [apply facetFold_NoDup; constructor|].
    intros m Hm. rewrite Hanswer in Hm.
    destruct (facetFold EngineContractRest.what (getAllEngines store) []) eqn:Ew,
             (facetFold EngineContractRest.where_ (getAllEngines store) []) eqn:Eh,
             (facetFold EngineContractRest.days (getAllEngines store) []) eqn:Ed;
      try discriminate; injection Hm as <-;
      destruct Hproj as [-> | [-> | ->]]; simpl; discriminate. }
  split.
  - repeat constructor; apply Hone; auto.
  - rewrite Hanswer. split.
    + intros Hnone x. rewrite <- !Hrep.
      destruct (facetFold EngineContractRest.what (getAllEngines store) []),
               (facetFold EngineContractRest.where_ (getAllEngines store) []),
               (facetFold EngineContractRest.days (getAllEngines store) []);
        try discriminate. simpl. tauto.
    + intros Hnone.
      destruct (facetFold EngineContractRest.what (getAllEngines store) [])
        as [|w ws] eqn:Ew.
      * destruct (facetFold EngineContractRest.where_ (getAllEngines store) [])
          as [|h hs] eqn:Eh.
        -- destruct (facetFold EngineContractRest.days (getAllEngines store) [])
             as [|d ds] eqn:Ed; [reflexivity|].
           exfalso. apply (proj2 (proj2 (Hnone d))). apply Hrep. rewrite Ed. now left.
        -- exfalso. apply (proj1 (proj2 (Hnone h))). apply Hrep. rewrite Eh. now left.
      * exfalso. apply (proj1 (Hnone w)). apply Hrep. rewrite Ew. now left.
Qed.

End MediaMetadataFacts.

(** ** Per-camera and per-media lookups *)

Section Lookups.

Variable getCameraID : CameraConfig -> option string.
Variable getEngineForCamera : CameraConfig -> option Engine.
Variable engineOf : Engine -> CameraManagerEngine.
Variable restOf : Engine -> CameraManagerEngineRest.

Let idOf (result : InitializedCamera) := getCameraID (initializedConfig result).
Let initialize := initializeCameras getCameraID getEngineForCamera engineOf.
Let resolve store := _initializeCamera getEngineForCamera engineOf store.

(** X13.  For media of a camera that is not in the store the manager answers
    [null] throughout and calls no engine: no download path, no media
    capabilities, no seek time, and [favoriteMedia] does nothing.  The
    same holds of the per-camera lookups for such a camera ID. *)
Theorem unknown_camera_lookups store media :
  hasCameraID store (Media.getCameraID media) = false ->
  getMediaDownloadPath restOf store media = None /\
  getMediaCapabilities restOf store media = None /\
  (forall favorite, favoriteMedia store media favorite = []) /\
  (forall target, getMediaSeekTime engineOf store media target = ([], None)) /\
  getCameraURL restOf store (Media.getCameraID media) None = None /\
  getCameraMetadata restOf store (Media.getCameraID media) = None /\
  getCameraCapabilities engineOf store (Media.getCameraID media) = None.
Proof.
  unfold hasCameraID, getMediaDownloadPath, getMediaCapabilities, favoriteMedia,
    getMediaSeekTime, getCameraURL, getCameraMetadata, getCameraCapabilities,
    getCameraConfigForMedia, getEngineForMedia, getCameraConfig, getEngineForCameraID.
  destruct (lookup store (Media.getCameraID media)); [discriminate|].
  intros _. simpl. repeat split.
Qed.

(** X12.  After a successful initialisation every lookup for a camera is
    answered by the engine the camera was resolved to, on the
    configuration that engine returned from [initializeCamera] (not on
    the input configuration); [favoriteMedia] calls that engine once; and
    the manager's camera IDs are those of the store in order of
    addition. *)
Theorem initialized_camera_lookups store camerasConfig results :
  allPromises camerasConfig (resolve store) = inr results ->
  out_error (initialize store camerasConfig) = None ->
  let store' := out_store (initialize store camerasConfig) in
  (exists ids, map idOf results = map Some ids /\
               managerCameraIDs store' = Some (getCameraIDs store ++ ids)) /\
  forall r, In r results ->
    exists id, idOf r = Some id /\
      getCameraCapabilities engineOf store' id
        = EngineContract.getCameraCapabilities (engineOf (engine r)) (initializedConfig r) /\
      (forall context,
         getCameraURL restOf store' id context
         = EngineContractRest.getCameraURL (restOf (engine r)) (initializedConfig r) context) /\
      getCameraMetadata restOf store' id
        = EngineContractRest.getCameraMetadata (restOf (engine r)) (initializedConfig r) /\
      forall media, Media.getCameraID media = id ->
        getMediaDownloadPath restOf store' media
          = EngineContractRest.getMediaDownloadPath (restOf (engine r))
              (initializedConfig r) media /\
        getMediaCapabilities restOf store' media
          = EngineContractRest.getMediaCapabilities (restOf (engine r)) media /\
        forall favorite,
          favoriteMedia store' media favorite
          = [CallFavoriteMedia (engine r) (initializedConfig r) media favorite].
Proof.
  intros Hall Hok store'.
  destruct (proj2 (initializeCameras_succeeds getCameraID getEngineForCamera engineOf
                     store camerasConfig results Hall) Hok)
    as (ids & Hids & Hstore & Hcams & Hinit & Hlookup).
  fold initialize in Hstore, Hcams, Hinit, Hlookup. fold store' in Hstore, Hcams, Hinit, Hlookup.
  change (map idOf results = map Some ids) in Hids.
  split.
  - exists ids. split; [exact Hids|]. unfold managerCameraIDs.
    unfold isInitialized in Hinit.
    destruct (getCameraCount store') eqn:Ec; [discriminate|]. simpl.
    f_equal. rewrite <- Hcams. unfold getCameras, getCameraIDs.
    rewrite map_map. reflexivity.
  - intros r Hin. apply In_nth_error in Hin as (k & Hk).
    assert (Hid : exists id, nth_error ids k = Some id /\ idOf r = Some id).
    { assert (Hm : nth_error (map idOf results) k = Some (idOf r))
        by now apply map_nth_error.
      rewrite Hids in Hm. rewrite nth_error_map in Hm.
      destruct (nth_error ids k) as [id|]; [|discriminate].
      injection Hm as Hm. eauto. }
    destruct Hid as (id & Hnth & Hid). exists id. split; [exact Hid|].
    destruct (Hlookup k r id Hk Hnth) as [Hcfg Heng].
    unfold getCameraCapabilities, getCameraURL, getCameraMetadata,
      getMediaDownloadPath, getMediaCapabilities, favoriteMedia,
      getCameraConfigForMedia, getEngineForMedia.
    rewrite Hcfg, Heng.
    split; [reflexivity|]. split; [reflexivity|]. split; [reflexivity|].
    intros media ->. rewrite Hcfg, Heng.
    split; [reflexivity|]. split; reflexivity.
Qed.

End Lookups.

(** ** Pagination, continued *)

Lemma find_app_first {A} (f : A -> bool) l1 l2 x :
  find f l1 = Some x -> find f (l1 ++ l2) = Some x.
Proof.
  induction l1 as [|y l1 IH]; simpl; [discriminate|].
  destruct (f y); auto.
Qed.

Lemma find_present {A} (f : A -> bool) l x :
  In x l -> f x = true -> exists y, find f l = Some y.
Proof.
  induction l as [|y l IH]; simpl; [intros []|].
  intros [->|Hin] Hf.
  - rewrite Hf. eauto.
  - destruct (f y); eauto.
Qed.

Lemma owningEngines_unowned store (query : Query) :
  (forall cameraID, In cameraID (cameraIDs (val query)) ->
     hasCameraID store cameraID = false) ->
  owningEngines store query = 0%nat.
Proof.
  intros Hnone. unfold owningEngines.
  pose proof (getEnginesForCameraIDs_grouped store (cameraIDs (val query))) as Hg.
  destruct (getEnginesForCameraIDs store (cameraIDs (val query))) as [groups|];
    [|reflexivity].
  exfalso. destruct Hg as [(_ & Hgroups & _) Hne].
  destruct groups as [|[e owned] groups]; [now apply Hne|].
  destruct (Hgroups e owned (or_introl eq_refl)) as (H1 & _ & H3).
  destruct owned as [|c owned]; [now apply H1|].
  destruct (proj1 (H3 c) (or_introl eq_refl)) as [Hc Hce].
  apply Hnone in Hc. apply getEngineForCameraID_None in Hc. congruence.
Qed.

Lemma buildQueries_addrs results direction chunkSize queries : forall next,
  map (fun pair : Query * Query => addr (fst pair))
      (fst (buildQueries queries results direction chunkSize next))
    = map (fun k => (next + 2 * k)%nat) (seq 0 (List.length queries)) /\
  map (fun pair : Query * Query => addr (snd pair))
      (fst (buildQueries queries results direction chunkSize next))
    = map (fun k => (next + 2 * k + 1)%nat) (seq 0 (List.length queries)).
Proof.
  unfold buildQueries.
  induction queries as [|query queries IH]; intros next; simpl; [split; reflexivity|].
  unfold bind, spread, fresh, ret. simpl.
  specialize (IH (S (S next))).
  destruct (mapM _ queries (S (S next))) as [built n']. simpl in *.
  destruct IH as [IH1 IH2]. rewrite IH1, IH2.
  rewrite <- !seq_shift, !map_map. split; f_equal.
  - lia.
  - apply map_ext. intros k. lia.
  - lia.
  - apply map_ext. intros k. lia.
Qed.

Section PaginationMore.

Variable engineOf : Engine -> CameraManagerEngine.

(** X8.  Extending never replaces what the caller already has: an item of the
    extended results whose ID (or object) occurs in the prior results is
    the prior results' own item, the first with that ID.  A chunk that
    brings only items whose IDs the prior results already hold is still
    an answer, not "no more data": the extension succeeds with the prior
    results, de-duplicated and sorted, and nothing new. *)
Theorem extendMediaQueries_prior_results_win store queries results direction
    chunkSize next :
  let built := buildQueries queries results direction chunkSize next in
  let newChunkMedia :=
    fst (executeMediaQueries engineOf store (map fst (fst built)) (snd built)) in
  (forall extended m prior,
     fst (extendMediaQueries engineOf store queries results direction chunkSize next)
       = Some extended ->
     In m (ext_results extended) ->
     In prior results -> mediaKey prior = mediaKey m ->
     find (fun other => mediaKey_eqb (mediaKey other) (mediaKey m)) results = Some m) /\
  (newChunkMedia <> [] ->
   (forall m, In m newChunkMedia ->
      exists prior, In prior results /\ mediaKey prior = mediaKey m) ->
   exists extended,
     fst (extendMediaQueries engineOf store queries results direction chunkSize next)
       = Some extended /\
     ext_results extended = _sortMedia results).
Proof.
  intros built newChunkMedia.
  pose proof (extendMediaQueries_unfold engineOf store queries results direction
                chunkSize next) as Hrun.
  cbv zeta in Hrun. fold built in Hrun. fold newChunkMedia in Hrun.
  split.
  - intros extended m prior Hext Hin Hprior Hkey. rewrite Hrun in Hext.
    destruct newChunkMedia as [|c chunk] eqn:Echunk; [discriminate|].
    injection Hext as <-. simpl in Hin.
    apply sortMedia_first in Hin.
    destruct (find_present (fun other => mediaKey_eqb (mediaKey other) (mediaKey m))
                results prior Hprior) as (y & Hy).
    { rewrite Hkey. apply mediaKey_eqb_refl. }
    rewrite (find_app_first _ _ _ _ Hy) in Hin. congruence.
  - intros Hne Hknown. rewrite Hrun.
    destruct newChunkMedia as [|c chunk] eqn:Echunk; [contradiction|].
    eexists. split; [reflexivity|]. simpl.
    unfold _sortMedia, uniqBy. f_equal.
    apply (baseUniq_app_known mediaKey). intros x Hx. simpl.
    destruct (Hknown x Hx) as (prior & Hp & Hk). rewrite <- Hk. now apply in_map.
Qed.

(** X9.  The queries an extension returns are new objects, one per original
    query and in the same order, allocated alternately with the chunk
    queries from the next free address on; the caller's query objects are
    not among them.  When no camera of any query is in the store (in
    particular for no queries at all) there is nothing to extend with and
    the answer is [null]. *)
Theorem extendMediaQueries_new_objects store (queries : list Query) results direction
    chunkSize next :
  (forall extended,
     fst (extendMediaQueries engineOf store queries results direction chunkSize next)
       = Some extended ->
     map addr (ext_queries extended)
       = map (fun k => (next + 2 * k + 1)%nat) (seq 0 (List.length queries))) /\
  ((forall query : Query, In query queries ->
      forall cameraID, In cameraID (cameraIDs (val query)) ->
        hasCameraID store cameraID = false) ->
   fst (extendMediaQueries engineOf store queries results direction chunkSize next)
     = None).
Proof.
  pose proof (extendMediaQueries_unfold engineOf store queries results direction
                chunkSize next) as Hrun.
  cbv zeta in Hrun.
  pose proof (buildQueries_addrs results direction chunkSize queries next) as [_ Hext].
  pose proof (buildQueries_spec results direction chunkSize queries next) as Hbuilt.
  destruct (buildQueries queries results direction chunkSize next) as [built n1] eqn:Eb.
  simpl in *. split.
  - intros extended Hsome. rewrite Hrun in Hsome.
    destruct (fst (executeMediaQueries engineOf store (map fst built) n1));
      [discriminate|].
    injection Hsome as <-. simpl. now rewrite map_map.
  - intros Hnone. rewrite Hrun.
    assert (Hzero : list_sum (map (owningEngines store) (map fst built)) = 0%nat).
    { clear - Hnone Hbuilt. induction Hbuilt as [|q [c e] qs bs [Hc _] _ IH]; [reflexivity|].
      simpl. rewrite IH by (intros q' Hq'; apply Hnone; now right).
      rewrite owningEngines_unowned; [reflexivity|].
      intros cameraID Hin. simpl in Hc. rewrite Hc in Hin.
      apply (Hnone q (or_introl eq_refl)).
      unfold newChunkQueryOf in Hin.
      destruct direction;
        [destruct (getTimeFromResults results earliest)
        |destruct (getTimeFromResults results latest)]; exact Hin. }
    unfold executeMediaQueries, bind, ret.
    destruct (handleQuery_allocates engineOf store (Many (map fst built)) n1)
      as (_ & _ & Hempty).
    rewrite (Hempty Hzero). reflexivity.
Qed.

End PaginationMore.

(** ** Concrete runs, continued *)

Module FixturesRest.

Import Fixtures.
Local Open Scope string_scope.

(** Engine 0 knows persons and cars in the garden, engine 1 cars in the
    street; each generates one default query for the cameras it is asked
    for. *)
Definition rest (tag : Engine) : CameraManagerEngineRest :=
  EngineContractRest.mkEngineRest
    (fun _ =>
       if Nat.eqb tag 0
       then Some (mkMetadata (Some ["person"; "car"]) (Some ["garden"]) None)
       else Some (mkMetadata (Some ["car"]) (Some ["street"]) None))
    (fun _ owned partialQuery =>
       Some [mkObj (200 + tag)%nat (mkQuery QEvent owned None None None)])
    (fun _ owned partialQuery =>
       Some [mkObj (300 + tag)%nat (mkQuery QRecording owned None None None)])
    (fun _ _ _ => None)
    (fun config media => option_map (fun id => "/download/" ++ id) (getID media))
    (fun media => Some "can-download")
    (fun config context => option_map (fun id => "https://cameras/" ++ id) (cfg_id config))
    (fun config => cfg_id config).

(** An engine that renames the camera it initialises. *)
Definition renaming (tag : Engine) : CameraManagerEngine :=
  EngineContract.mkEngine
    (fun config => inr (mkConfig (option_map (fun id => "camera." ++ id) (cfg_id config))
                          (cfg_camera_entity config) (triggers_motion config)
                          (triggers_occupancy config)))
    (fun _ query => Some [(query, mkResults REvent tag false [])])
    (fun _ query => Some [(query, mkResults RRecording tag true [])])
    (fun _ query => Some [(query, mkResults RRecordingSegments tag false [])])
    (fun _ _ _ => Some (mediaOfEngine tag))
    (fun _ _ _ => None)
    (fun _ => None)
    (fun _ => Some (mkCapabilities false false (Nat.eqb tag 0) false false false))
    (fun _ _ _ => None).

(** An engine factory that knows no engine for camera [C]. *)
Definition engineUnlessC (config : CameraConfig) : option Engine :=
  match cfg_id config with
  | Some id => if String.eqb id "C" then None else Some 0%nat
  | None => Some 0%nat
  end.

Definition mediaOfUnknownCamera : ViewMedia :=
  mkMedia 104%nat (Some "z") "Z" (Some 1) (Some 2).

End FixturesRest.

Section ConcreteRunsRest.

Import Fixtures FixturesRest.
Local Open Scope string_scope.

(** Of two items with the ID [x], the first given is the one kept. *)
Lemma sortMedia_keeps_first_witness :
  In mediaXAgain (_sortMedia [mediaXAgain; mediaY; mediaX]) /\
  find (fun other => mediaKey_eqb (mediaKey other) (mediaKey mediaXAgain))
       [mediaXAgain; mediaY; mediaX] = Some mediaXAgain.
Proof.
  assert (Hin : In mediaXAgain (_sortMedia [mediaXAgain; mediaY; mediaX]))
    by (vm_compute; right; now left).
  split; [exact Hin|].
  exact (sortMedia_keeps_first [mediaXAgain; mediaY; mediaX] mediaXAgain Hin).
Defined.

(** One query for the two cameras gives a map of two entries; when the
    call to engine 1 resolves first, the entry for camera [B] comes
    first. *)
Lemma handleQuery_one_entry_per_engine_witness :
  Permutation (rev (fst (dispatchedQueries storeAB (arrayify (One queryAB)) 1%nat)))
              (fst (dispatchedQueries storeAB (arrayify (One queryAB)) 1%nat)) /\
  (forall engine clone,
     In (engine, clone) (fst (dispatchedQueries storeAB (arrayify (One queryAB)) 1%nat)) ->
     exists result,
       dispatchQuery engines storeAB engine clone = Some [(clone, result)]) /\
  map (fun key : Query => cameraIDs (val key))
      (map fst (fst (_handleQueryAsync engines (@rev (Engine * Query)) storeAB
                       (One queryAB) 1%nat)))
    = [["B"]; ["A"]] /\
  List.length (fst (_handleQueryAsync engines (@rev (Engine * Query)) storeAB
                      (One queryAB) 1%nat)) = 2%nat.
Proof.
  assert (Hperm :
    Permutation (rev (fst (dispatchedQueries storeAB (arrayify (One queryAB)) 1%nat)))
                (fst (dispatchedQueries storeAB (arrayify (One queryAB)) 1%nat)))
    by (apply Permutation_sym, Permutation_rev).
  assert (Hecho : forall engine clone,
     In (engine, clone) (fst (dispatchedQueries storeAB (arrayify (One queryAB)) 1%nat)) ->
     exists result,
       dispatchQuery engines storeAB engine clone = Some [(clone, result)]).
  { intros engine clone Hin. simpl in Hin.
    destruct Hin as [E|[E|[]]]; injection E as <- <-; eexists; reflexivity. }
  destruct (handleQuery_one_entry_per_engine engines storeAB (@rev (Engine * Query))
              (One queryAB) 1%nat Hperm Hecho) as (Hkeys & _ & _ & Hlength & _).
  split; [exact Hperm|]. split; [exact Hecho|]. split.
  - rewrite Hkeys. reflexivity.
  - exact Hlength.
Defined.

(** The media of the event results of the two engines come from those
    engines. *)
Lemma convertQueryResultsToMedia_sources_witness :
  In mediaX (_convertQueryResultsToMedia engines storeAB
               (fst (_handleQuery engines storeAB (One queryAB) 1%nat))) /\
  exists query result engine,
    In (query, result) (fst (_handleQuery engines storeAB (One queryAB) 1%nat)) /\
    getEngineOfType storeAB (r_engine result) = Some engine /\
    ((q_type (val query) = QEvent /\ r_type result = REvent /\
      exists media,
        EngineContract.generateMediaFromEvents (engines engine) (getCameras storeAB)
          query result = Some media /\ In mediaX media) \/
     (q_type (val query) = QRecording /\ r_type result = RRecording /\
      exists media,
        EngineContract.generateMediaFromRecordings (engines engine) (getCameras storeAB)
          query result = Some media /\ In mediaX media)).
Proof.
  assert (Hin : In mediaX (_convertQueryResultsToMedia engines storeAB
                  (fst (_handleQuery engines storeAB (One queryAB) 1%nat))))
    by (vm_compute; right; now left).
  split; [exact Hin|].
  exact (convertQueryResultsToMedia_sources engines storeAB _ mediaX Hin).
Defined.

(** Cameras [A] and [B] initialise into an empty store. *)
Lemma initializeCameras_success_witness :
  allPromises [configFor "A"; configFor "B"]
    (_initializeCamera engineForConfig engines [])
  = inr [resultFor (configFor "A") 0%nat; resultFor (configFor "B") 1%nat] /\
  out_error (initializeCameras idOfConfig engineForConfig engines []
               [configFor "A"; configFor "B"]) = None.
Proof.
  split; [reflexivity|].
  apply (proj2 (proj1 (initializeCameras_success idOfConfig engineForConfig engines []
           [configFor "A"; configFor "B"]
           [resultFor (configFor "A") 0%nat; resultFor (configFor "B") 1%nat] eq_refl))).
  exists ["A"; "B"]. split; [reflexivity|]. split.
  - simpl. intros [H|[H|[]]]; discriminate.
  - split.
    + constructor.
      * simpl. intros [H|[]]. discriminate.
      * constructor; [simpl; tauto | constructor].
    + split; [intros id _ [] | discriminate].
Defined.

(** With no engine for camera [C], nothing is added, not even [A]. *)
Lemma initializeCameras_resolve_failure_witness :
  (exists c e, In c [configFor "A"; configFor "C"] /\
               _initializeCamera engineUnlessC engines [] c = inl e) /\
  out_store (initializeCameras idOfConfig engineUnlessC engines []
               [configFor "A"; configFor "C"]) = [].
Proof.
  assert (H : exists c e, In c [configFor "A"; configFor "C"] /\
               _initializeCamera engineUnlessC engines [] c = inl e).
  { exists (configFor "C"), (mkError error_no_camera_engine (Some (configFor "C"))).
    split; [right; now left | reflexivity]. }
  split; [exact H|].
  exact (proj1 (initializeCameras_resolve_failure idOfConfig engineUnlessC engines []
                  [configFor "A"; configFor "C"] H)).
Defined.

(** Results taken at time 0 with sixty seconds to live: fresh at time
    60000, hence fresh at time 1000 for results taken at time 500. *)
Lemma areMediaQueriesResultsFresh_monotone_witness :
  1000 <= 60000 /\ 0 <= 500 /\
  areMediaQueriesResultsFresh engines storeAB 60000 [queryAB] 0 = true /\
  areMediaQueriesResultsFresh engines storeAB 1000 [queryAB] 500 = true.
Proof.
  assert (H1 : 1000 <= 60000) by discriminate.
  assert (H2 : 0 <= 500) by discriminate.
  split; [exact H1|]. split; [exact H2|]. split; [reflexivity|].
  exact (areMediaQueriesResultsFresh_monotone engines storeAB 60000 1000 [queryAB]
           0 500 H1 H2 eq_refl).
Defined.

(** Media of camera [Z], which the store does not hold. *)
Lemma unknown_camera_lookups_witness :
  hasCameraID storeAB (Media.getCameraID mediaOfUnknownCamera) = false /\
  getMediaDownloadPath rest storeAB mediaOfUnknownCamera = None.
Proof.
  split; [reflexivity|].
  exact (proj1 (unknown_camera_lookups engines rest storeAB mediaOfUnknownCamera
                  eq_refl)).
Defined.

(** Camera [A], renamed [camera.A] by its engine, is looked up under the
    new name and answered from the renamed configuration. *)
Lemma initialized_camera_lookups_witness :
  out_error (initializeCameras idOfConfig engineForConfig renaming [] [configFor "A"])
    = None /\
  managerCameraIDs
    (out_store (initializeCameras idOfConfig engineForConfig renaming []
                  [configFor "A"]))
    = Some ["camera.A"].
Proof.
  split; [reflexivity|].
  destruct (proj1 (initialized_camera_lookups idOfConfig engineForConfig renaming rest []
                     [configFor "A"]
                     [mkInitialized (configFor "A") (configFor "camera.A") 0%nat]
                     eq_refl eq_refl)) as (ids & Hids & Hmanager).
  destruct ids as [|i [|j ids]]; try discriminate Hids.
  injection Hids as <-. exact Hmanager.
Defined.

(** The query for cameras [A] and [B] takes the addresses 1 and 2; the
    query for camera [Z], which no engine owns, takes none. *)
Lemma handleQuery_allocation_witness :
  snd (_handleQuery engines storeAB (One queryAB) 1%nat) = 3%nat /\
  list_sum (map (owningEngines storeAB) (arrayify (One queryUnknown))) = 0%nat /\
  _handleQuery engines storeAB (One queryUnknown) 1%nat = ([], 1%nat).
Proof.
  split; [|split; [reflexivity|]].
  - exact (proj1 (proj2 (handleQuery_allocation engines storeAB (One queryAB) 1%nat))).
  - exact (proj2 (proj2 (handleQuery_allocation engines storeAB (One queryUnknown) 1%nat))
             eq_refl).
Defined.

(** The clone sent to engine 1 asks for camera [B] alone, and the query
    for camera [Z] is sent nowhere. *)
Lemma engineQueries_follow_ownership_witness :
  In (1%nat, mkObj 2%nat (mkQuery QEvent ["B"] None None None))
     (fst (engineQueries storeAB queryAB 1%nat)) /\
  (In "B" ["B"] <->
   In "B" (cameraIDs (val queryAB)) /\ getEngineForCameraID storeAB "B" = Some 1%nat) /\
  fst (engineQueries storeAB queryUnknown 1%nat) = [].
Proof.
  assert (Hin : In (1%nat, mkObj 2%nat (mkQuery QEvent ["B"] None None None))
                   (fst (engineQueries storeAB queryAB 1%nat)))
    by (vm_compute; right; now left).
  split; [exact Hin|]. split.
  - exact (proj2 (proj1 (proj2 (engineQueries_follow_ownership storeAB queryAB 1%nat))
                    _ _ Hin) "B").
  - apply (proj2 (proj2 (proj2 (engineQueries_follow_ownership storeAB queryUnknown
                                  1%nat)))).
    intros cameraID [<-|[]]. reflexivity.
Defined.

(** A chunk that brings [x] and [y] to results that hold both already:
    the extension succeeds with the prior items. *)
Lemma extendMediaQueries_prior_results_win_witness :
  fst (executeMediaQueries engines storeAB
         (map fst (fst (buildQueries [queryAB] [mediaXAgain; mediaY] later 5 1%nat)))
         (snd (buildQueries [queryAB] [mediaXAgain; mediaY] later 5 1%nat)))
    = [mediaY; mediaX] /\
  exists extended,
    fst (extendMediaQueries engines storeAB [queryAB] [mediaXAgain; mediaY] later 5 1%nat)
      = Some extended /\
    ext_results extended = [mediaY; mediaXAgain].
Proof.
  split; [reflexivity|].
  destruct (proj2 (extendMediaQueries_prior_results_win engines storeAB [queryAB]
                     [mediaXAgain; mediaY] later 5 1%nat))
    as (extended & Hextended & Hresults).
  - discriminate.
  - intros m [<-|[<-|[]]].
    + exists mediaY. split; [right; now left | reflexivity].
    + exists mediaXAgain. split; [now left | reflexivity].
  - exists extended. split; [exact Hextended|]. rewrite Hresults. reflexivity.
Defined.

(** The extended query for the caller's query at address 0 is the object
    at address 2; a query for camera [Z] cannot be extended. *)
Lemma extendMediaQueries_new_objects_witness :
  (exists extended,
     fst (extendMediaQueries engines storeAB [queryAB] [mediaXAgain] later 5 1%nat)
       = Some extended /\
     map addr (ext_queries extended) = [2%nat]) /\
  fst (extendMediaQueries engines storeAB [queryUnknown] [mediaX] later 5 1%nat) = None.
Proof.
  split.
  - eexists. split; [vm_compute; reflexivity|].
    exact (proj1 (extendMediaQueries_new_objects engines storeAB [queryAB]
                    [mediaXAgain] later 5 1%nat) _ eq_refl).
  - apply (proj2 (extendMediaQueries_new_objects engines storeAB [queryUnknown]
                    [mediaX] later 5 1%nat)).
    intros query [<-|[]] cameraID [<-|[]]. reflexivity.
Defined.

(** Results of time 0 for camera [Z] count as fresh at time 100000, while
    with the query for [A] and [B] the batch is stale. *)
Lemma areMediaQueriesResultsFresh_batches_witness :
  areMediaQueriesResultsFresh engines storeAB 100000 [queryUnknown] 0 = true /\
  areMediaQueriesResultsFresh engines storeAB 100000 ([queryUnknown] ++ [queryAB]) 0
    = false.
Proof.
  split.
  - apply (proj2 (proj2 (areMediaQueriesResultsFresh_batches engines storeAB 100000 0))).
    intros query [<-|[]] cameraID [<-|[]]. reflexivity.
  - rewrite (proj1 (areMediaQueriesResultsFresh_batches engines storeAB 100000 0)).
    reflexivity.
Defined.

(** Asked for [A], [B] and [Z], each of the two engines generates the
    query for the camera it owns; asked for [Z] alone, the answer is
    [null]. *)
Lemma generateDefaultQueries_sources_witness :
  _generateDefaultQueries rest storeAB (Many ["A"; "B"; "Z"])
    (mkObj 0%nat (mkPartialQuery QEvent noFields))
  = Some [mkObj 200%nat (mkQuery QEvent ["A"] None None None);
          mkObj 201%nat (mkQuery QEvent ["B"] None None None)] /\
  _generateDefaultQueries rest storeAB (One "Z")
    (mkObj 0%nat (mkPartialQuery QEvent noFields)) = None.
Proof.
  split; [reflexivity|].
  apply (proj2 (proj1 (generateDefaultQueries_sources rest storeAB (One "Z")
                         (mkObj 0%nat (mkPartialQuery QEvent noFields))))).
  intros cameraID [<-|[]]. reflexivity.
Defined.

(** The two engines together know persons and cars, in the garden and in
    the street, and no days. *)
Lemma getMediaMetadata_union_witness :
  getMediaMetadata rest storeAB
  = Some (mkMetadata (Some ["person"; "car"]) (Some ["garden"; "street"]) None) /\
  NoDup (metadataFacet EngineContractRest.what (getMediaMetadata rest storeAB)).
Proof.
  split; [reflexivity|].
  pose proof (proj1 (getMediaMetadata_union rest storeAB)) as H.
  inversion H as [|? ? Hwhat _]. exact (proj1 (proj2 Hwhat)).
Defined.

End ConcreteRunsRest.

(** * The view factory

    [ViewFactory] (card-controller/view/factory.ts) chooses the camera
    and the view name a view is made with.  The [View] class, the view
    modifiers, the camera store and [getCameraIDsForViewName] are its
    collaborators and are taken as given. *)

Module ViewFactory.

(** [!s] is false for a string [s] that is not empty. *)
Definition truthy (s : string) : bool :=
  match s with EmptyString => false | _ => true end.

Definition truthyOpt (s : option string) : bool :=
  match s with Some s => truthy s | None => false end.

(** [a ?? b]. *)
Definition orElse {A} (a b : option A) : option A :=
  match a with Some _ => a | None => b end.

(** [array.indexOf(x)], -1 when absent. *)
Fixpoint indexOf (x : string) (l : list string) : Z :=
  match l with
  | [] => -1
  | y :: rest =>
      if String.eqb y x then 0
      else let i := indexOf x rest in if i <? 0 then -1 else i + 1
  end.

(** The part of the card configuration the factory reads:
    [view.default], [view.default_cycle_camera],
    [media_viewer.display?.mode] and [live.display?.mode]. *)
Record FactoryConfig := mkFactoryConfig {
  view_default : string;
  view_default_cycle_camera : bool;
  media_viewer_display_mode : option string;
  live_display_mode : option string
}.

Section Factory.

Variable View : Type.
Variable Modifiers : Type.
Variable OtherParameters : Type.
Variable RawCapabilities : Type.

(** [Partial<ViewParameters>]: the three parameters the factory sets,
    and the others, which it passes on. *)
Record ViewParameters := mkParameters {
  p_view : option string;
  p_camera : option string;
  p_displayMode : option string;
  p_others : option OtherParameters
}.

Record ViewFactoryOptions := mkOptions {
  params : option ViewParameters;
  baseView : option View;
  modifiers : option Modifiers;
  failSafe : bool
}.

Inductive ViewError :=
| ViewNoCameraError (view : string)
    (cameras_capabilities : list (string * RawCapabilities))
| ViewIncompatible (view camera : string)
    (camera_capabilities : option RawCapabilities).

(** The fields of a view, [baseView.evolve(parameters)],
    [new View(parameters)] and [applyViewModifiers]. *)
Variable view_view : View -> string.
Variable view_camera : View -> string.
Variable view_displayMode : View -> option string.
Variable evolve : View -> ViewParameters -> View.
Variable newView : ViewParameters -> View.
Variable applyViewModifiers : View -> option Modifiers -> View.

(** [getCameraIDsForViewName(cameraManager, view, cameraID?)], the IDs of
    the store, its cameras with their raw capabilities, the raw
    capabilities of one camera, and [FRIGATE_CARD_VIEW_DEFAULT]. *)
Variable getCameraIDsForViewName : string -> option string -> list string.
Variable allCameraIDs : list string.
Variable storeCameras : list (string * option RawCapabilities).
Variable cameraCapabilities : string -> option RawCapabilities.
Variable FRIGATE_CARD_VIEW_DEFAULT : string.

(** [getConfigManager().getConfig()]. *)
Variable config : option FactoryConfig.

Definition paramsOf (options : option ViewFactoryOptions) : option ViewParameters :=
  match options with Some o => params o | None => None end.

Definition baseViewOf (options : option ViewFactoryOptions) : option View :=
  match options with Some o => baseView o | None => None end.

Definition param {A} (field : ViewParameters -> option A)
    (options : option ViewFactoryOptions) : option A :=
  match paramsOf options with Some p => field p | None => None end.

Definition isViewSupportedByCamera (cameraID view : string) : bool :=
  negb (Nat.eqb (List.length (getCameraIDsForViewName view (Some cameraID))) 0).

Definition _getDefaultDisplayModeForView (viewName : string) (config : FactoryConfig)
    : string :=
  let mode :=
    if String.eqb viewName "media" || String.eqb viewName "clip"
       || String.eqb viewName "recording" || String.eqb viewName "snapshot"
    then media_viewer_display_mode config
    else if String.eqb viewName "live" then live_display_mode config
    else None in
  match mode with Some m => m | None => "single"%string end.

(** The object of the cameras' raw capabilities put into
    [ViewNoCameraError]. *)
Definition camerasToCapabilities : list (string * RawCapabilities) :=
  flat_map (fun '(cameraID, capabilities) =>
              match capabilities with
              | Some c => [(cameraID, c)]
              | None => []
              end) storeCameras.

(** [getViewByParameters] up to [viewParameters]: the parameters the
    view is made with, [null] without a configuration, or the error
    thrown. *)
Definition viewParametersFor (options : option ViewFactoryOptions)
    : ViewError + option ViewParameters :=
  match config with
  | None => inr None
  | Some config =>
      let cameraID :=
        orElse (param p_camera options) (option_map view_camera (baseViewOf options)) in
      let viewName :=
        match orElse (param p_view options) (option_map view_view (baseViewOf options)) with
        | Some v => v
        | None => view_default config
        end in
      let cameraID :=
        if negb (truthyOpt cameraID)
           || negb (match cameraID with
                    | Some c => existsb (String.eqb c) allCameraIDs
                    | None => false
                    end)
        then hd_error (getCameraIDsForViewName viewName None)
        else cameraID in
      match cameraID with
      | None => inl (ViewNoCameraError viewName camerasToCapabilities)
      | Some cameraID =>
          if negb (truthy cameraID)
          then inl (ViewNoCameraError viewName camerasToCapabilities)
          else
            let supported (viewName : string) :=
              let displayMode :=
                match orElse (param p_displayMode options)
                        (match baseViewOf options with
                         | Some b => view_displayMode b
                         | None => None
                         end) with
                | Some m => m
                | None => _getDefaultDisplayModeForView viewName config
                end in
              inr (Some (mkParameters (Some viewName) (Some cameraID) (Some displayMode)
                           (param p_others options))) in
            if negb (isViewSupportedByCamera cameraID viewName)
            then
              if match options with Some o => failSafe o | None => false end
                 && isViewSupportedByCamera cameraID FRIGATE_CARD_VIEW_DEFAULT
              then supported FRIGATE_CARD_VIEW_DEFAULT
              else inl (ViewIncompatible viewName cameraID (cameraCapabilities cameraID))
            else supported viewName
      end
  end.

Definition getViewByParameters (options : option ViewFactoryOptions)
    : ViewError + option View :=
  match viewParametersFor options with
  | inl e => inl e
  | inr None => inr None
  | inr (Some viewParameters) =>
      let view :=
        match baseViewOf options with
        | Some b => evolve b viewParameters
        | None => newView viewParameters
        end in
      inr (Some (applyViewModifiers view
                   (match options with Some o => modifiers o | None => None end)))
  end.

(** The camera [getViewDefault] settles on before it calls
    [getViewByParameters]; [None] when it returns [null] for want of a
    camera. *)
Definition defaultCameraFor (options : option ViewFactoryOptions)
    (config : FactoryConfig) (viewName : string) : option string :=
  if truthyOpt (param p_camera options) then param p_camera options
  else
    let cameraIDs := getCameraIDsForViewName viewName None in
    match cameraIDs with
    | [] => None
    | first :: _ =>
        if truthyOpt (option_map view_camera (baseViewOf options))
           && view_default_cycle_camera config
        then
          let currentIndex :=
            match baseViewOf options with
            | Some b => indexOf (view_camera b) cameraIDs
            | None => -1
            end in
          let targetIndex :=
            if currentIndex + 1 >=? Z.of_nat (List.length cameraIDs) then 0
            else currentIndex + 1 in
          nth_error cameraIDs (Z.to_nat targetIndex)
        else Some first
    end.

Definition getViewDefault (options : option ViewFactoryOptions)
    : ViewError + option View :=
  match config with
  | None => inr None
  | Some config =>
      let viewName :=
        match param p_view options with
        | Some v => v
        | None => view_default config
        end in
      match defaultCameraFor options config viewName with
      | None => inr None
      | Some cameraID =>
          getViewByParameters
            (Some (mkOptions
                     (Some (mkParameters (Some viewName) (Some cameraID)
                              (param p_displayMode options)
                              (param p_others options)))
                     (baseViewOf options) None false))
      end
  end.

(** ** Properties of the view factory *)

Lemma indexOf_range x l : -1 <= indexOf x l < Z.of_nat (List.length l).
Proof.
  induction l as [|y l IH]; simpl; [lia|].
  destruct (String.eqb y x); [lia|].
  destruct (Z.ltb_spec (indexOf x l) 0); lia.
Qed.

Lemma indexOf_absent x l : ~ In x l -> indexOf x l = -1.
Proof.
  induction l as [|y l IH]; simpl; [reflexivity|]. intros H.
  destruct (String.eqb_spec y x) as [->|_]; [exfalso; apply H; now left|].
  rewrite IH by (intros Hin; apply H; now right). reflexivity.
Qed.

Lemma indexOf_nth x l : forall i,
  NoDup l -> nth_error l i = Some x -> indexOf x l = Z.of_nat i.
Proof.
  induction l as [|y l IH]; intros i Hnd Hi; [destruct i; discriminate|].
  inversion Hnd as [|? ? Hnotin Hnd']; subst. simpl.
  destruct i as [|i]; simpl in Hi.
  - injection Hi as ->. now rewrite String.eqb_refl.
  - destruct (String.eqb_spec y x) as [->|_].
    + exfalso. apply Hnotin. eapply nth_error_In, Hi.
    + rewrite (IH i Hnd' Hi). destruct (Z.ltb_spec (Z.of_nat i) 0); lia.
Qed.

(** The view name asked for: the parameter, else the base view's, else
    the configured default. *)
Definition requestedView (options : option ViewFactoryOptions) (cfg : FactoryConfig) : string :=
  match orElse (param p_view options)
          (option_map view_view (baseViewOf options)) with
  | Some v => v
  | None => view_default cfg
  end.

(** The view is made from the base view when there is one. *)
Definition madeFrom (options : option ViewFactoryOptions)
    (parameters : ViewParameters) : View :=
  match baseViewOf options with
  | Some b => evolve b parameters
  | None => newView parameters
  end.

Lemma viewParametersFor_supported options parameters :
  viewParametersFor options = inr (Some parameters) ->
  exists cfg cameraID viewName displayMode,
    config = Some cfg /\
    parameters = mkParameters (Some viewName) (Some cameraID) (Some displayMode)
                   (param p_others options) /\
    truthy cameraID = true /\
    isViewSupportedByCamera cameraID viewName = true /\
    (viewName = requestedView options cfg \/
     (match options with Some o => failSafe o | None => false end = true /\
      viewName = FRIGATE_CARD_VIEW_DEFAULT)) /\
    (In cameraID allCameraIDs \/
     hd_error (getCameraIDsForViewName (requestedView options cfg) None)
       = Some cameraID) /\
    displayMode =
      match orElse (param p_displayMode options)
              (match baseViewOf options with
               | Some b => view_displayMode b
               | None => None
               end) with
      | Some m => m
      | None => _getDefaultDisplayModeForView viewName cfg
      end.
Proof.
  unfold viewParametersFor.
  destruct config as [cfg|]; [|discriminate].
  fold (requestedView options cfg).
  set (asked := orElse (param p_camera options)
                  (option_map view_camera (baseViewOf options))).
  set (known := match asked with
                | Some c => existsb (String.eqb c) allCameraIDs
                | None => false
                end).
  assert (Hcam : forall c,
    (if negb (truthyOpt asked) || negb known
     then hd_error (getCameraIDsForViewName (requestedView options cfg) None)
     else asked) = Some c ->
    In c allCameraIDs \/
    hd_error (getCameraIDsForViewName (requestedView options cfg) None) = Some c).
  { intros c. destruct (negb (truthyOpt asked) || negb known) eqn:E; [auto|].
    apply orb_false_elim in E as [_ Hk]. apply negb_false_iff in Hk.
    intros ->. left. unfold known in Hk.
    apply existsb_exists in Hk as (y & Hy & Heq).
    apply String.eqb_eq in Heq. now subst. }
  destruct (if negb (truthyOpt asked) || negb known
            then hd_error (getCameraIDsForViewName (requestedView options cfg) None)
            else asked) as [cameraID|]; [|discriminate].
  specialize (Hcam cameraID eq_refl).
  destruct (truthy cameraID) eqn:Ht; [|discriminate]. cbn [negb].
  destruct (isViewSupportedByCamera cameraID
              (requestedView options cfg)) eqn:Hs; cbn [negb].
  - intros [= <-]. exists cfg, cameraID, (requestedView options cfg). eexists.
    repeat split; auto.
  - destruct (match options with Some o => failSafe o | None => false end) eqn:Hf;
      [|discriminate]. cbn [andb].
    destruct (isViewSupportedByCamera cameraID
                FRIGATE_CARD_VIEW_DEFAULT) eqn:Hd; [|discriminate].
    intros [= <-]. exists cfg, cameraID, FRIGATE_CARD_VIEW_DEFAULT. eexists.
    repeat split; auto.
Qed.

Lemma getViewByParameters_made options view :
  getViewByParameters options = inr (Some view) ->
  exists cfg cameraID viewName displayMode,
    config = Some cfg /\
    view = applyViewModifiers
             (madeFrom options
                (mkParameters (Some viewName) (Some cameraID) (Some displayMode)
                   (param p_others options)))
             (match options with Some o => modifiers o | None => None end) /\
    truthy cameraID = true /\
    isViewSupportedByCamera cameraID viewName = true /\
    (viewName = requestedView options cfg \/
     (match options with Some o => failSafe o | None => false end = true /\
      viewName = FRIGATE_CARD_VIEW_DEFAULT)) /\
    (In cameraID allCameraIDs \/
     hd_error (getCameraIDsForViewName (requestedView options cfg) None)
       = Some cameraID) /\
    displayMode =
      match orElse (param p_displayMode options)
              (match baseViewOf options with
               | Some b => view_displayMode b
               | None => None
               end) with
      | Some m => m
      | None => _getDefaultDisplayModeForView viewName cfg
      end.
Proof.
  unfold getViewByParameters.
  destruct (viewParametersFor options) as [e|[parameters|]] eqn:Ep; try discriminate.
  intros [= <-].
  destruct (viewParametersFor_supported options parameters Ep)
    as (cfg & cameraID & viewName & displayMode & H1 & -> & H3).
  exists cfg, cameraID, viewName, displayMode. split; [exact H1|].
  split; [reflexivity | exact H3].
Qed.

(** X20.  A view [getViewByParameters] returns is made for a camera with a
    non-empty ID that supports the view's name.  The camera is one of the
    store, or the first camera of the view asked for; the name is the one
    asked for, or the default view when the fail-safe stepped in; the
    display mode is the parameter, else the base view's, else the
    configured mode for the name, else [single]. *)
Theorem getViewByParameters_supported options view :
  getViewByParameters options = inr (Some view) ->
  exists cfg cameraID viewName displayMode,
    config = Some cfg /\
    view = applyViewModifiers
             (madeFrom options
                (mkParameters (Some viewName) (Some cameraID) (Some displayMode)
                   (param p_others options)))
             (match options with Some o => modifiers o | None => None end) /\
    truthy cameraID = true /\
    isViewSupportedByCamera cameraID viewName = true /\
    (viewName = requestedView options cfg \/
     (match options with Some o => failSafe o | None => false end = true /\
      viewName = FRIGATE_CARD_VIEW_DEFAULT)) /\
    (In cameraID allCameraIDs \/
     hd_error (getCameraIDsForViewName (requestedView options cfg) None)
       = Some cameraID) /\
    displayMode =
      match orElse (param p_displayMode options)
              (match baseViewOf options with
               | Some b => view_displayMode b
               | None => None
               end) with
      | Some m => m
      | None => _getDefaultDisplayModeForView viewName cfg
      end.
Proof. apply getViewByParameters_made. Qed.

(** X21.  With the fail-safe on, a camera that supports the default view never
    makes [getViewByParameters] fail as incompatible: the only error left
    is that there is no camera. *)
Theorem getViewByParameters_failSafe options error :
  failSafe options = true ->
  (forall cameraID, truthy cameraID = true ->
     isViewSupportedByCamera cameraID FRIGATE_CARD_VIEW_DEFAULT = true) ->
  getViewByParameters (Some options) = inl error ->
  exists view capabilities, error = ViewNoCameraError view capabilities.
Proof.
  intros Hf Hdefault. unfold getViewByParameters, viewParametersFor.
  destruct config as [cfg|]; [|discriminate].
  match goal with
  | |- context [match ?c with Some _ => _ | None => inl ?e end] =>
      destruct c as [cameraID|]
  end.
  - destruct (truthy cameraID) eqn:Ht; cbn [negb].
    + destruct (isViewSupportedByCamera cameraID _);
        cbn [negb]; [discriminate|].
      rewrite Hf. rewrite (Hdefault cameraID Ht).
      discriminate.
    + intros [= <-]. eauto.
  - intros [= <-]. eauto.
Qed.

Lemma defaultCameraFor_cycles (options : ViewFactoryOptions) cfg viewName base :
  truthyOpt (param p_camera (Some options)) = false ->
  baseView options = Some base ->
  truthy (view_camera base) = true ->
  view_default_cycle_camera cfg = true ->
  NoDup (getCameraIDsForViewName viewName None) ->
  (forall i,
     nth_error (getCameraIDsForViewName viewName None) i = Some (view_camera base) ->
     defaultCameraFor (Some options) cfg viewName
     = nth_error (getCameraIDsForViewName viewName None)
         (S i mod List.length (getCameraIDsForViewName viewName None))) /\
  (~ In (view_camera base) (getCameraIDsForViewName viewName None) ->
   defaultCameraFor (Some options) cfg viewName
   = hd_error (getCameraIDsForViewName viewName None)).
Proof.
  intros Hp Hb Ht Hc Hnd. unfold defaultCameraFor. rewrite Hp.
  cbn [baseViewOf]. rewrite Hb. cbn [option_map truthyOpt]. rewrite Ht, Hc. cbn [andb].
  set (ids := getCameraIDsForViewName viewName None) in *.
  split.
  - intros i Hi.
    assert (Hlt : (i < List.length ids)%nat) by (apply nth_error_Some; congruence).
    destruct ids as [|first rest] eqn:Eids; [simpl in Hlt; lia|].
    rewrite <- Eids in *. rewrite (indexOf_nth _ _ i Hnd Hi).
    destruct (Z.geb_spec (Z.of_nat i + 1) (Z.of_nat (List.length ids))) as [Hge|Hlt'].
    + assert (S i = List.length ids) by lia.
      replace (S i mod List.length ids)%nat with 0%nat
        by (rewrite H; symmetry; apply Nat.Div0.mod_same).
      reflexivity.
    + rewrite Nat.mod_small by lia. f_equal. lia.
  - intros Hnot. destruct ids as [|first rest] eqn:Eids; [reflexivity|].
    rewrite <- Eids in *. rewrite (indexOf_absent _ _ Hnot).
    destruct (Z.geb_spec (-1 + 1) (Z.of_nat (List.length ids))) as [Hge|_].
    + rewrite Eids. reflexivity.
    + rewrite Eids. reflexivity.
Qed.

(** A camera of the store given as parameter is the camera the view is
    made for. *)
Lemma getViewByParameters_camera options cameraID view :
  param p_camera options = Some cameraID ->
  truthy cameraID = true ->
  In cameraID allCameraIDs ->
  getViewByParameters options = inr (Some view) ->
  exists viewName displayMode,
    view = applyViewModifiers
             (madeFrom options
                (mkParameters (Some viewName) (Some cameraID) (Some displayMode)
                   (param p_others options)))
             (match options with Some o => modifiers o | None => None end) /\
    (match options with Some o => failSafe o | None => false end = false ->
     forall cfg, config = Some cfg -> viewName = requestedView options cfg).
Proof.
  intros Hp Ht Hin. unfold getViewByParameters, viewParametersFor, madeFrom.
  destruct config as [cfg|]; [|discriminate].
  fold (requestedView options cfg). rewrite Hp. cbn [orElse truthyOpt]. rewrite Ht.
  assert (Hknown : existsb (String.eqb cameraID) allCameraIDs = true).
  { apply existsb_exists. exists cameraID. split; [exact Hin | apply String.eqb_refl]. }
  rewrite Hknown. cbn [negb orb]. rewrite Ht. cbn [negb].
  destruct (isViewSupportedByCamera cameraID (requestedView options cfg)); cbn [negb].
  - intros [= <-]. do 2 eexists. split; [reflexivity|].
    intros _ cfg' [= <-]. reflexivity.
  - destruct (match options with Some o => failSafe o | None => false end);
      cbn [andb]; [|discriminate].
    destruct (isViewSupportedByCamera cameraID FRIGATE_CARD_VIEW_DEFAULT);
      [|discriminate].
    intros [= <-]. do 2 eexists. split; [reflexivity|]. discriminate.
Qed.

(** X22.  [getViewDefault] chooses its camera in turn: with
    [default_cycle_camera] on, no camera parameter and a base view on the
    camera at position [i] of the view's cameras, it asks
    [getViewByParameters] for the camera at position [i + 1], and for the
    first one after the last; when that camera is a camera of the store,
    the view returned is made for it, under the view name of the
    parameter or else the configured default.  For a base view on a
    camera that is not among the view's cameras, it asks for the first of
    them; and when the view has no camera it returns [null]. *)
Theorem getViewDefault_cycles_cameras (options : ViewFactoryOptions) cfg base :
  config = Some cfg ->
  truthyOpt (param p_camera (Some options)) = false ->
  baseView options = Some base ->
  truthy (view_camera base) = true ->
  view_default_cycle_camera cfg = true ->
  let viewName :=
    match param p_view (Some options) with
    | Some v => v
    | None => view_default cfg
    end in
  let cameraIDs := getCameraIDsForViewName viewName None in
  let towards (cameraID : string) :=
    getViewByParameters
      (Some (mkOptions
               (Some (mkParameters (Some viewName) (Some cameraID)
                        (param p_displayMode (Some options))
                        (param p_others (Some options))))
               (Some base) None false)) in
  NoDup cameraIDs ->
  (forall i next,
     nth_error cameraIDs i = Some (view_camera base) ->
     nth_error cameraIDs (S i mod List.length cameraIDs) = Some next ->
     getViewDefault (Some options) = towards next /\
     (truthy next = true -> In next allCameraIDs ->
      forall view, getViewDefault (Some options) = inr (Some view) ->
        exists displayMode,
          view = applyViewModifiers
                   (evolve base
                      (mkParameters (Some viewName) (Some next) (Some displayMode)
                         (param p_others (Some options))))
                   None)) /\
  (forall first,
     ~ In (view_camera base) cameraIDs -> hd_error cameraIDs = Some first ->
     getViewDefault (Some options) = towards first) /\
  (cameraIDs = [] -> getViewDefault (Some options) = inr None).
Proof.
  intros Hcfg Hp Hb Ht Hc viewName cameraIDs towards Hnd.
  destruct (defaultCameraFor_cycles options cfg viewName base Hp Hb Ht Hc Hnd)
    as [Hcycle Hfirst].
  assert (Hrun : getViewDefault (Some options) =
    match defaultCameraFor (Some options) cfg viewName with
    | None => inr None
    | Some cameraID => towards cameraID
    end).
  { unfold getViewDefault. rewrite Hcfg. fold viewName.
    destruct (defaultCameraFor (Some options) cfg viewName); [|reflexivity].
    unfold towards. cbn [baseViewOf]. now rewrite Hb. }
  split; [|split].
  - intros i next Hi Hnext.
    assert (Hto : getViewDefault (Some options) = towards next).
    { rewrite Hrun, (Hcycle i Hi). fold cameraIDs. now rewrite Hnext. }
    split; [exact Hto|].
    intros Hnt Hin view Hview. rewrite Hto in Hview. unfold towards in Hview.
    apply getViewByParameters_camera with (cameraID := next) in Hview
      as (name & displayMode & -> & Hname); [|reflexivity | exact Hnt | exact Hin].
    rewrite (Hname eq_refl cfg Hcfg).
    exists displayMode. reflexivity.
  - intros first Hnot Hhd. rewrite Hrun, (Hfirst Hnot). fold cameraIDs. now rewrite Hhd.
  - intros Hnil. rewrite Hrun. unfold defaultCameraFor. rewrite Hp.
    fold cameraIDs. now rewrite Hnil.
Qed.

(** X23.  [getViewDefault] passes neither the modifiers nor the fail-safe on:
    a view it returns has no modifiers applied and carries the view name
    of the parameter, else the configured default - never the base
    view's name and never the fail-safe's substitute. *)
Theorem getViewDefault_plain (options : ViewFactoryOptions) view :
  getViewDefault (Some options) = inr (Some view) ->
  exists cfg cameraID displayMode,
    config = Some cfg /\
    let viewName :=
      match param p_view (Some options) with
      | Some v => v
      | None => view_default cfg
      end in
    view = applyViewModifiers
             (madeFrom (Some options)
                (mkParameters (Some viewName) (Some cameraID) (Some displayMode)
                   (param p_others (Some options))))
             None /\
    isViewSupportedByCamera cameraID viewName = true.
Proof.
  unfold getViewDefault.
  destruct config as [cfg|] eqn:Ecfg; [|discriminate].
  set (viewName := match param p_view (Some options) with
                   | Some v => v
                   | None => view_default cfg
                   end).
  destruct (defaultCameraFor (Some options) cfg
              viewName) as [chosen|]; [|discriminate].
  intros Hrun.
  pose proof (getViewByParameters_made _ _ Hrun) as H.
  destruct H as (cfg' & cameraID & name & displayMode & Hcfg & -> & _ & Hs & Hname & _).
  rewrite Ecfg in Hcfg. injection Hcfg as <-.
  exists cfg, cameraID, displayMode. split; [reflexivity|]. cbv zeta.
  fold viewName.
  assert (Hn : name = viewName).
  { destruct Hname as [-> | [Hf _]]; [|discriminate Hf].
    unfold requestedView. reflexivity. }
  subst name. split; [reflexivity | exact Hs].
Qed.

End Factory.

End ViewFactory.

(** * The carousel

    [FrigateCardCarousel] (components/carousel.ts) wraps an Embla
    carousel.  The Embla object is taken as given: the component reads
    its selected slide and its slides, and calls it.  The component's own
    state is the saved start index, the carousel, and the two flags that
    defer a re-initialisation while a scroll is in progress. *)

Module Carousel.

Inductive Direction := horizontal | vertical.

(** The Embla options the component sets or reads, and the others. *)
Record EmblaOptions (Others : Type) := mkEmblaOptions {
  axis : option string;
  speed : option Z;
  loop : option bool;
  startIndex : option Z;
  others : option Others
}.
Arguments mkEmblaOptions {Others} _ _ _ _ _.
Arguments axis {Others} _.
Arguments speed {Others} _.
Arguments loop {Others} _.
Arguments startIndex {Others} _.
Arguments others {Others} _.

(** What the component asks of the carousel and of itself. *)
Inductive Call :=
| Destroy
| ReInitInPlace
| DispatchSettle (index : Z).

Section Component.

Variable Embla : Type.
Variable Element : Type.
Variable Node : Type.
Variable Plugins : Type.
Variable Others : Type.

(** [carousel.selectedScrollSnap()], [carousel.slideNodes()] and the
    constructor [EmblaCarousel(nodes, options, plugins)]. *)
Variable selectedScrollSnap : Embla -> Z.
Variable slideNodes : Embla -> list Element.
Variable EmblaCarousel :
  Node * list Element -> EmblaOptions Others -> option Plugins -> Embla.

Record Component := mkComponent {
  direction : Direction;
  carouselOptions : option (EmblaOptions Others);
  carouselPlugins : option Plugins;
  _savedStartIndex : option Z;
  _carousel : option Embla;
  _scrolling : bool;
  _reInitOnSettle : bool
}.

Definition withCarousel (c : Component) (saved : option Z) (carousel : option Embla)
    : Component :=
  mkComponent (direction c) (carouselOptions c) (carouselPlugins c) saved carousel
    (_scrolling c) (_reInitOnSettle c).

Definition withFlags (c : Component) (scrolling reInit : bool) : Component :=
  mkComponent (direction c) (carouselOptions c) (carouselPlugins c)
    (_savedStartIndex c) (_carousel c) scrolling reInit.

(** [{ ...a, ...b }] on options: a field of [b] that is present wins. *)
Definition spreadOver (a : EmblaOptions Others) (b : option (EmblaOptions Others))
    : EmblaOptions Others :=
  match b with
  | None => a
  | Some b =>
      mkEmblaOptions
        (match axis b with Some x => Some x | None => axis a end)
        (match speed b with Some x => Some x | None => speed a end)
        (match loop b with Some x => Some x | None => loop a end)
        (match startIndex b with Some x => Some x | None => startIndex a end)
        (match others b with Some x => Some x | None => others a end)
  end.

(** [getCarouselSelected()]: the selected index and its slide. *)
Definition getCarouselSelected (c : Component) : option (Z * Element) :=
  match _carousel c with
  | None => None
  | Some carousel =>
      let index := selectedScrollSnap carousel in
      if index <? 0 then None
      else
        match nth_error (slideNodes carousel) (Z.to_nat index) with
        | Some element => Some (index, element)
        | None => None
        end
  end.

(** [_destroyCarousel(options)]; [savePosition] is false when the
    options are omitted. *)
Definition _destroyCarousel (c : Component) (savePosition : bool)
    : Component * list Call :=
  let saved :=
    if savePosition then option_map selectedScrollSnap (_carousel c) else None in
  (withCarousel c saved None,
   match _carousel c with Some _ => [Destroy] | None => [] end).

(** The options [_initCarousel] constructs the carousel with:
    [...(this._savedStartIndex && { startIndex: this._savedStartIndex })]
    adds nothing for [null] and for 0. *)
Definition initOptions (c : Component) : EmblaOptions Others :=
  let base :=
    mkEmblaOptions
      (Some (match direction c with horizontal => "x" | vertical => "y" end)%string)
      (Some 20) None None None in
  let configured := spreadOver base (carouselOptions c) in
  match _savedStartIndex c with
  | Some saved =>
      if saved =? 0 then configured
      else mkEmblaOptions (axis configured) (speed configured) (loop configured)
             (Some saved) (others configured)
  | None => configured
  end.

(** [_initCarousel()], given the viewport node and the slotted slides
    the component finds. *)
Definition _initCarousel (c : Component) (carouselNode : option Node)
    (slides : option (list Element)) : Component :=
  match carouselNode, slides with
  | Some node, Some slides =>
      withCarousel c (_savedStartIndex c)
        (Some (EmblaCarousel (node, slides) (initOptions c) (carouselPlugins c)))
  | _, _ => c
  end.

(** [disconnectedCallback], [_slotChanged] and [updated]. *)
Definition disconnectedCallback (c : Component) : Component * list Call :=
  _destroyCarousel c true.

Definition _slotChanged (c : Component) : Component * list Call :=
  _destroyCarousel c false.

Definition updated (c : Component) (carouselNode : option Node)
    (slides : option (list Element)) : Component :=
  match _carousel c with
  | None => _initCarousel c carouselNode slides
  | Some _ => c
  end.

(** [carouselReInitWhenSafe()]. *)
Definition carouselReInitWhenSafe (c : Component) : Component * list Call :=
  if _scrolling c then (withFlags c (_scrolling c) true, [])
  else (c, [ReInitInPlace]).

(** The handlers registered for the carousel's [scroll] and [settle]
    events; the two [settle] handlers run in the order registered. *)
Definition onScroll (c : Component) : Component * list Call :=
  (withFlags c true (_reInitOnSettle c), []).

Definition onSettle (c : Component) : Component * list Call :=
  let c' := withFlags c false false in
  (c',
   (if _reInitOnSettle c then [ReInitInPlace] else []) ++
   match getCarouselSelected c' with
   | Some (index, _) => [DispatchSettle index]
   | None => []
   end).

(** What happens to the component, one step at a time. *)
Inductive Happening :=
| ScrollStarts
| ScrollSettles
| ReInitRequested.

Definition happen (c : Component) (h : Happening) : Component * list Call :=
  match h with
  | ScrollStarts => onScroll c
  | ScrollSettles => onSettle c
  | ReInitRequested => carouselReInitWhenSafe c
  end.

Fixpoint happenAll (c : Component) (hs : list Happening) : Component * list Call :=
  match hs with
  | [] => (c, [])
  | h :: rest =>
      let (c1, calls1) := happen c h in
      let (c2, calls2) := happenAll c1 rest in
      (c2, calls1 ++ calls2)
  end.

(** ** Properties of the carousel *)

Definition reInits (calls : list Call) : nat :=
  List.length (filter (fun call => match call with ReInitInPlace => true | _ => false end)
                 calls).

Lemma happenAll_requests_while_scrolling c n :
  _scrolling c = true ->
  snd (happenAll c (repeat ReInitRequested n)) = [] /\
  _scrolling (fst (happenAll c (repeat ReInitRequested n))) = true /\
  _reInitOnSettle (fst (happenAll c (repeat ReInitRequested n)))
    = (_reInitOnSettle c || negb (Nat.eqb n 0)) /\
  _carousel (fst (happenAll c (repeat ReInitRequested n))) = _carousel c.
Proof.
  revert c. induction n as [|n IH]; intros c Hs; simpl.
  - rewrite orb_false_r. auto.
  - unfold carouselReInitWhenSafe. rewrite Hs.
    specialize (IH (withFlags c true true) eq_refl).
    destruct (happenAll (withFlags c true true) (repeat ReInitRequested n))
      as [c2 calls2]. simpl in *.
    destruct IH as (H1 & H2 & H3 & H4). rewrite H1, H2, H3, H4.
    rewrite orb_true_r. auto.
Qed.

Lemma happenAll_app c hs1 hs2 :
  happenAll c (hs1 ++ hs2) =
  (fst (happenAll (fst (happenAll c hs1)) hs2),
   snd (happenAll c hs1) ++ snd (happenAll (fst (happenAll c hs1)) hs2)).
Proof.
  revert c. induction hs1 as [|h hs1 IH]; intros c; simpl.
  - now destruct (happenAll c hs2).
  - destruct (happen c h) as [c1 calls1]. rewrite IH.
    destruct (happenAll c1 hs1) as [c2 calls2]. simpl.
    now rewrite app_assoc.
Qed.

Lemma happenAll_single c h : happenAll c [h] = happen c h.
Proof.
  simpl. destruct (happen c h) as [c1 calls1]. now rewrite app_nil_r.
Qed.

(** X24.  Requests to re-initialise that arrive during a scroll are held back
    and answered together: none re-initialises the carousel while it
    scrolls, and when the scroll settles the carousel is re-initialised
    once, however many requests there were (and not at all if there were
    none); afterwards nothing is pending. *)
Theorem reInit_deferred_until_settle c n :
  _reInitOnSettle c = false ->
  let during := happenAll c (ScrollStarts :: repeat ReInitRequested n) in
  let after := happenAll c (ScrollStarts :: repeat ReInitRequested n ++ [ScrollSettles]) in
  snd during = [] /\
  reInits (snd after) = (if Nat.eqb n 0 then 0 else 1)%nat /\
  _scrolling (fst after) = false /\
  _reInitOnSettle (fst after) = false /\
  snd (happen (fst after) ReInitRequested) = [ReInitInPlace].
Proof.
  intros Hclean during after.
  pose proof (happenAll_requests_while_scrolling (withFlags c true (_reInitOnSettle c)) n
                eq_refl) as (H1 & H2 & H3 & H4).
  assert (Hduring : during =
    happenAll (withFlags c true (_reInitOnSettle c)) (repeat ReInitRequested n)).
  { unfold during. simpl.
    now destruct (happenAll (withFlags c true (_reInitOnSettle c))
                    (repeat ReInitRequested n)). }
  assert (Hafter : after =
    (fst (onSettle (fst during)), snd during ++ snd (onSettle (fst during)))).
  { unfold after.
    change (ScrollStarts :: repeat ReInitRequested n ++ [ScrollSettles])
      with ((ScrollStarts :: repeat ReInitRequested n) ++ [ScrollSettles]).
    rewrite happenAll_app. fold during. now rewrite happenAll_single. }
  rewrite Hafter, Hduring, H1. cbn [fst snd app].
  split; [reflexivity|].
  unfold onSettle. cbn [fst snd]. rewrite H3, Hclean. cbn [orb].
  split; [|split; [reflexivity | split; [reflexivity|]]].
  - unfold reInits. rewrite filter_app, length_app.
    destruct (Nat.eqb n 0); cbn [negb];
      destruct (getCarouselSelected _) as [[index element]|]; reflexivity.
  - unfold happen, carouselReInitWhenSafe. reflexivity.
Qed.

(** X25.  A position saved when the carousel is destroyed is the start index
    the next carousel is constructed with - unless it is slide 0, for
    which the configured start index is used instead.  Changed slides
    abandon the position, and so does destroying twice: the second time
    there is no carousel left to read a position from, and the next
    carousel is constructed with the configured options. *)
Theorem saved_position_restored c carousel node slides :
  _carousel c = Some carousel ->
  let destroyed := fst (_destroyCarousel c true) in
  let configured :=
    spreadOver
      (mkEmblaOptions
         (Some (match direction c with horizontal => "x" | vertical => "y" end)%string)
         (Some 20) None None None)
      (carouselOptions c) in
  _carousel (updated destroyed (Some node) (Some slides))
    = Some (EmblaCarousel (node, slides)
              (mkEmblaOptions (axis configured) (speed configured) (loop configured)
                 (if selectedScrollSnap carousel =? 0 then startIndex configured
                  else Some (selectedScrollSnap carousel))
                 (others configured))
              (carouselPlugins c)) /\
  _carousel (updated (fst (_slotChanged c)) (Some node) (Some slides))
    = Some (EmblaCarousel (node, slides) configured (carouselPlugins c)) /\
  _carousel (updated (fst (_destroyCarousel destroyed true)) (Some node) (Some slides))
    = Some (EmblaCarousel (node, slides) configured (carouselPlugins c)) /\
  snd (_destroyCarousel destroyed true) = [] /\
  startIndex configured
    = match carouselOptions c with
      | Some options => startIndex options
      | None => None
      end.
Proof.
  intros Hc destroyed configured.
  unfold destroyed, configured, updated, _slotChanged, _destroyCarousel, _initCarousel,
    initOptions.
  rewrite Hc. cbn [fst snd withCarousel _carousel _savedStartIndex option_map
                   direction carouselOptions carouselPlugins].
  split; [|split; [|split; [|split]]]; try reflexivity.
  - destruct (selectedScrollSnap carousel =? 0); [|reflexivity].
    destruct (carouselOptions c) as [options|]; reflexivity.
  - destruct (carouselOptions c) as [options|]; [|reflexivity].
    simpl. now destruct (startIndex options).
Qed.

End Component.

End Carousel.

(** ** Concrete runs of the view factory and the carousel *)

Module FactoryFixtures.

Import ViewFactory.
Local Open Scope string_scope.

(** A view is its name and its camera; cameras [A], [B] and [C] support
    the live view, only [A] supports clips. *)
Definition FView : Type := string * string.

Definition fevolve (b : FView) (p : ViewParameters unit) : FView :=
  (match p_view unit p with Some v => v | None => fst b end,
   match p_camera unit p with Some c => c | None => snd b end).

Definition fnew (p : ViewParameters unit) : FView :=
  (match p_view unit p with Some v => v | None => EmptyString end,
   match p_camera unit p with Some c => c | None => EmptyString end).

Definition camerasFor (view : string) (camera : option string) : list string :=
  let all := if String.eqb view "clips" then ["A"] else ["A"; "B"; "C"] in
  match camera with
  | Some c => filter (String.eqb c) all
  | None => all
  end.

Definition fconfig : FactoryConfig := mkFactoryConfig "live" true None None.

Definition byParameters :=
  getViewByParameters FView unit unit unit fst snd (fun _ => None) fevolve fnew
    (fun v _ => v) camerasFor ["A"; "B"; "C"] [] (fun _ => None) "live" (Some fconfig).

Definition byDefault :=
  getViewDefault FView unit unit unit fst snd (fun _ => None) fevolve fnew
    (fun v _ => v) camerasFor ["A"; "B"; "C"] [] (fun _ => None) "live" (Some fconfig).

(** Clips on camera [B], with the fail-safe. *)
Definition clipsOnB : ViewFactoryOptions FView unit unit :=
  mkOptions FView unit unit
    (Some (mkParameters unit (Some "clips") (Some "B") None None)) None None true.

(** No parameters, coming from the live view of camera [C]. *)
Definition fromLiveC : ViewFactoryOptions FView unit unit :=
  mkOptions FView unit unit None (Some ("live", "C")) (Some tt) true.

End FactoryFixtures.

Section ConcreteRunsFactory.

Import ViewFactory FactoryFixtures.
Local Open Scope string_scope.

(** Clips on camera [B] falls back to the live view of [B]. *)
Lemma getViewByParameters_supported_witness :
  byParameters (Some clipsOnB) = inr (Some ("live", "B")) /\
  exists cameraID viewName,
    truthy cameraID = true /\
    isViewSupportedByCamera camerasFor cameraID viewName = true.
Proof.
  split; [reflexivity|].
  destruct (getViewByParameters_supported FView unit unit unit fst snd (fun _ => None)
              fevolve fnew (fun v _ => v) camerasFor ["A"; "B"; "C"] []
              (fun _ => None) "live" (Some fconfig) (Some clipsOnB) ("live", "B")
              eq_refl)
    as (cfg & cameraID & viewName & displayMode & _ & _ & Ht & Hs & _).
  exists cameraID, viewName. split; assumption.
Defined.

(** Clips for a camera the store does not know and no camera supporting
    a view named [nothing]: the error is that there is no camera. *)
Lemma getViewByParameters_failSafe_witness :
  failSafe FView unit unit
    (mkOptions FView unit unit
       (Some (mkParameters unit (Some "nothing") (Some "Z") None None)) None None true)
    = true /\
  exists view capabilities,
    getViewByParameters FView unit unit unit fst snd (fun _ => None) fevolve fnew
      (fun v _ => v) (fun view camera => if String.eqb view "nothing" then [] else ["A"])
      ["A"] [] (fun _ => None) "live" (Some fconfig)
      (Some (mkOptions FView unit unit
               (Some (mkParameters unit (Some "nothing") (Some "Z") None None))
               None None true))
    = inl (ViewNoCameraError unit view capabilities).
Proof.
  split; [reflexivity|].
  destruct (getViewByParameters_failSafe FView unit unit unit fst snd (fun _ => None)
              fevolve fnew (fun v _ => v)
              (fun view camera => if String.eqb view "nothing" then [] else ["A"])
              ["A"] [] (fun _ => None) "live" (Some fconfig)
              (mkOptions FView unit unit
                 (Some (mkParameters unit (Some "nothing") (Some "Z") None None))
                 None None true)
              (ViewNoCameraError unit "nothing" [])
              eq_refl (fun cameraID _ => eq_refl) eq_refl)
    as (view & capabilities & H).
  exists view, capabilities. rewrite <- H. reflexivity.
Defined.

(** From camera [C], the last of three, the default view moves on to
    camera [A]: [getViewDefault] asks for the live view of [A], and the
    view it returns is the base view evolved to camera [A]. *)
Lemma getViewDefault_cycles_cameras_witness :
  nth_error (camerasFor "live" None) 2 = Some "C" /\
  byDefault (Some fromLiveC)
    = byParameters
        (Some (mkOptions FView unit unit
                 (Some (mkParameters unit (Some "live") (Some "A") None None))
                 (Some ("live", "C")) None false)) /\
  exists displayMode,
    ("live", "A")
    = fevolve ("live", "C")
        (mkParameters unit (Some "live") (Some "A") (Some displayMode) None).
Proof.
  split; [reflexivity|].
  assert (Hnd : NoDup (camerasFor "live" None)).
  { simpl. constructor.
    - simpl. intros [H|[H|[]]]; discriminate.
    - constructor.
      + simpl. intros [H|[]]. discriminate.
      + constructor; [simpl; tauto | constructor]. }
  destruct (proj1 (getViewDefault_cycles_cameras FView unit unit unit fst snd
                     (fun _ => None) fevolve fnew (fun v _ => v) camerasFor
                     ["A"; "B"; "C"] [] (fun _ => None) "live" (Some fconfig)
                     fromLiveC fconfig ("live", "C")
                     eq_refl eq_refl eq_refl eq_refl eq_refl Hnd)
              2%nat "A" eq_refl eq_refl) as [Hto Hview].
  split; [exact Hto|].
  exact (Hview eq_refl (or_introl eq_refl) ("live", "A") eq_refl).
Defined.

(** The default view from camera [C]: the live view of camera [A],
    without the modifiers and the fail-safe of the options. *)
Lemma getViewDefault_plain_witness :
  byDefault (Some fromLiveC) = inr (Some ("live", "A")) /\
  exists cameraID,
    isViewSupportedByCamera camerasFor cameraID "live" = true.
Proof.
  split; [reflexivity|].
  destruct (getViewDefault_plain FView unit unit unit fst snd (fun _ => None)
              fevolve fnew (fun v _ => v) camerasFor ["A"; "B"; "C"] []
              (fun _ => None) "live" (Some fconfig) fromLiveC ("live", "A") eq_refl)
    as (cfg & cameraID & displayMode & Hcfg & _ & Hs).
  injection Hcfg as <-. exists cameraID. exact Hs.
Defined.

End ConcreteRunsFactory.

Module CarouselFixtures.

Import Carousel.

(** The carousel is its selected slide; it has three slides. *)
Definition component (selected : Z) : Component Z unit unit :=
  mkComponent Z unit unit horizontal
    (Some (mkEmblaOptions None None None (Some 2) None)) None None (Some selected)
    false false.

End CarouselFixtures.

Section ConcreteRunsCarousel.

Import Carousel CarouselFixtures.

(** Three requests during a scroll give one re-initialisation. *)
Lemma reInit_deferred_until_settle_witness :
  _reInitOnSettle Z unit unit (component 1) = false /\
  reInits (snd (happenAll Z nat unit unit (fun c => c) (fun _ => [0; 1; 2]%nat)
                  (component 1)
                  (ScrollStarts :: repeat ReInitRequested 3 ++ [ScrollSettles])))
  = 1%nat.
Proof.
  split; [reflexivity|].
  exact (proj1 (proj2 (reInit_deferred_until_settle Z nat unit unit (fun c => c)
                         (fun _ => [0; 1; 2]%nat) (component 1) 3 eq_refl))).
Defined.

(** With a carousel that selects the slide it is started at: destroyed
    at slide 1, the next carousel starts at slide 1; destroyed at slide
    0, it starts at the configured slide 2. *)
Lemma saved_position_restored_witness :
  _carousel Z unit unit (component 1) = Some 1 /\
  _carousel Z unit unit
    (updated Z nat unit unit unit
       (fun _ options _ => match startIndex options with Some s => s | None => 0 end)
       (fst (_destroyCarousel Z unit unit (fun c => c) (component 1) true))
       (Some tt) (Some [0; 1; 2]%nat))
    = Some 1 /\
  _carousel Z unit unit
    (updated Z nat unit unit unit
       (fun _ options _ => match startIndex options with Some s => s | None => 0 end)
       (fst (_destroyCarousel Z unit unit (fun c => c) (component 0) true))
       (Some tt) (Some [0; 1; 2]%nat))
    = Some 2.
Proof.
  split; [reflexivity|]. split.
  - rewrite (proj1 (saved_position_restored Z nat unit unit unit (fun c => c)
                      (fun _ options _ =>
                         match startIndex options with Some s => s | None => 0 end)
                      (component 1) 1 tt [0; 1; 2]%nat eq_refl)).
    reflexivity.
  - rewrite (proj1 (saved_position_restored Z nat unit unit unit (fun c => c)
                      (fun _ options _ =>
                         match startIndex options with Some s => s | None => 0 end)
                      (component 0) 0 tt [0; 1; 2]%nat eq_refl)).
    reflexivity.
Defined.

End ConcreteRunsCarousel.
